(** * hostsctl: the persistent store subsystem

    A shallow embedding of the hosts-file parser and serializer
    (internal/hosts/parser.go), the entry model (internal/hosts/model.go),
    the atomic store (internal/hosts/store.go), the advisory file lock
    (internal/lock/flock.go) and the IPv4 validator (pkg/validation.go),
    followed by the properties established about them.

    Conventions of the embedding.
    - A Go string holding UTF-8 text is its list of code points (runes).
      Every library routine the code applies to strings (regexp, strings.*,
      range loops) works rune by rune; [byte_len] recovers Go's [len].
    - Go's [int] is the 64-bit signed integer, a [Z] with its wrap-around
      written out where a stored value enters the arithmetic.
    - A function returning Go's [error] returns [option error] ([None] is
      nil); one returning [(T, error)] returns [error + T].
    - The file system and the lock table are explicit state. *)

From Stdlib Require Import ZArith NArith List Bool Lia.
From Stdlib Require String Ascii DecimalString.
From stdpp Require Import base list gmap.

Open Scope Z_scope.
Import String.StringSyntax.
Delimit Scope string_scope with string.

(** ** Strings *)

Abbreviation rune := N (only parsing).
Abbreviation gostring := (list N) (only parsing).

(** Number of bytes of the UTF-8 encoding of one rune. *)
Definition rune_width (r : rune) : nat :=
  if (r <? 128)%N then 1%nat
  else if (r <? 2048)%N then 2%nat
  else if (r <? 65536)%N then 3%nat
  else 4%nat.

(** Go's [len(s)]: the number of bytes. *)
Definition byte_len (s : gostring) : nat :=
  fold_right (fun r n => (rune_width r + n)%nat) 0%nat s.

(** Go source escapes, so that literals read as they do in the source:
    backslash followed by t, n, r, v, f or backslash. *)
Fixpoint unescape (s : gostring) : gostring :=
  match s with
  | 92%N :: c :: rest =>
      (if (c =? 116)%N then 9
       else if (c =? 110)%N then 10
       else if (c =? 114)%N then 13
       else if (c =? 118)%N then 11
       else if (c =? 102)%N then 12
       else c)%N :: unescape rest
  | c :: rest => c :: unescape rest
  | [] => []
  end.

Definition runes (s : String.string) : gostring :=
  map Ascii.N_of_ascii (String.list_ascii_of_string s).

Definition lit (s : String.string) : gostring := unescape (runes s).
Arguments runes s%_string.
Arguments lit s%_string.

Definition rune_eqb (a b : rune) : bool := (a =? b)%N.

Fixpoint str_eqb (a b : gostring) : bool :=
  match a, b with
  | [], [] => true
  | x :: a', y :: b' => rune_eqb x y && str_eqb a' b'
  | _, _ => false
  end.

(** [strings.HasPrefix(s, prefix)]. *)
Fixpoint HasPrefix (s prefix : gostring) : bool :=
  match prefix, s with
  | [], _ => true
  | p :: prefix', c :: s' => rune_eqb c p && HasPrefix s' prefix'
  | _ :: _, [] => false
  end.

(** [strings.Contains(s, substr)]. *)
Fixpoint Contains (s substr : gostring) : bool :=
  HasPrefix s substr ||
  match s with
  | [] => false
  | _ :: s' => Contains s' substr
  end.

(** [strings.Split(s, sep)] for a non-empty [sep]: the pieces between the
    non-overlapping occurrences of [sep], scanning from the left.  [skip]
    counts the runes of a separator still to be passed over, [cur] is the
    piece being collected. *)
Fixpoint split_go (sep : gostring) (skip : nat) (cur : gostring)
    (s : gostring) : list gostring :=
  match s with
  | [] => [cur]
  | c :: s' =>
      match skip with
      | S n => split_go sep n cur s'
      | O =>
          if HasPrefix s sep
          then cur :: split_go sep (length sep - 1) [] s'
          else split_go sep 0 (cur ++ [c]) s'
      end
  end.

Definition Split (s sep : gostring) : list gostring := split_go sep 0 [] s.

(** [strings.Join(elems, sep)]. *)
Fixpoint Join (elems : list gostring) (sep : gostring) : gostring :=
  match elems with
  | [] => []
  | [e] => e
  | e :: rest => e ++ sep ++ Join rest sep
  end.

(** [unicode.IsSpace]: the Unicode White_Space property. *)
Definition IsSpace (r : rune) : bool :=
  ((9 <=? r) && (r <=? 13) || (r =? 32) || (r =? 133) || (r =? 160)
   || (r =? 5760) || (8192 <=? r) && (r <=? 8202) || (r =? 8232)
   || (r =? 8233) || (r =? 8239) || (r =? 8287) || (r =? 12288))%N.

Fixpoint trim_left (s : gostring) : gostring :=
  match s with
  | c :: s' => if IsSpace c then trim_left s' else s
  | [] => []
  end.

(** [strings.TrimSpace(s)]. *)
Definition TrimSpace (s : gostring) : gostring :=
  rev (trim_left (rev (trim_left s))).

(** [strings.Fields(s)]: the maximal runs of non-space runes.  [cur] is the
    field being collected. *)
Fixpoint fields_go (cur : gostring) (s : gostring) : list gostring :=
  match s with
  | [] => match cur with [] => [] | _ => [cur] end
  | c :: s' =>
      if IsSpace c
      then match cur with
           | [] => fields_go [] s'
           | _ => cur :: fields_go [] s'
           end
      else fields_go (cur ++ [c]) s'
  end.

Definition Fields (s : gostring) : list gostring := fields_go [] s.

(** [fmt.Sprintf("%d", z)]. *)
Definition fmt_d (z : Z) : gostring :=
  runes (DecimalString.NilZero.string_of_int (Z.to_int z)).

(** [fmt.Sprintf("%v", ids)] for a slice of int: the values in brackets,
    separated by one space. *)
Definition fmt_v (ids : list Z) : gostring :=
  lit "[" ++ Join (map fmt_d ids) (lit " ") ++ lit "]".

(** ** Go's int *)

Definition int_bits : Z := 64.
Definition max_int : Z := 2 ^ (int_bits - 1) - 1.
Definition min_int : Z := - 2 ^ (int_bits - 1).

(** Two's-complement wrap-around of [int] arithmetic. *)
Definition wrap_int (z : Z) : Z :=
  (z + 2 ^ (int_bits - 1)) mod 2 ^ int_bits - 2 ^ (int_bits - 1).

(** ** Errors *)

Inductive error : Type :=
  | ParseError (Line : Z) (Content Reason : gostring)
  | ErrTooLong                                   (* bufio.ErrTooLong *)
  | PathError (op : gostring) (path : gostring)  (* a failed call of package os *)
  | Errno (name : gostring)                      (* a failed system call *)
  | Error (msg : gostring)                       (* fmt.Errorf without %w *)
  | Wrap (msg : gostring) (err : error).         (* fmt.Errorf("msg: %w", err) *)

(** ** Model (model.go) *)

Record Entry : Type := mkEntry {
  ID : Z;
  IP : gostring;
  Names : list gostring;
  Comment : gostring;
  Disabled : bool;
  Raw : gostring
}.

Record HostsFile : Type := mkHostsFile {
  Entries : list Entry;
  Path : gostring
}.

Definition set_ID (e : Entry) (id : Z) : Entry :=
  mkEntry id (IP e) (Names e) (Comment e) (Disabled e) (Raw e).

Definition set_Disabled (e : Entry) (d : bool) : Entry :=
  mkEntry (ID e) (IP e) (Names e) (Comment e) d (Raw e).

(** [Entry.IsValid]. *)
Definition IsValid (e : Entry) : bool :=
  negb (str_eqb (IP e) []) && (0 <? length (Names e))%nat.

(** [Entry.String]. *)
Definition String (e : Entry) : gostring :=
  let line := IP e in
  let line := fold_left (fun line name => line ++ lit "\t" ++ name) (Names e) line in
  let line := if negb (str_eqb (Comment e) []) then line ++ lit "\t# " ++ Comment e else line in
  let line := if Disabled e then lit "# " ++ line else line in
  line.

(** The [maxID] loop of [HostsFile.AddEntry]. *)
Definition maxID (entries : list Entry) : Z :=
  fold_left (fun maxID e => if maxID <? ID e then ID e else maxID) entries 0.

(** [HostsFile.AddEntry]. *)
Definition AddEntry (h : HostsFile) (entry : Entry) : HostsFile :=
  let entry :=
    if (length (Entries h) =? 0)%nat
    then set_ID entry 1
    else set_ID entry (wrap_int (maxID (Entries h) + 1)) in
  mkHostsFile (Entries h ++ [entry]) (Path h).

(** [HostsFile.FindByID], as the index of the entry found. *)
Fixpoint FindByID (entries : list Entry) (id : Z) : option nat :=
  match entries with
  | [] => None
  | e :: rest => if ID e =? id then Some 0%nat else option_map S (FindByID rest id)
  end.

(** [HostsFile.RemoveEntry]. *)
Fixpoint remove_first (entries : list Entry) (id : Z) : option (list Entry) :=
  match entries with
  | [] => None
  | e :: rest =>
      if ID e =? id then Some rest
      else option_map (cons e) (remove_first rest id)
  end.

Definition RemoveEntry (h : HostsFile) (id : Z) : HostsFile * bool :=
  match remove_first (Entries h) id with
  | Some entries => (mkHostsFile entries (Path h), true)
  | None => (h, false)
  end.

(** [Parser.Serialize]. *)
Definition Serialize (hostsFile : HostsFile) : gostring :=
  Join (map String (Entries hostsFile)) (lit "\n") ++ lit "\n".

(** [HostsFile.EnableEntry] and [HostsFile.DisableEntry]: the entry found
    by [FindByID] has its flag set in place. *)
Definition set_entry_disabled (h : HostsFile) (id : Z) (d : bool) : HostsFile * bool :=
  match FindByID (Entries h) id with
  | Some i => (mkHostsFile (alter (fun e => set_Disabled e d) i (Entries h)) (Path h), true)
  | None => (h, false)
  end.

Definition EnableEntry (h : HostsFile) (id : Z) : HostsFile * bool :=
  set_entry_disabled h id false.

Definition DisableEntry (h : HostsFile) (id : Z) : HostsFile * bool :=
  set_entry_disabled h id true.

(** ** Regular expressions (package regexp)

    Go's regexp returns the match a backtracking search finds first
    (leftmost-first).  The matcher below is that search, written with a
    continuation for the rest of the pattern.  Every pattern of the program
    is anchored at both ends, so a match is a match of the whole text. *)

Inductive regex : Type :=
  | Eps
  | Cls (p : rune -> bool)            (* one rune of a class *)
  | Cat (r1 r2 : regex)
  | Alt (r1 r2 : regex)               (* the left branch is tried first *)
  | Star (greedy : bool) (r : regex)
  | Grp (i : nat) (r : regex).        (* capturing group number i *)

(** [x?], [x+], [x+?], [x{n}], [x{0,n}]. *)
Definition Opt (r : regex) : regex := Alt r Eps.
Definition Plus (r : regex) : regex := Cat r (Star true r).
Definition LazyPlus (r : regex) : regex := Cat r (Star false r).

Fixpoint Times (n : nat) (r : regex) : regex :=
  match n with
  | O => Eps
  | S n' => Cat r (Times n' r)
  end.

Fixpoint UpTo (n : nat) (r : regex) : regex :=
  match n with
  | O => Eps
  | S n' => Opt (Cat r (UpTo n' r))
  end.

(** The way [run] is called: the text, the groups recorded so far, and the
    continuation for the rest of the pattern. *)
Abbreviation cont := (list N -> list (list N) -> option (list (list N))) (only parsing).

(** The iterations of a star whose body is matched by [body].  An iteration
    has to consume something, so the length of the text bounds their number:
    [n] starts there. *)
Fixpoint star_loop (body : gostring -> list gostring -> cont -> option (list gostring))
    (greedy : bool) (k : cont) (n : nat) (s : gostring) (caps : list gostring)
    {struct n} : option (list gostring) :=
  match n with
  | O => k s caps
  | S n' =>
      let again s' caps' :=
        if (length s' <? length s)%nat
        then star_loop body greedy k n' s' caps' else None in
      if greedy then
        match body s caps again with
        | Some m => Some m
        | None => k s caps
        end
      else
        match k s caps with
        | Some m => Some m
        | None => body s caps again
        end
  end.

(** [run r s caps k]: match [r] at the head of [s], then hand the rest of
    the text and the groups recorded so far to [k]; if [k] fails, try the
    next way of matching [r]. *)
Fixpoint run (r : regex) (s : gostring) (caps : list gostring) (k : cont)
    {struct r} : option (list gostring) :=
  match r with
  | Eps => k s caps
  | Cls p =>
      match s with
      | c :: s' => if p c then k s' caps else None
      | [] => None
      end
  | Cat r1 r2 => run r1 s caps (fun s' caps' => run r2 s' caps' k)
  | Alt r1 r2 =>
      match run r1 s caps k with
      | Some m => Some m
      | None => run r2 s caps k
      end
  | Star greedy r1 => star_loop (run r1) greedy k (length s) s caps
  | Grp i r1 =>
      run r1 s caps
        (fun s' caps' => k s' (<[i := take (length s - length s') s]> caps'))
  end.

Definition at_end (s : gostring) (caps : list gostring) : option (list gostring) :=
  match s with
  | [] => Some caps
  | _ => None
  end.

Record Regexp : Type := MustCompile {
  pattern : regex;     (* the part between ^ and $ *)
  NumSubexp : nat
}.

(** [Regexp.FindStringSubmatch]: nil (the empty list) without a match,
    otherwise the text matched and after it the text of every group, empty
    for a group that took no part. *)
Definition FindStringSubmatch (re : Regexp) (s : gostring) : list gostring :=
  match run (pattern re) s (s :: repeat [] (NumSubexp re)) at_end with
  | Some caps => caps
  | None => []
  end.

(** [Regexp.MatchString]. *)
Definition MatchString (re : Regexp) (s : gostring) : bool :=
  match run (pattern re) s (s :: repeat [] (NumSubexp re)) at_end with
  | Some _ => true
  | None => false
  end.

(** Classes. *)
Definition in_range (lo hi : N) (c : rune) : bool := ((lo <=? c) && (c <=? hi))%N.
Definition is_char (x : N) (c : rune) : bool := (c =? x)%N.

Definition cls_space (c : rune) : bool :=        (* \s = [\t\n\f\r ] *)
  is_char 9 c || is_char 10 c || is_char 12 c || is_char 13 c || is_char 32 c.
Definition cls_nonspace (c : rune) : bool := negb (cls_space c).   (* \S *)
Definition cls_any (c : rune) : bool := negb (is_char 10 c).       (* . *)
Definition cls_digit (c : rune) : bool := in_range 48 57 c.        (* [0-9] *)
Definition cls_alnum (c : rune) : bool :=                          (* [a-zA-Z0-9] *)
  in_range 97 122 c || in_range 65 90 c || in_range 48 57 c.
Definition cls_alnum_hyphen (c : rune) : bool :=                   (* [a-zA-Z0-9\-] *)
  cls_alnum c || is_char 45 c.

Definition hash : regex := Cls (is_char 35).
Definition dot : regex := Cls (is_char 46).

(** The entry pattern, its tokens spaced out:
    ^ ( \s* # \s* )? ( \S+ ) \s+ ( .+? ) (?: \s* # \s* ( .* ) )? $ *)
Definition disabled_prefix : regex :=            (* \s* # \s* *)
  Cat (Star true (Cls cls_space)) (Cat hash (Star true (Cls cls_space))).

Definition trailing_comment : regex :=           (* \s* # \s* ( .* ) *)
  Cat (Star true (Cls cls_space))
      (Cat hash (Cat (Star true (Cls cls_space)) (Grp 4 (Star true (Cls cls_any))))).

Definition entryRegex : Regexp :=
  MustCompile
    (Cat (Opt (Grp 1 disabled_prefix))
    (Cat (Grp 2 (Plus (Cls cls_nonspace)))
    (Cat (Plus (Cls cls_space))
    (Cat (Grp 3 (LazyPlus (Cls cls_any)))
         (Opt trailing_comment)))))
    4.

(** One label, [a-zA-Z0-9] ( [a-zA-Z0-9\-]{0,61} [a-zA-Z0-9] )?, with the
    number of its group. *)
Definition label (g : nat) : regex :=
  Cat (Cls cls_alnum)
      (Opt (Grp g (Cat (UpTo 61 (Cls cls_alnum_hyphen)) (Cls cls_alnum)))).

(** The hostname pattern: ^ label ( \. label )* $ *)
Definition hostnameRegex : Regexp :=
  MustCompile (Cat (label 1) (Star true (Grp 2 (Cat dot (label 3))))) 3.

(** One octet: 25[0-5] | 2[0-4][0-9] | [01]?[0-9][0-9]? *)
Definition octet : regex :=
  Alt (Cat (Cls (is_char 50)) (Cat (Cls (is_char 53)) (Cls (in_range 48 53))))
 (Alt (Cat (Cls (is_char 50)) (Cat (Cls (in_range 48 52)) (Cls cls_digit)))
      (Cat (Opt (Cls (in_range 48 49))) (Cat (Cls cls_digit) (Opt (Cls cls_digit))))).

(** The IPv4 pattern: ^ ( ( octet ) \. ){3} ( octet ) $ *)
Definition ipv4Regex : Regexp :=
  MustCompile (Cat (Times 3 (Grp 1 (Cat (Grp 2 octet) dot))) (Grp 3 octet)) 3.

(** ** Validator (pkg/validation.go) *)

(** [pkg.ValidateIPv4]; the error is the message of the ValidationError. *)
Definition ValidateIPv4 (ip : gostring) : option error :=
  if str_eqb ip [] then Some (Error (lit "IPv4 address cannot be empty"))
  else if negb (MatchString ipv4Regex ip) then Some (Error (lit "invalid IPv4 address format"))
  else None.

(** [pkg.IsValidIPv4]. *)
Definition IsValidIPv4 (ip : gostring) : bool :=
  match ValidateIPv4 ip with None => true | Some _ => false end.

(** ** Parser (parser.go) *)

(** [Parser.isValidIPv6Part]. *)
Definition isValidIPv6Part (part : gostring) : bool :=
  if (byte_len part =? 0)%nat || (4 <? byte_len part)%nat then false
  else forallb (fun char => in_range 48 57 char || in_range 97 102 char
                            || in_range 65 70 char) part.

(** [Parser.isValidIPv6]. *)
Definition isValidIPv6 (ip : gostring) : bool :=
  if Contains ip (lit "::") then
    let parts := Split ip (lit "::") in
    match parts with
    | [p0; p1] =>
        let leftParts := if negb (str_eqb p0 []) then Split p0 (lit ":") else [] in
        let rightParts := if negb (str_eqb p1 []) then Split p1 (lit ":") else [] in
        let totalParts := (length leftParts + length rightParts)%nat in
        if (8 <=? totalParts)%nat then false
        else forallb isValidIPv6Part (leftParts ++ rightParts)
    | _ => false
    end
  else
    let parts := Split ip (lit ":") in
    if negb (length parts =? 8)%nat then false
    else forallb isValidIPv6Part parts.

(** The body of the loop over the four parts in [Parser.isValidIP]. *)
Definition valid_ipv4_part (part : gostring) : bool :=
  if (byte_len part =? 0)%nat || (3 <? byte_len part)%nat then false
  else if negb (forallb (fun char => negb ((char <? 48)%N || (57 <? char)%N)) part) then false
  else
    let num := fold_left (fun num char => num * 10 + (Z.of_N char - 48)) part 0 in
    if 255 <? num then false
    else if (1 <? byte_len part)%nat && match part with c :: _ => (c =? 48)%N | [] => false end
    then false
    else true.

(** [Parser.isValidIP]. *)
Definition isValidIP (ip : gostring) : bool :=
  let parts := Split ip (lit ".") in
  if negb (length parts =? 4)%nat then isValidIPv6 ip
  else forallb valid_ipv4_part parts.

(** [Parser.isValidHostname]. *)
Definition isValidHostname (hostname : gostring) : bool :=
  if (byte_len hostname =? 0)%nat || (253 <? byte_len hostname)%nat then false
  else if str_eqb hostname (lit "localhost") then true
  else MatchString hostnameRegex hostname.

(** [Parser.isDisabledEntry]. *)
Definition isDisabledEntry (line : gostring) : bool :=
  let matches := FindStringSubmatch entryRegex line in
  (4 <=? length matches)%nat && negb (str_eqb (TrimSpace (matches !!! 1%nat)) []).

(** [Parser.parseLine]. *)
Definition parseLine (line : gostring) (lineNum entryID : Z) : error + option Entry :=
  let trimmed := TrimSpace line in
  if str_eqb trimmed [] then inr None
  else
    let matches := FindStringSubmatch entryRegex line in
    if (length matches <? 4)%nat
    then inl (ParseError lineNum line (lit "invalid line format"))
    else
      let disabled := negb (str_eqb (TrimSpace (matches !!! 1%nat)) []) in
      let ip := TrimSpace (matches !!! 2%nat) in
      let hostnames := Fields (TrimSpace (matches !!! 3%nat)) in
      let comment := if (4 <? length matches)%nat then TrimSpace (matches !!! 4%nat) else [] in
      if negb (isValidIP ip)
      then inl (ParseError lineNum line (lit "invalid IP address: " ++ ip))
      else
        match filter (fun hostname => isValidHostname hostname = false) hostnames with
        | hostname :: _ =>
            inl (ParseError lineNum line (lit "invalid hostname: " ++ hostname))
        | [] => inr (Some (mkEntry entryID ip hostnames comment disabled line))
        end.

(** bufio.Scanner with its default split function and buffer: the lines of
    the text, each without its line end.  [raw_lines] cuts at every newline
    (a last line needs none); a line of 64 KiB or more does not fit the
    buffer and ends the scan with [ErrTooLong]. *)
Fixpoint raw_lines (text : gostring) : list gostring :=
  match text with
  | [] => []
  | c :: rest =>
      if (c =? 10)%N then [] :: raw_lines rest
      else match raw_lines rest with
           | [] => [[c]]
           | line :: lines => (c :: line) :: lines
           end
  end.

Definition MaxScanTokenSize : nat := 64 * 1024.

(** [dropCR]. *)
Definition dropCR (data : gostring) : gostring :=
  match rev data with
  | 13%N :: rest => rev rest
  | _ => data
  end.

(** The tokens [Scan] delivers and the value of [Err] after the last. *)
Fixpoint scan_tokens (raw : list gostring) : list gostring * option error :=
  match raw with
  | [] => ([], None)
  | data :: rest =>
      if (MaxScanTokenSize <=? byte_len data)%nat then ([], Some ErrTooLong)
      else let '(lines, err) := scan_tokens rest in (dropCR data :: lines, err)
  end.

(** The loop of [Parser.Parse] over the scanned lines.  The two counters
    count lines read and entries kept, both bounded by the length of the
    input, so their increments cannot overflow. *)
Fixpoint parse_lines (strict : bool) (lines : list gostring) (lineNum entryID : Z)
    (entries : list Entry) : error + list Entry :=
  match lines with
  | [] => inr entries
  | line :: rest =>
      let lineNum := lineNum + 1 in
      let trimmed := TrimSpace line in
      if str_eqb trimmed [] || (HasPrefix trimmed (lit "#") && negb (isDisabledEntry line))
      then parse_lines strict rest lineNum entryID entries
      else
        match parseLine line lineNum entryID with
        | inl err =>
            if strict then inl err
            else parse_lines strict rest lineNum entryID entries
        | inr (Some entry) =>
            parse_lines strict rest lineNum (entryID + 1) (entries ++ [entry])
        | inr None => parse_lines strict rest lineNum entryID entries
        end
  end.

(** [Parser.Parse], reading the whole of [text]. *)
Definition Parse (strict : bool) (text : gostring) : error + HostsFile :=
  let '(lines, scanErr) := scan_tokens (raw_lines text) in
  match parse_lines strict lines 0 1 [] with
  | inl err => inl err
  | inr entries =>
      match scanErr with
      | Some err => inl (Wrap (lit "error reading input") err)
      | None => inr (mkHostsFile entries [])
      end
  end.

(** ** The file system seen by the store *)

(** What the environment decides: which calls fail.  A short write stops
    after the given number of runes and reports an error. *)
Record Faults : Type := mkFaults {
  fail_open : gostring -> bool;
  fail_create : gostring -> bool;
  short_write : gostring -> option nat;
  fail_sync : gostring -> bool;
  fail_rename : gostring -> gostring -> bool
}.

Inductive Event : Type :=
  | EvOpen (path : gostring)
  | EvCreate (path : gostring)
  | EvWrite (path : gostring) (data : gostring)
  | EvSync (path : gostring)
  | EvRename (oldpath newpath : gostring)
  | EvRemove (path : gostring).

Record World : Type := mkWorld {
  files : gmap (list N) (list N);   (* path to content *)
  euid : Z;                         (* os.Geteuid() *)
  stamp : gostring;                 (* time.Now().Format("20060102-150405") *)
  faults : Faults;
  trace : list Event                (* the calls made so far, oldest first *)
}.

Definition with_files (w : World) (fs : gmap (list N) (list N)) (ev : Event) : World :=
  mkWorld fs (euid w) (stamp w) (faults w) (trace w ++ [ev]).

Definition log (w : World) (ev : Event) : World := with_files w (files w) ev.

(** [os.Open]: the content the handle will read. *)
Definition os_Open (path : gostring) (w : World) : (error + gostring) * World :=
  let w := log w (EvOpen path) in
  match files w !! path with
  | Some content =>
      if fail_open (faults w) path
      then (inl (PathError (lit "open") path), w)
      else (inr content, w)
  | None => (inl (PathError (lit "open") path), w)
  end.

(** [os.Create]: creates the file or truncates it. *)
Definition os_Create (path : gostring) (w : World) : option error * World :=
  if fail_create (faults w) path
  then (Some (PathError (lit "open") path), log w (EvCreate path))
  else (None, with_files w (<[path := []]> (files w)) (EvCreate path)).

(** Writing [data] to the freshly created file at [path]: [io.Copy] into
    it, or [File.WriteString]. *)
Definition os_Write (path data : gostring) (w : World) : option error * World :=
  match short_write (faults w) path with
  | Some n =>
      (Some (PathError (lit "write") path),
       with_files w (<[path := take n data]> (files w)) (EvWrite path data))
  | None => (None, with_files w (<[path := data]> (files w)) (EvWrite path data))
  end.

(** [File.Sync]. *)
Definition os_Sync (path : gostring) (w : World) : option error * World :=
  if fail_sync (faults w) path
  then (Some (PathError (lit "sync") path), log w (EvSync path))
  else (None, log w (EvSync path)).

(** [os.Rename]: replaces [newpath] by the file at [oldpath]. *)
Definition os_Rename (oldpath newpath : gostring) (w : World) : option error * World :=
  match files w !! oldpath with
  | Some content =>
      if fail_rename (faults w) oldpath newpath
      then (Some (PathError (lit "rename") oldpath), log w (EvRename oldpath newpath))
      else (None, with_files w (<[newpath := content]> (delete oldpath (files w)))
                    (EvRename oldpath newpath))
  | None => (Some (PathError (lit "rename") oldpath), log w (EvRename oldpath newpath))
  end.

(** [os.Remove], its error ignored by the caller. *)
Definition os_Remove (path : gostring) (w : World) : World :=
  with_files w (delete path (files w)) (EvRemove path).

(** ** Store (store.go) *)

Record Store : Type := mkStore {
  path : gostring;
  strict : bool     (* the mode of the store's parser *)
}.

Definition NewStore (path : gostring) (strict : bool) : Store := mkStore path strict.

(** [Store.requiresRoot]. *)
Definition requiresRoot (s : Store) (w : World) : option error :=
  if str_eqb (path s) (lit "/etc/hosts") && negb (euid w =? 0)
  then Some (Error (lit "modifying /etc/hosts requires root privileges (run with sudo)"))
  else None.

Definition backupPath (s : Store) (w : World) : gostring :=
  path s ++ lit ".hostsctl." ++ stamp w ++ lit ".bak".

(** [Store.createBackup]. *)
Definition createBackup (s : Store) (w : World) : option error * World :=
  let backupPath := backupPath s w in
  match os_Open (path s) w with
  | (inl err, w) => (Some err, w)
  | (inr sourceFile, w) =>
      match os_Create backupPath w with
      | (Some err, w) => (Some err, w)
      | (None, w) => os_Write backupPath sourceFile w
      end
  end.

(** [Store.writeTemp]. *)
Definition writeTemp (s : Store) (tempPath content : gostring) (w : World)
    : option error * World :=
  match os_Create tempPath w with
  | (Some err, w) => (Some err, w)
  | (None, w) =>
      match os_Write tempPath content w with
      | (Some err, w) => (Some err, w)
      | (None, w) => os_Sync tempPath w
      end
  end.

(** [Store.Save]. *)
Definition Save (s : Store) (hostsFile : HostsFile) (w : World) : option error * World :=
  match requiresRoot s w with
  | Some err => (Some err, w)
  | None =>
      let content := Serialize hostsFile in
      match createBackup s w with
      | (Some err, w) => (Some (Wrap (lit "failed to create backup") err), w)
      | (None, w) =>
          let tempPath := path s ++ lit ".tmp" in
          match writeTemp s tempPath content w with
          | (Some err, w) => (Some (Wrap (lit "failed to write temporary file") err), w)
          | (None, w) =>
              match os_Rename tempPath (path s) w with
              | (Some err, w) =>
                  let w := os_Remove tempPath w in
                  (Some (Wrap (lit "failed to atomically replace hosts file") err), w)
              | (None, w) => (None, w)
              end
          end
      end
  end.

(** [Store.Load]. *)
Definition Load (s : Store) (w : World) : (error + HostsFile) * World :=
  match os_Open (path s) w with
  | (inl err, w) => (inl (Wrap (lit "failed to open hosts file") err), w)
  | (inr file, w) =>
      match Parse (strict s) file with
      | inl err => (inl (Wrap (lit "failed to parse hosts file") err), w)
      | inr hostsFile => (inr (mkHostsFile (Entries hostsFile) (path s)), w)
      end
  end.

(** The issue strings of [Store.Verify]. *)
Definition invalid_entry_issue (id : Z) : gostring :=
  lit "entry " ++ fmt_d id ++ lit ": invalid entry (missing IP or names)".

Definition invalid_ip_issue (id : Z) (ip : gostring) : gostring :=
  lit "entry " ++ fmt_d id ++ lit ": invalid IP address: " ++ ip.

Definition invalid_hostname_issue (id : Z) (name : gostring) : gostring :=
  lit "entry " ++ fmt_d id ++ lit ": invalid hostname: " ++ name.

Definition duplicate_issue (name : gostring) (ids : list Z) : gostring :=
  lit "duplicate hostname '" ++ name ++ lit "' found in entries: " ++ fmt_v ids.

(** The body of the loop over an entry's names in [Store.Verify];
    [seenNames[name]] of a missing key is the empty slice. *)
Definition verify_name (id : Z) (acc : list gostring * gmap (list N) (list Z))
    (name : gostring) : list gostring * gmap (list N) (list Z) :=
  let '(issues, seenNames) := acc in
  let issues :=
    if negb (isValidHostname name)
    then issues ++ [invalid_hostname_issue id name] else issues in
  (issues, <[name := default [] (seenNames !! name) ++ [id]]> seenNames).

(** The body of the loop over the entries in [Store.Verify]. *)
Definition verify_entry (acc : list gostring * gmap (list N) (list Z))
    (entry : Entry) : list gostring * gmap (list N) (list Z) :=
  let '(issues, seenNames) := acc in
  if negb (IsValid entry)
  then (issues ++ [invalid_entry_issue (ID entry)], seenNames)
  else
    let issues :=
      if negb (isValidIP (IP entry))
      then issues ++ [invalid_ip_issue (ID entry) (IP entry)] else issues in
    fold_left (verify_name (ID entry)) (Names entry) (issues, seenNames).

(** The body of the loop over [seenNames]. *)
Definition verify_seen (issues : list gostring) (seen : list N * list Z) : list gostring :=
  let '(name, ids) := seen in
  if (1 <? length ids)%nat then issues ++ [duplicate_issue name ids] else issues.

Section MapOrder.
(** Go leaves the order in which [range] visits a map open: it is a
    parameter of [Verify]. *)
Variable range_order : gmap (list N) (list Z) -> list (list N * list Z).

(** [Store.Verify]. *)
Definition Verify (s : Store) (w : World) : (error + list gostring) * World :=
  match Load s w with
  | (inl err, w) => (inl err, w)
  | (inr hostsFile, w) =>
      let '(issues, seenNames) := fold_left verify_entry (Entries hostsFile) ([], ∅) in
      (inr (fold_left verify_seen (range_order seenNames) issues), w)
  end.
End MapOrder.

(** ** Lock (flock.go) *)

Inductive LockEvent : Type :=
  | LkOpenFile (path : gostring)
  | LkFlock (fd : nat) (unlock : bool)
  | LkWriteString (fd : nat) (data : gostring)
  | LkSync (fd : nat)
  | LkClose (fd : nat)
  | LkRemove (path : gostring)
  | LkSleep (ns : Z).

(** The operating system seen by the lock.  An exclusive flock belongs to
    an open file description; [release_at] is the time at which the holder
    of a path's lock, some other process, lets go of it. *)
Record LockOS : Type := mkLockOS {
  lock_files : gmap (list N) (list N);
  open_fds : gmap nat (list N);
  flocks : gmap (list N) nat;
  release_at : gmap (list N) Z;
  next_fd : nat;
  pid : Z;
  now : Z;                               (* nanoseconds *)
  fail_openfile : gostring -> bool;
  flock_errno : gostring -> option gostring;   (* a failure other than contention *)
  fail_unlock : gostring -> bool;
  lock_trace : list LockEvent
}.

Record FileLock : Type := mkFileLock {
  file : option nat;      (* the lock file handle, nil when released *)
  lock_path : gostring;   (* the file being locked *)
  acquired : bool
}.

Definition NewFileLock (path : gostring) : FileLock := mkFileLock None path false.

Definition lk_log (os : LockOS) (ev : LockEvent) : LockOS :=
  mkLockOS (lock_files os) (open_fds os) (flocks os) (release_at os) (next_fd os)
    (pid os) (now os) (fail_openfile os) (flock_errno os) (fail_unlock os)
    (lock_trace os ++ [ev]).

Definition EAGAIN : error := Errno (lit "EAGAIN").
Definition EACCES : error := Errno (lit "EACCES").

Definition is_contention (err : error) : bool :=
  match err with
  | Errno name => str_eqb name (lit "EAGAIN") || str_eqb name (lit "EACCES")
  | _ => false
  end.

(** [os.OpenFile(path, os.O_CREATE|os.O_WRONLY, 0600)]. *)
Definition os_OpenFile (path : gostring) (os : LockOS) : (error + nat) * LockOS :=
  let os := lk_log os (LkOpenFile path) in
  if fail_openfile os path
  then (inl (PathError (lit "open") path), os)
  else
    let fd := next_fd os in
    let content := default [] (lock_files os !! path) in
    (inr fd,
     mkLockOS (<[path := content]> (lock_files os)) (<[fd := path]> (open_fds os))
       (flocks os) (release_at os) (S fd) (pid os) (now os) (fail_openfile os)
       (flock_errno os) (fail_unlock os) (lock_trace os)).

Definition set_flocks (os : LockOS) (fl : gmap (list N) nat) (rel : gmap (list N) Z) : LockOS :=
  mkLockOS (lock_files os) (open_fds os) fl rel (next_fd os) (pid os) (now os)
    (fail_openfile os) (flock_errno os) (fail_unlock os) (lock_trace os).

(** [syscall.Flock(fd, LOCK_EX|LOCK_NB)]. *)
Definition flock_ex_nb (fd : nat) (os : LockOS) : option error * LockOS :=
  let os := lk_log os (LkFlock fd false) in
  match open_fds os !! fd with
  | None => (Some (Errno (lit "EBADF")), os)
  | Some path =>
      match flock_errno os path with
      | Some name => (Some (Errno name), os)
      | None =>
          let take_it := (None, set_flocks os (<[path := fd]> (flocks os))
                                  (delete path (release_at os))) in
          match flocks os !! path with
          | None => take_it
          | Some holder =>
              if (holder =? fd)%nat then (None, os)
              else match release_at os !! path with
                   | Some t => if t <=? now os then take_it else (Some EAGAIN, os)
                   | None => (Some EAGAIN, os)
                   end
          end
      end
  end.

(** [syscall.Flock(fd, LOCK_UN)]. *)
Definition flock_un (fd : nat) (os : LockOS) : option error * LockOS :=
  let os := lk_log os (LkFlock fd true) in
  match open_fds os !! fd with
  | None => (Some (Errno (lit "EBADF")), os)
  | Some path =>
      if fail_unlock os path then (Some (Errno (lit "EINVAL")), os)
      else
        match flocks os !! path with
        | Some holder =>
            if (holder =? fd)%nat
            then (None, set_flocks os (delete path (flocks os)) (release_at os))
            else (None, os)
        | None => (None, os)
        end
  end.

(** [File.Close]: the description goes away and with it any flock it holds. *)
Definition file_Close (fd : nat) (os : LockOS) : LockOS :=
  let os := lk_log os (LkClose fd) in
  let held :=
    match open_fds os !! fd with
    | Some path =>
        match flocks os !! path with
        | Some holder => if (holder =? fd)%nat then delete path (flocks os) else flocks os
        | None => flocks os
        end
    | None => flocks os
    end in
  mkLockOS (lock_files os) (delete fd (open_fds os)) held (release_at os) (next_fd os)
    (pid os) (now os) (fail_openfile os) (flock_errno os) (fail_unlock os) (lock_trace os).

(** [File.WriteString] on a handle opened without O_TRUNC or O_APPEND,
    followed by nothing else: the data replaces the head of the file. *)
Definition file_WriteString (fd : nat) (data : gostring) (os : LockOS) : LockOS :=
  let os := lk_log os (LkWriteString fd data) in
  match open_fds os !! fd with
  | Some path =>
      let old := default [] (lock_files os !! path) in
      mkLockOS (<[path := data ++ drop (length data) old]> (lock_files os)) (open_fds os)
        (flocks os) (release_at os) (next_fd os) (pid os) (now os) (fail_openfile os)
        (flock_errno os) (fail_unlock os) (lock_trace os)
  | None => os
  end.

Definition file_Sync (fd : nat) (os : LockOS) : LockOS := lk_log os (LkSync fd).

Definition lk_Remove (path : gostring) (os : LockOS) : LockOS :=
  let os := lk_log os (LkRemove path) in
  mkLockOS (delete path (lock_files os)) (open_fds os) (flocks os) (release_at os)
    (next_fd os) (pid os) (now os) (fail_openfile os) (flock_errno os) (fail_unlock os)
    (lock_trace os).

(** [time.Sleep]. *)
Definition time_Sleep (ns : Z) (os : LockOS) : LockOS :=
  let os := lk_log os (LkSleep ns) in
  mkLockOS (lock_files os) (open_fds os) (flocks os) (release_at os) (next_fd os)
    (pid os) (now os + ns) (fail_openfile os) (flock_errno os) (fail_unlock os)
    (lock_trace os).

Definition Millisecond : Z := 1000000.
Definition Second : Z := 1000 * Millisecond.

(** What both acquiring paths do once the flock is theirs. *)
Definition record_holder (fl : FileLock) (fd : nat) (os : LockOS) : FileLock * LockOS :=
  let fl := mkFileLock (Some fd) (lock_path fl) true in
  let pid := fmt_d (pid os) ++ lit "\n" in
  let os := file_WriteString fd pid os in
  let os := file_Sync fd os in
  (fl, os).

(** The retry loop of [LockWithTimeout].  Each turn that does not return
    sleeps 100 ms, so the loop is over after [timeout / 100ms + 2] turns at
    the latest; [turns] counts them down. *)
Fixpoint lock_loop (turns : nat) (fl : FileLock) (fd : nat) (deadline : Z)
    (os : LockOS) : option error * FileLock * LockOS :=
  match flock_ex_nb fd os with
  | (None, os) =>
      let '(fl, os) := record_holder fl fd os in (None, fl, os)
  | (Some err, os) =>
      if negb (is_contention err)
      then (Some (Wrap (lit "failed to acquire lock") err), fl, file_Close fd os)
      else if now os >? deadline
      then (Some (Error (lit "timeout waiting for lock")), fl, file_Close fd os)
      else
        match turns with
        | S turns => lock_loop turns fl fd deadline (time_Sleep (100 * Millisecond) os)
        | O => (Some (Error (lit "timeout waiting for lock")), fl, file_Close fd os)
        end
  end.

Definition lock_turns (timeout : Z) : nat := Z.to_nat (timeout / (100 * Millisecond)) + 2.

(** [FileLock.LockWithTimeout]. *)
Definition LockWithTimeout (fl : FileLock) (timeout : Z) (os : LockOS)
    : option error * FileLock * LockOS :=
  if acquired fl then (Some (Error (lit "lock already acquired")), fl, os)
  else
    match os_OpenFile (lock_path fl ++ lit ".lock") os with
    | (inl err, os) => (Some (Wrap (lit "failed to create lock file") err), fl, os)
    | (inr fd, os) =>
        let deadline := now os + timeout in
        lock_loop (lock_turns timeout) fl fd deadline os
    end.

(** [FileLock.Lock]. *)
Definition Lock (fl : FileLock) (os : LockOS) : option error * FileLock * LockOS :=
  LockWithTimeout fl (30 * Second) os.

(** [FileLock.TryLock]. *)
Definition TryLock (fl : FileLock) (os : LockOS) : option error * FileLock * LockOS :=
  if acquired fl then (Some (Error (lit "lock already acquired")), fl, os)
  else
    match os_OpenFile (lock_path fl ++ lit ".lock") os with
    | (inl err, os) => (Some (Wrap (lit "failed to create lock file") err), fl, os)
    | (inr fd, os) =>
        match flock_ex_nb fd os with
        | (Some err, os) =>
            let os := file_Close fd os in
            if is_contention err
            then (Some (Error (lit "lock is already held by another process")), fl, os)
            else (Some (Wrap (lit "failed to acquire lock") err), fl, os)
        | (None, os) =>
            let '(fl, os) := record_holder fl fd os in (None, fl, os)
        end
    end.

(** [FileLock.Unlock].  The fields are private and set together, so a held
    lock always has its handle; the branch without one stands for the nil
    dereference Go would stop on. *)
Definition Unlock (fl : FileLock) (os : LockOS) : option error * FileLock * LockOS :=
  if negb (acquired fl) then (Some (Error (lit "lock not acquired")), fl, os)
  else
    match file fl with
    | None => (Some (Error (lit "invalid memory address or nil pointer dereference")), fl, os)
    | Some fd =>
        match flock_un fd os with
        | (Some err, os) => (Some (Wrap (lit "failed to release lock") err), fl, os)
        | (None, os) =>
            let os := file_Close fd os in
            let os := lk_Remove (lock_path fl ++ lit ".lock") os in
            (None, mkFileLock None (lock_path fl) false, os)
        end
    end.

(** [FileLock.IsLocked]. *)
Definition IsLocked (fl : FileLock) : bool := acquired fl.

Definition fresh_os : LockOS :=
  mkLockOS ∅ ∅ ∅ ∅ 3 4242 0 (fun _ => false) (fun _ => None) (fun _ => false) [].

(** ** Sample environments *)

Definition no_faults : Faults :=
  mkFaults (fun _ => false) (fun _ => false) (fun _ => None) (fun _ => false)
    (fun _ _ => false).

(** The directory refuses new files: every create fails. *)
Definition readonly_dir : Faults :=
  mkFaults (fun _ => false) (fun _ => true) (fun _ => None) (fun _ => false)
    (fun _ _ => false).

Definition sample_world (fs : gmap (list N) (list N)) (f : Faults) : World :=
  mkWorld fs 1000 (lit "20240131-093000") f [].

(** A small hosts file: one plain entry, one disabled entry with a comment
    and two names.  Its identifiers are not the ones a parse would give. *)
Definition sample_hosts : HostsFile :=
  mkHostsFile
    [mkEntry 4 (lit "127.0.0.1") [lit "localhost"] [] false [];
     mkEntry 9 (lit "10.0.0.2") [lit "db.local"; lit "db"] (lit "primary # old") true []]
    (lit "/etc/hosts").

(** A file system holding one hosts file, two lines with the same name. *)
Definition twice_a_world : World :=
  sample_world {[ lit "/tmp/hosts" := lit "127.0.0.1 a\n127.0.0.1 a\n" ]} no_faults.

(** What a lenient parse makes of a text with a comment, a blank line and a
    malformed line between two entries. *)
Definition sample_hosts_parsed : HostsFile :=
  mkHostsFile
    [mkEntry 1 (lit "127.0.0.1") [lit "a"] [] false (lit "127.0.0.1 a");
     mkEntry 2 (lit "::1") [lit "b"] (lit "six") false (lit "::1 b # six")] [].

(** A file system with a hosts file in it, for a user that is not root. *)
Definition one_file_world (f : Faults) : World :=
  sample_world {[ lit "/tmp/hosts" := lit "127.0.0.1\tlocalhost\n" ]} f.

(** Only the final rename fails. *)
Definition rename_fails : Faults :=
  mkFaults (fun _ => false) (fun _ => false) (fun _ => None) (fun _ => false)
    (fun _ _ => true).

Definition sample_store : Store := NewStore (lit "/tmp/hosts") false.

(** Another process holds the lock on the hosts file and keeps it. *)
Definition held_elsewhere : LockOS :=
  mkLockOS {[ lit "/tmp/hosts.lock" := lit "77\n" ]} {[ 3%nat := lit "/tmp/hosts.lock" ]}
    {[ lit "/tmp/hosts.lock" := 3%nat ]} ∅ 4 4242 0
    (fun _ => false) (fun _ => None) (fun _ => false) [].

Definition sample_lock : FileLock := NewFileLock (lit "/tmp/hosts").

(** ** Predicates of the statements *)

(** What [Entry.String] puts after the names: nothing, or a tab, the
    comment mark and the comment. *)
Definition comment_suffix (cm : gostring) : gostring :=
  if negb (str_eqb cm []) then lit "\t# " ++ cm else [].


(** The rule for the identifier given by [AddEntry], read over every file:
    1 on an empty list, otherwise one more than the largest identifier
    present, the new entry going last. *)
Definition AddEntry_max_plus_one (h : HostsFile) (entry : Entry) : Prop :=
  ∃ id : Z,
    Entries (AddEntry h entry) = Entries h ++ [set_ID entry id] ∧
    (Entries h = [] → id = 1) ∧
    (Entries h ≠ [] →
       (∃ e, e ∈ Entries h ∧ ID e = id - 1) ∧ (∀ e, e ∈ Entries h → ID e < id)).

(** The calls [Store.Save] may make up to and including its backup step. *)
Definition backup_event (s : Store) (w : World) (ev : Event) : Prop :=
  ev = EvOpen (path s) ∨ ev = EvCreate (backupPath s w)
  ∨ ∃ data, ev = EvWrite (backupPath s w) data.

(** Every class of the pattern lies within [q]. *)
Fixpoint classes_within (q : N → bool) (r : regex) : Prop :=
  match r with
  | Eps => True
  | Cls p => ∀ c, p c = true → q c = true
  | Cat r1 r2 | Alt r1 r2 => classes_within q r1 ∧ classes_within q r2
  | Star _ r1 | Grp _ r1 => classes_within q r1
  end.

(** The runes of a hostname the parser accepts, and of an address. *)
Definition host_rune (c : N) : bool := cls_alnum_hyphen c || is_char 46 c.

Definition ip_rune (c : N) : bool :=
  in_range 48 57 c || in_range 97 102 c || in_range 65 70 c
  || is_char 46 c || is_char 58 c.


(** An entry the parser reads back from its own line: the address and
    every name pass the parser's checks, there is a name, the comment has no
    line break and no white space at either end, and the line fits the
    scanner's buffer. *)
Definition readable_entry (e : Entry) : bool :=
  isValidIP (IP e)
  && (0 <? length (Names e))%nat
  && forallb isValidHostname (Names e)
  && str_eqb (TrimSpace (Comment e)) (Comment e)
  && forallb cls_any (Comment e)
  && (byte_len (String e) <? MaxScanTokenSize)%nat.

(** The entries as a parse of their serialization numbers them: from [id]
    on, each with its line as raw text. *)
Fixpoint renumber (id : Z) (entries : list Entry) : list Entry :=
  match entries with
  | [] => []
  | e :: rest =>
      mkEntry id (IP e) (Names e) (Comment e) (Disabled e) (String e)
      :: renumber (id + 1) rest
  end.

(** The entry the loop of [Parser.Parse] makes of a scanned line, if it
    keeps the line; the loop sets its identifier. *)
Definition line_entry (line : gostring) : option Entry :=
  let trimmed := TrimSpace line in
  if str_eqb trimmed [] || (HasPrefix trimmed (lit "#") && negb (isDisabledEntry line))
  then None
  else match parseLine line 0 0 with
       | inr (Some entry) => Some entry
       | _ => None
       end.

(** Identifiers [id], [id + 1], ... given in list order. *)
Fixpoint number_from (id : Z) (entries : list Entry) : list Entry :=
  match entries with
  | [] => []
  | e :: rest => set_ID e id :: number_from (id + 1) rest
  end.

(** The words of the specification for a line that is purely a comment: it
    starts with the comment mark, and what follows the mark is not an
    address token followed by at least one hostname token. *)
Definition spec_entry_grammar (s : gostring) : bool :=
  match Fields s with
  | ip :: name :: _ => isValidIP ip && isValidHostname name
  | _ => false
  end.

Definition spec_purely_comment (line : gostring) : bool :=
  match line with
  | 35%N :: rest => negb (spec_entry_grammar rest)
  | _ => false
  end.

(** What [parseLine] has checked of an entry it returns. *)
Definition checked_entry (e : Entry) : Prop :=
  isValidIP (IP e) = true ∧ Forall (λ name, isValidHostname name = true) (Names e).

(** The identifiers [Store.Verify] records under [name]: one for each time
    an entry with an address and a name lists it, in the order of the file. *)
Definition listed (name : gostring) (id : Z) (names : list gostring) : list Z :=
  flat_map (λ n, if decide (n = name) then [id] else []) names.

Definition owners (name : gostring) (entries : list Entry) : list Z :=
  flat_map (λ e, if IsValid e then listed name (ID e) (Names e) else []) entries.

(** [seenNames[name]], the empty slice for a missing key. *)
Definition seen_ids (seenNames : gmap (list N) (list Z)) (name : gostring) : list Z :=
  default [] (seenNames !! name).

(** An issue about one entry: it starts with the letter e. *)
Definition entry_issue (issue : gostring) : Prop := head issue = Some 101%N.

(** The issues the loop over [seenNames] adds for the pairs [l]. *)
Definition duplicate_issues (l : list (list N * list Z)) : list gostring :=
  flat_map (λ '(name, ids),
              if (1 <? length ids)%nat then [duplicate_issue name ids] else []) l.

(** The texts a pattern matches in full, groups and greed aside. *)
Fixpoint lang (r : regex) (s : gostring) : Prop :=
  match r with
  | Eps => s = []
  | Cls p => ∃ c, s = [c] ∧ p c = true
  | Cat r1 r2 => ∃ s1 s2, s = s1 ++ s2 ∧ lang r1 s1 ∧ lang r2 s2
  | Alt r1 r2 => lang r1 s ∨ lang r2 s
  | Star _ r1 => ∃ parts, s = concat parts ∧ Forall (lang r1) parts
  | Grp _ r1 => lang r1 s
  end.

(** A continuation whose success does not depend on the groups recorded. *)
Definition blind (k : list N → list (list N) → option (list (list N))) : Prop :=
  ∀ s caps caps', is_Some (k s caps) ↔ is_Some (k s caps').

(** The number a group of decimal digits stands for. *)
Definition decimal_value (g : gostring) : Z :=
  fold_left (λ num char, num * 10 + (Z.of_N char - 48)) g 0.

(** The words of the specification for an IPv4 address: four groups
    separated by dots, each of decimal digits with a value from 0 to 255
    and without a leading zero unless it is the group 0. *)
Definition spec_ipv4_group (g : gostring) : bool :=
  negb (str_eqb g []) && forallb cls_digit g && (decimal_value g <=? 255)
  && (str_eqb g (lit "0") || negb (HasPrefix g (lit "0"))).

Definition spec_validateIPv4 (s : gostring) : bool :=
  match Split s (lit ".") with
  | [a; b; c; d] => forallb spec_ipv4_group [a; b; c; d]
  | _ => false
  end.

(** The rule the pattern of [ValidateIPv4] stands for: four groups
    separated by dots, each of one to three decimal digits with a value
    from 0 to 255; leading zeros are allowed. *)
Definition octet_text (g : gostring) : bool :=
  (0 <? length g)%nat && (length g <=? 3)%nat && forallb cls_digit g
  && (decimal_value g <=? 255).

Definition dotted_octets (s : gostring) : bool :=
  match Split s (lit ".") with
  | [a; b; c; d] => forallb octet_text [a; b; c; d]
  | _ => false
  end.

(** The identifiers [id], [id + 1], ... of [n] entries. *)
Definition ids_from (id : Z) (n : nat) : list Z :=
  map (λ i, id + Z.of_nat i) (seq 0 n).

(** The lock file of an instance. *)
Definition lockfile (fl : FileLock) : gostring := lock_path fl ++ lit ".lock".

(** Another process holds the flock on the lock file of [fl] and does not
    let go of it. *)
Definition held_by_other (fl : FileLock) (os : LockOS) (holder : nat) : Prop :=
  flocks os !! lockfile fl = Some holder ∧ holder ≠ next_fd os ∧
  release_at os !! lockfile fl = None ∧
  fail_openfile os (lockfile fl) = false ∧ flock_errno os (lockfile fl) = None.

(** ** Tactics *)

(** Boolean facts about rune classes in the context, as arithmetic. *)
Ltac rune_facts :=
  unfold host_rune, ip_rune, cls_alnum_hyphen, cls_alnum, cls_digit, cls_nonspace,
    cls_any, cls_space, IsSpace, in_range, is_char in *;
  repeat match goal with
  | H : _ && _ = true |- _ => apply andb_true_iff in H as [? ?]
  | H : _ || _ = true |- _ => apply orb_true_iff in H as [?|?]
  | H : _ && _ = false |- _ => apply andb_false_iff in H as [?|?]
  | H : _ || _ = false |- _ => apply orb_false_iff in H as [? ?]
  | H : negb _ = true |- _ => apply negb_true_iff in H
  | H : negb _ = false |- _ => apply negb_false_iff in H
  | H : (_ <=? _)%N = true |- _ => apply N.leb_le in H
  | H : (_ <=? _)%N = false |- _ => apply N.leb_gt in H
  | H : (_ =? _)%N = true |- _ => apply N.eqb_eq in H
  | H : (_ =? _)%N = false |- _ => apply N.eqb_neq in H
  | H : (_ <? _)%N = true |- _ => apply N.ltb_lt in H
  | H : (_ <? _)%N = false |- _ => apply N.ltb_ge in H
  end.

(** A goal [b = true] or [b = false] over rune classes, from arithmetic
    facts about the rune in the context. *)
Ltac rune_bool :=
  match goal with
  | |- ?b = true => destruct b eqn:?; [reflexivity|exfalso; rune_facts; lia]
  | |- ?b = false => destruct b eqn:?; [exfalso; rune_facts; lia|reflexivity]
  end.


(** * Properties *)

(** ** Model: AddEntry *)

Lemma maxID_fold_ge (entries : list Entry) (m : Z) :
  m <= fold_left (fun maxID e => if maxID <? ID e then ID e else maxID) entries m.
Proof.
  revert m; induction entries as [|e entries IH]; intros m; simpl; [lia|].
  destruct (Z.ltb_spec m (ID e)); etransitivity; [|apply IH| |apply IH]; lia.
Qed.

Lemma maxID_fold_bound (entries : list Entry) (m : Z) (e : Entry) :
  e ∈ entries →
  ID e <= fold_left (fun maxID e => if maxID <? ID e then ID e else maxID) entries m.
Proof.
  revert m; induction entries as [|e' entries IH]; intros m Hin.
  - inversion Hin.
  - simpl. apply elem_of_cons in Hin as [->|Hin]; [|by apply IH].
    etransitivity; [|apply maxID_fold_ge].
    destruct (Z.ltb_spec m (ID e')); lia.
Qed.

Lemma maxID_fold_attained (entries : list Entry) (m : Z) :
  let r := fold_left (fun maxID e => if maxID <? ID e then ID e else maxID) entries m in
  r = m ∨ ∃ e, e ∈ entries ∧ ID e = r.
Proof.
  revert m; induction entries as [|e' entries IH]; intros m; simpl; [by left|].
  destruct (IH (if m <? ID e' then ID e' else m)) as [Heq|(e & Hin & Heq)].
  - simpl in Heq. rewrite Heq. destruct (Z.ltb_spec m (ID e')); [|by left].
    right. exists e'. split; [apply list_elem_of_here|done].
  - right. exists e. split; [by apply list_elem_of_further|done].
Qed.

Lemma maxID_nonneg (entries : list Entry) : 0 <= maxID entries.
Proof. apply maxID_fold_ge. Qed.

Lemma wrap_int_small (z : Z) : min_int <= z <= max_int → wrap_int z = z.
Proof.
  unfold wrap_int, min_int, max_int, int_bits. intros H.
  rewrite Z.mod_small; lia.
Qed.

(** C8 (as amended).  [AddEntry] appends the entry at the end and leaves
    the existing entries and their order alone; the identifier is 1 on an
    empty list and otherwise, when some existing identifier is non-negative
    and all are below the largest int, one more than the largest existing
    identifier. *)
Theorem AddEntry_assigns_max_plus_one (h : HostsFile) (entry : Entry)
    (Hnonneg : Entries h ≠ [] → ∃ e, e ∈ Entries h ∧ 0 <= ID e)
    (Hbelow : ∀ e, e ∈ Entries h → ID e < max_int) :
  AddEntry_max_plus_one h entry ∧ Path (AddEntry h entry) = Path h.
Proof.
  split; [|done]. unfold AddEntry_max_plus_one, AddEntry.
  destruct (Entries h) as [|e0 entries] eqn:Hentries; simpl.
  - exists 1. repeat split; [done|]. intros []; done.
  - exists (wrap_int (maxID (e0 :: entries) + 1)).
    split; [done|]. split; [done|]. intros _.
    destruct Hnonneg as (e1 & Hin1 & Hpos1); [done|].
    pose proof (maxID_fold_bound _ 0 _ Hin1) as Hge. fold (maxID (e0 :: entries)) in Hge.
    destruct (maxID_fold_attained (e0 :: entries) 0) as [Hzero|(em & Hinm & Hm)];
      fold (maxID (e0 :: entries)) in *.
    + assert (Hid : ID e1 = 0) by lia.
      rewrite Hzero, wrap_int_small by (unfold min_int, max_int, int_bits; lia).
      split; [exists e1; split; [done|lia]|].
      intros e Hin. pose proof (maxID_fold_bound _ 0 _ Hin) as Hb.
      fold (maxID (e0 :: entries)) in Hb. lia.
    + pose proof (Hbelow _ Hinm) as Hlt.
      rewrite wrap_int_small by (unfold min_int, max_int, int_bits in *; lia).
      split; [exists em; split; [done|lia]|].
      intros e Hin. pose proof (maxID_fold_bound _ 0 _ Hin) as Hb.
      fold (maxID (e0 :: entries)) in Hb. lia.
Qed.

(** On a file holding identifiers 1 and 5 the new entry gets 6. *)
Lemma AddEntry_assigns_max_plus_one_witness :
  let h := mkHostsFile [mkEntry 1 (lit "10.0.0.1") [lit "a"] [] false [];
                        mkEntry 5 (lit "10.0.0.5") [lit "b"] [] false []] [] in
  let entry := mkEntry 0 (lit "10.0.0.9") [lit "c"] [] false [] in
  (AddEntry_max_plus_one h entry ∧ Path (AddEntry h entry) = Path h)
  ∧ map ID (Entries (AddEntry h entry)) = [1; 5; 6].
Proof.
  split; [|reflexivity].
  apply AddEntry_assigns_max_plus_one.
  - intros _. eexists. split; [apply list_elem_of_here|]. simpl. lia.
  - intros e Hin. unfold max_int, int_bits. simpl in Hin.
    apply elem_of_cons in Hin as [->|Hin]; [simpl; lia|].
    apply elem_of_cons in Hin as [->|Hin]; [simpl; lia|]. inversion Hin.
Defined.

(** C8 (as stated) fails: with the single identifier -5 present the new
    entry gets 1, where the largest identifier plus one is -4. *)
Lemma AddEntry_negative_id_counterexample :
  ¬ AddEntry_max_plus_one
      (mkHostsFile [mkEntry (-5) (lit "10.0.0.1") [lit "a"] [] false []] [])
      (mkEntry 0 (lit "10.0.0.9") [lit "c"] [] false []).
Proof.
  intros (id & Happ & _ & Hmax).
  assert (Hid : id = 1).
  { apply (f_equal (fun l => map ID l)) in Happ. vm_compute in Happ. congruence. }
  destruct Hmax as [(e & Hin & He) _]; [done|].
  simpl in Hin. apply list_elem_of_singleton in Hin. subst. simpl in He. lia.
Qed.

(** ** Store: Save *)

Lemma app_nonempty_neq (p x : list N) : x ≠ [] → p ++ x ≠ p.
Proof.
  intros Hx Heq. apply (f_equal length) in Heq. rewrite length_app in Heq.
  destruct x; [done|]. simpl in Heq. lia.
Qed.

Lemma backupPath_neq_path (s : Store) (w : World) : backupPath s w ≠ path s.
Proof. unfold backupPath. apply app_nonempty_neq. discriminate. Qed.

(** What a failed backup step has done: only backup calls, and nothing to
    the file at the store's path. *)
Lemma createBackup_failure (s : Store) (w w1 : World) (err : error) :
  createBackup s w = (Some err, w1) →
  files w1 !! path s = files w !! path s ∧
  ∃ evs, trace w1 = trace w ++ evs ∧ Forall (backup_event s w) evs.
Proof.
  unfold createBackup, os_Open. simpl.
  destruct (files w !! path s) as [content|] eqn:Hfile.
  2:{ intros [= <- <-]. simpl. split; [done|].
      exists [EvOpen (path s)]. split; [done|].
      constructor; [by left|constructor]. }
  destruct (fail_open (faults w) (path s)).
  { intros [= <- <-]. simpl. split; [done|].
    exists [EvOpen (path s)]. split; [done|].
    constructor; [by left|constructor]. }
  unfold os_Create. simpl. fold (backupPath s w).
  destruct (fail_create (faults w) (backupPath s w)).
  { intros [= <- <-]. simpl. split; [done|].
    exists [EvOpen (path s); EvCreate (backupPath s w)].
    split; [by rewrite <- app_assoc|].
    constructor; [by left|]. constructor; [right; by left|constructor]. }
  unfold os_Write. simpl.
  destruct (short_write (faults w) (backupPath s w)) as [n|]; [|discriminate].
  intros [= <- <-]. simpl. split.
  - rewrite !lookup_insert_ne by (apply backupPath_neq_path). done.
  - exists [EvOpen (path s); EvCreate (backupPath s w); EvWrite (backupPath s w) content].
    split; [by rewrite <- !app_assoc|].
    constructor; [by left|]. constructor; [right; by left|].
    constructor; [right; right; by eexists|constructor].
Qed.

(** C1.  When the privilege check passes and the backup step of [Save]
    fails, [Save] returns an error, the content of the file at the store's
    path is what it was, and the only calls made are those of the backup
    step: no temporary file is created or written and nothing is renamed. *)
Theorem Save_backup_failure_keeps_file (s : Store) (hostsFile : HostsFile)
    (w w1 : World) (err : error)
    (Hroot : requiresRoot s w = None)
    (Hbackup : createBackup s w = (Some err, w1)) :
  Save s hostsFile w = (Some (Wrap (lit "failed to create backup") err), w1) ∧
  files w1 !! path s = files w !! path s ∧
  ∃ evs, trace w1 = trace w ++ evs ∧ Forall (backup_event s w) evs.
Proof.
  split.
  - unfold Save. rewrite Hroot, Hbackup. done.
  - by apply createBackup_failure with err.
Qed.

(** A store on /tmp/hosts in a directory that refuses new files: the backup
    cannot be created and the hosts file keeps its content. *)
Lemma Save_backup_failure_keeps_file_witness :
  let s := NewStore (lit "/tmp/hosts") false in
  let w := sample_world (<[lit "/tmp/hosts" := lit "127.0.0.1\tlocalhost\n"]> ∅) readonly_dir in
  let hostsFile := mkHostsFile [mkEntry 1 (lit "10.0.0.1") [lit "a"] [] false []] (lit "/tmp/hosts") in
  let w1 := snd (createBackup s w) in
  let err := PathError (lit "open") (backupPath s w) in
  Save s hostsFile w = (Some (Wrap (lit "failed to create backup") err), w1) ∧
  files w1 !! path s = files w !! path s ∧
  ∃ evs, trace w1 = trace w ++ evs ∧ Forall (backup_event s w) evs.
Proof.
  intros s w hostsFile w1 err.
  apply (Save_backup_failure_keeps_file s hostsFile w w1 err).
  - reflexivity.
  - vm_compute. reflexivity.
Defined.

(** C10.  When no file exists at the store's path, [Save] returns an error
    and the file system is left as it was; in particular no file appears at
    the store's path. *)
Theorem Save_without_existing_file_fails (s : Store) (hostsFile : HostsFile)
    (w : World) (Hmissing : files w !! path s = None) :
  ∃ err w', Save s hostsFile w = (Some err, w') ∧
            files w' = files w ∧ files w' !! path s = None.
Proof.
  unfold Save. destruct (requiresRoot s w) as [err|].
  - exists err, w. done.
  - unfold createBackup, os_Open. simpl. rewrite Hmissing.
    eexists _, _. split; [reflexivity|]. simpl. done.
Qed.

Lemma Save_without_existing_file_fails_witness :
  let s := NewStore (lit "/tmp/hosts") false in
  let w := sample_world ∅ no_faults in
  let hostsFile := mkHostsFile [mkEntry 1 (lit "10.0.0.1") [lit "a"] [] false []] (lit "/tmp/hosts") in
  ∃ err w', Save s hostsFile w = (Some err, w') ∧
            files w' = files w ∧ files w' !! path s = None.
Proof.
  intros s w hostsFile.
  apply (Save_without_existing_file_fails s hostsFile w).
  reflexivity.
Defined.

(** ** Lock *)

Lemma flock_ex_nb_now (fd : nat) (os : LockOS) : now (snd (flock_ex_nb fd os)) = now os.
Proof.
  unfold flock_ex_nb. simpl.
  repeat (match goal with |- context [match ?x with _ => _ end] => destruct x end; simpl; try done).
Qed.

(** The turn counter of the retry loop never runs out: any two counts that
    cover the time left to the deadline give the same outcome. *)
Lemma lock_loop_turns_irrelevant (turns turns' : nat) (fl : FileLock) (fd : nat)
    (deadline : Z) (os : LockOS) :
  (Z.to_nat ((deadline - now os) / (100 * Millisecond)) + 1 <= turns)%nat →
  (Z.to_nat ((deadline - now os) / (100 * Millisecond)) + 1 <= turns')%nat →
  lock_loop turns fl fd deadline os = lock_loop turns' fl fd deadline os.
Proof.
  revert turns' os. induction turns as [|turns IH]; intros turns' os H1 H2; [lia|].
  destruct turns' as [|turns']; [lia|]. simpl.
  pose proof (flock_ex_nb_now fd os) as Hnow.
  destruct (flock_ex_nb fd os) as [[err|] os1]; simpl in Hnow; [|done].
  destruct (negb (is_contention err)); [done|].
  destruct (Z.gtb_spec (now os1) deadline) as [Hgt|Hle]; [done|].
  assert (Hstep : (deadline - (now os1 + 100 * Millisecond)) / (100 * Millisecond)
                  = (deadline - now os) / (100 * Millisecond) - 1).
  { rewrite Hnow. replace (deadline - (now os + 100 * Millisecond))
      with ((deadline - now os) + (-1) * (100 * Millisecond)) by lia.
    rewrite Z.div_add by (unfold Millisecond; lia). lia. }
  assert (Hq : 0 <= (deadline - now os) / (100 * Millisecond)).
  { apply Z.div_pos; unfold Millisecond; lia. }
  destruct (Z.eq_dec ((deadline - now os) / (100 * Millisecond)) 0) as [Hz|Hnz].
  - (* the next turn is past the deadline and returns whatever the count *)
    assert (Hpast : now (time_Sleep (100 * Millisecond) os1) > deadline).
    { simpl. rewrite Hnow.
      pose proof (Z.mod_pos_bound (deadline - now os) (100 * Millisecond)) as Hm.
      pose proof (Z.div_mod (deadline - now os) (100 * Millisecond)) as Hd.
      unfold Millisecond in *. lia. }
    revert Hpast. generalize (time_Sleep (100 * Millisecond) os1). clear. intros os Hpast.
    assert (Hone : ∀ n, lock_loop n fl fd deadline os = lock_loop 0 fl fd deadline os).
    { intros n. destruct n; [done|]. simpl.
      pose proof (flock_ex_nb_now fd os) as Hnow.
      destruct (flock_ex_nb fd os) as [[err|] os1]; simpl in Hnow; [|done].
      destruct (negb (is_contention err)); [done|].
      destruct (Z.gtb_spec (now os1) deadline); [done|lia]. }
    rewrite (Hone turns), (Hone turns'). done.
  - apply IH; simpl; rewrite Hstep; lia.
Qed.

(** C9.  Unlocking a released lock fails, and so does locking, with or
    without a timeout, a lock this instance already holds; in each case the
    instance is returned as it was and the operating system is not called:
    its state and the trace of calls are unchanged. *)
Theorem lock_misuse_is_an_error (fl : FileLock) (os : LockOS) :
  (acquired fl = false →
     Unlock fl os = (Some (Error (lit "lock not acquired")), fl, os)) ∧
  (acquired fl = true →
     TryLock fl os = (Some (Error (lit "lock already acquired")), fl, os) ∧
     ∀ timeout, LockWithTimeout fl timeout os
                = (Some (Error (lit "lock already acquired")), fl, os)).
Proof.
  split; intros Hacq.
  - unfold Unlock. rewrite Hacq. done.
  - unfold TryLock, LockWithTimeout. rewrite Hacq. done.
Qed.

(** A fresh instance refuses [Unlock]; once it has taken the lock it
    refuses [TryLock] and [LockWithTimeout]. *)
Lemma lock_misuse_is_an_error_witness :
  let fl0 := NewFileLock (lit "/tmp/hosts") in
  let held := TryLock fl0 fresh_os in
  let fl1 := snd (fst held) in
  let os1 := snd held in
  fst (fst held) = None ∧
  Unlock fl0 fresh_os = (Some (Error (lit "lock not acquired")), fl0, fresh_os) ∧
  TryLock fl1 os1 = (Some (Error (lit "lock already acquired")), fl1, os1) ∧
  LockWithTimeout fl1 (5 * Second) os1
  = (Some (Error (lit "lock already acquired")), fl1, os1).
Proof.
  intros fl0 held fl1 os1.
  split; [reflexivity|].
  split; [|split].
  - apply (proj1 (lock_misuse_is_an_error fl0 fresh_os)). reflexivity.
  - apply (proj2 (lock_misuse_is_an_error fl1 os1)). reflexivity.
  - apply (proj2 (lock_misuse_is_an_error fl1 os1)). reflexivity.
Defined.

(** ** Regular expressions: the backtracking search *)

Lemma star_loop_ext (body1 body2 : list N → list (list N)
      → (list N → list (list N) → option (list (list N))) → option (list (list N)))
    (greedy : bool) (k1 k2 : list N → list (list N) → option (list (list N)))
    (n : nat) (s : list N) (caps : list (list N)) :
  (∀ s c ka kb, (∀ s' c', ka s' c' = kb s' c') → body1 s c ka = body2 s c kb) →
  (∀ s c, k1 s c = k2 s c) →
  star_loop body1 greedy k1 n s caps = star_loop body2 greedy k2 n s caps.
Proof.
  intros Hbody Hk. revert s caps.
  induction n as [|n IH]; intros s caps; simpl; [apply Hk|].
  rewrite (Hk s caps).
  rewrite (Hbody s caps _ (λ s' caps', if (length s' <? length s)%nat
                                        then star_loop body2 greedy k2 n s' caps' else None)).
  - done.
  - intros s' c'. destruct (length s' <? length s)%nat; [apply IH|done].
Qed.

Lemma run_ext (r : regex) (s : list N) (caps : list (list N))
    (k1 k2 : list N → list (list N) → option (list (list N))) :
  (∀ s' c', k1 s' c' = k2 s' c') → run r s caps k1 = run r s caps k2.
Proof.
  revert s caps k1 k2.
  induction r as [|p|r1 IH1 r2 IH2|r1 IH1 r2 IH2|g r IH|i r IH]; intros s caps k1 k2 Hk; simpl.
  - apply Hk.
  - destruct s as [|c s]; [done|]. destruct (p c); [apply Hk|done].
  - apply IH1. intros s' c'. by apply IH2.
  - rewrite (IH1 s caps k1 k2 Hk), (IH2 s caps k1 k2 Hk). done.
  - apply star_loop_ext; [|done]. intros s0 c0 ka kb Hab. by apply IH.
  - apply IH. intros s' c'. apply Hk.
Qed.

Lemma run_fail (r : regex) (s : list N) (caps : list (list N))
    (k : list N → list (list N) → option (list (list N))) :
  (∀ s' c', k s' c' = None) → run r s caps k = None.
Proof.
  revert s caps k.
  induction r as [|p|r1 IH1 r2 IH2|r1 IH1 r2 IH2|g r IH|i r IH]; intros s c k Hk; simpl.
  - apply Hk.
  - destruct s as [|x s]; [done|]. by destruct (p x).
  - apply IH1. intros. by apply IH2.
  - by rewrite IH1, IH2.
  - generalize (length s). intros n. revert s c.
    induction n as [|n IHn]; intros s c; simpl; [apply Hk|].
    rewrite Hk, IH; [by destruct g|].
    intros s' c'. destruct (length s' <? length s)%nat; [apply IHn|done].
  - apply IH. intros. apply Hk.
Qed.

Lemma star_loop_fuel (r : regex) (greedy : bool)
    (k : list N → list (list N) → option (list (list N)))
    (n m : nat) (s : list N) (caps : list (list N)) :
  (length s <= n)%nat → (length s <= m)%nat →
  star_loop (run r) greedy k n s caps = star_loop (run r) greedy k m s caps.
Proof.
  assert (Hzero : ∀ m caps, star_loop (run r) greedy k m [] caps = k [] caps).
  { intros [|m'] c; simpl; [done|].
    rewrite run_fail by done. by destruct greedy, (k [] c). }
  revert m s caps. induction n as [|n IH]; intros m s caps Hn Hm.
  - destruct s; [|simpl in Hn; lia]. by rewrite !Hzero.
  - destruct m as [|m].
    { destruct s; [|simpl in Hm; lia]. by rewrite !Hzero. }
    simpl.
    rewrite (run_ext r s caps _ (λ s' caps', if (length s' <? length s)%nat
                                   then star_loop (run r) greedy k m s' caps' else None)).
    + done.
    + intros s' c'. destruct (Nat.ltb_spec (length s') (length s)); [|done].
      apply IH; lia.
Qed.

(** One iteration of a star, whatever the bound. *)
Lemma run_Star_unfold (greedy : bool) (r : regex) (s : list N) (caps : list (list N))
    (k : list N → list (list N) → option (list (list N))) :
  run (Star greedy r) s caps k =
  let again s' caps' :=
    if (length s' <? length s)%nat then run (Star greedy r) s' caps' k else None in
  if greedy then
    match run r s caps again with
    | Some m => Some m
    | None => k s caps
    end
  else
    match k s caps with
    | Some m => Some m
    | None => run r s caps again
    end.
Proof.
  simpl. destruct s as [|c s].
  - simpl. rewrite run_fail by done. by destruct greedy, (k [] caps).
  - simpl length. simpl star_loop.
    rewrite (run_ext r (c :: s) caps _
       (λ s' caps', if (length s' <? S (length s))%nat
                    then star_loop (run r) greedy k (length s') s' caps' else None)).
    + done.
    + intros s' c'. destruct (Nat.ltb_spec (length s') (S (length s))); [|done].
      apply star_loop_fuel; lia.
Qed.

(** A star over a class, rune by rune. *)
Lemma run_Star_Cls (greedy : bool) (p : N → bool) (s : list N) (caps : list (list N))
    (k : list N → list (list N) → option (list (list N))) :
  run (Star greedy (Cls p)) s caps k =
  match s with
  | c :: s' =>
      if p c then
        if greedy then
          match run (Star greedy (Cls p)) s' caps k with
          | Some m => Some m
          | None => k s caps
          end
        else
          match k s caps with
          | Some m => Some m
          | None => run (Star greedy (Cls p)) s' caps k
          end
      else k s caps
  | [] => k s caps
  end.
Proof.
  rewrite run_Star_unfold. cbv zeta.
  destruct s as [|c s'].
  - simpl. by destruct greedy, (k [] caps).
  - change (run (Cls p) (c :: s') caps ?f) with (if p c then f s' caps else None).
    destruct (p c).
    + assert (Hlt : (length s' <? length (c :: s'))%nat = true).
      { apply Nat.ltb_lt. simpl. lia. }
      rewrite Hlt. done.
    + by destruct greedy, (k (c :: s') caps).
Qed.

(** A greedy star over a class takes the whole run of the class when the
    rest of the pattern then matches. *)
Lemma star_greedy_munch (p : N → bool) (w rest : list N) (caps m : list (list N))
    (k : list N → list (list N) → option (list (list N))) :
  forallb p w = true →
  match rest with c :: _ => p c = false | [] => True end →
  k rest caps = Some m →
  run (Star true (Cls p)) (w ++ rest) caps k = Some m.
Proof.
  intros Hw Hrest Hk. induction w as [|c w IH].
  - simpl app. rewrite run_Star_Cls. destruct rest as [|c rest]; [done|].
    by rewrite Hrest.
  - simpl in Hw. apply andb_true_iff in Hw as [Hc Hw].
    simpl app. rewrite run_Star_Cls, Hc, IH; done.
Qed.

(** A star over a class fails when the rest of the pattern fails after
    every part of the run. *)
Lemma star_cls_fail (greedy : bool) (p : N → bool) (s : list N) (caps : list (list N))
    (k : list N → list (list N) → option (list (list N))) :
  (∀ w rest, s = w ++ rest → forallb p w = true → k rest caps = None) →
  run (Star greedy (Cls p)) s caps k = None.
Proof.
  induction s as [|c s IH]; intros H; rewrite run_Star_Cls.
  - by apply (H [] []).
  - rewrite (H [] (c :: s)) by done.
    destruct (p c) eqn:Hc; [|done].
    rewrite IH; [by destruct greedy|].
    intros w rest -> Hw. apply (H (c :: w) rest); [done|].
    simpl. by rewrite Hc.
Qed.

(** A lazy star over a class stops at the first place where the rest of
    the pattern matches. *)
Lemma star_lazy_munch (p : N → bool) (w rest : list N) (caps m : list (list N))
    (k : list N → list (list N) → option (list (list N))) :
  forallb p w = true →
  (∀ w1 w2, w = w1 ++ w2 → w2 ≠ [] → k (w2 ++ rest) caps = None) →
  k rest caps = Some m →
  run (Star false (Cls p)) (w ++ rest) caps k = Some m.
Proof.
  revert caps. induction w as [|c w IH]; intros caps Hw Hfail Hk.
  - simpl app. rewrite run_Star_Cls. destruct rest as [|c rest]; [done|].
    rewrite Hk. by destruct (p c).
  - simpl in Hw. apply andb_true_iff in Hw as [Hc Hw].
    simpl app. rewrite run_Star_Cls, Hc.
    pose proof (Hfail [] (c :: w) eq_refl ltac:(done)) as Hhere.
    simpl in Hhere. rewrite Hhere.
    apply IH; [done| |done].
    intros w1 w2 -> Hw2. by apply (Hfail (c :: w1) w2).
Qed.

Lemma run_Grp (i : nat) (r : regex) (s : list N) (caps : list (list N))
    (k : list N → list (list N) → option (list (list N))) :
  run (Grp i r) s caps k =
  run r s caps (λ s' caps', k s' (<[i := take (length s - length s') s]> caps')).
Proof. done. Qed.

Lemma run_Cat (r1 r2 : regex) (s : list N) (caps : list (list N))
    (k : list N → list (list N) → option (list (list N))) :
  run (Cat r1 r2) s caps k = run r1 s caps (λ s' caps', run r2 s' caps' k).
Proof. done. Qed.

Lemma run_Opt (r : regex) (s : list N) (caps : list (list N))
    (k : list N → list (list N) → option (list (list N))) :
  run (Opt r) s caps k =
  match run r s caps k with
  | Some m => Some m
  | None => k s caps
  end.
Proof. done. Qed.

Lemma take_consumed (w rest : list N) :
  take (length (w ++ rest) - length rest) (w ++ rest) = w.
Proof.
  rewrite length_app. replace (length w + length rest - length rest)%nat
    with (length w) by lia.
  by rewrite take_app_length.
Qed.

(** A star over a class takes nothing where the text does not start with
    a rune of the class. *)
Lemma star_cls_stop (greedy : bool) (p : N → bool) (s : list N) (caps : list (list N))
    (k : list N → list (list N) → option (list (list N))) :
  match s with c :: _ => p c = false | [] => True end →
  run (Star greedy (Cls p)) s caps k = k s caps.
Proof.
  intros H. rewrite run_Star_Cls. destruct s as [|c s]; [done|]. by rewrite H.
Qed.

(** ** The entry pattern on a generated line *)

Section EntryPattern.
Variables (ip w cm : list N).
Hypothesis ip_nonspace : forallb cls_nonspace ip = true.
Hypothesis ip_nonempty : ip ≠ [].
Hypothesis ip_no_hash : head ip ≠ Some 35%N.
Hypothesis w_any : forallb cls_any w = true.
Hypothesis w_no_hash : forallb (λ c, negb (is_char 35 c)) w = true.
Hypothesis w_head : ∃ c w', w = c :: w' ∧ cls_space c = false.
Hypothesis w_last : ∃ w' c, w = w' ++ [c] ∧ cls_space c = false.
Hypothesis cm_any : forallb cls_any cm = true.
Hypothesis cm_head : match cm with c :: _ => cls_space c = false | [] => True end.

Lemma trailing_comment_match (caps : list (list N)) :
  run trailing_comment (lit "\t# " ++ cm) caps at_end = Some (<[4%nat := cm]> caps).
Proof.
  unfold trailing_comment. rewrite run_Cat.
  apply (star_greedy_munch cls_space [9%N] (lit "# " ++ cm)); [done|done|].
  rewrite run_Cat. change (lit "# " ++ cm) with (35%N :: [32%N] ++ cm).
  change (run hash (35%N :: ?s) caps ?k) with (k s caps). cbv beta.
  rewrite run_Cat.
  apply (star_greedy_munch cls_space [32%N] cm); [done|by destruct cm|].
  rewrite run_Grp.
  rewrite <- (app_nil_r cm) at 1.
  apply (star_greedy_munch cls_any cm []); [done|done|].
  simpl. by rewrite Nat.sub_0_r, firstn_all.
Qed.

Lemma trailing_comment_fail (s : list N) (caps : list (list N))
    (k : list N → list (list N) → option (list (list N))) :
  (∀ u v, s = u ++ v → forallb cls_space u = true → head v ≠ Some 35%N) →
  run trailing_comment s caps k = None.
Proof.
  intros H. unfold trailing_comment. rewrite run_Cat.
  apply star_cls_fail. intros u v -> Hu. rewrite run_Cat.
  specialize (H u v eq_refl Hu). destruct v as [|c v]; [done|].
  simpl. unfold is_char. destruct (N.eqb_spec c 35); [|done].
  subst. by destruct H.
Qed.

(** Inside the names no trailing comment can start. *)
Lemma names_no_comment_start (w1 w2 rest u v : list N) :
  w = w1 ++ w2 → w2 ≠ [] → w2 ++ rest = u ++ v →
  forallb cls_space u = true → head v ≠ Some 35%N.
Proof.
  intros Hw Hw2. assert (Hhash : forallb (λ c, negb (is_char 35 c)) w2 = true).
  { rewrite Hw, forallb_app in w_no_hash. by apply andb_true_iff in w_no_hash as [_ ?]. }
  destruct w_last as (wl & cl & Hwl & Hcl).
  assert (Hsuf : ∃ b', w2 = b' ++ [cl]).
  { destruct (exists_last Hw2) as (b' & x & ->). rewrite Hwl in Hw.
    rewrite app_assoc in Hw. apply app_inj_tail in Hw as [_ ->]. by exists b'. }
  clear Hw Hw2. revert u.
  induction w2 as [|c w2 IH]; intros u Heq Hu.
  { destruct Hsuf as ([|? ?] & ?); done. }
  simpl in Hhash. apply andb_true_iff in Hhash as [Hc Hhash].
  destruct u as [|x u].
  - simpl in Heq. subst v. simpl. intros [= ->]. done.
  - simpl in Heq. injection Heq as -> Heq. simpl in Hu.
    apply andb_true_iff in Hu as [Hx Hu].
    destruct Hsuf as (b' & Hb').
    destruct b' as [|y b'].
    + simpl in Hb'. injection Hb' as -> _. congruence.
    + simpl in Hb'. injection Hb' as _ Hb'.
      apply (IH Hhash (ex_intro _ b' Hb') u); done.
Qed.

Lemma names_and_comment_match (caps : list (list N)) :
  run (Cat (Grp 3 (LazyPlus (Cls cls_any))) (Opt trailing_comment))
      (w ++ comment_suffix cm) caps at_end
  = Some (if negb (str_eqb cm []) then <[4%nat := cm]> (<[3%nat := w]> caps)
          else <[3%nat := w]> caps).
Proof.
  rewrite run_Cat, run_Grp. unfold LazyPlus. rewrite run_Cat.
  destruct w_head as (c & w' & Hw & Hc).
  assert (Hany : cls_any c = true ∧ forallb cls_any w' = true).
  { rewrite Hw in w_any. simpl in w_any. by apply andb_true_iff in w_any. }
  destruct Hany as [Hcany Hw'any].
  rewrite Hw at 1. simpl app at 1.
  change (run (Cls cls_any) (c :: ?s) caps ?k) with (if cls_any c then k s caps else None).
  rewrite Hcany.
  apply star_lazy_munch; [done| |].
  - intros w1 w2 Hsplit Hw2.
    rewrite run_Opt, trailing_comment_fail.
    + simpl. by destruct w2.
    + intros u v Huv Hu.
      apply (names_no_comment_start (c :: w1) w2 (comment_suffix cm) u v); try done.
      by rewrite Hw, Hsplit.
  - rewrite take_consumed.
    unfold comment_suffix. destruct (negb (str_eqb cm [])) eqn:Hcm.
    + by rewrite run_Opt, trailing_comment_match.
    + rewrite run_Opt, trailing_comment_fail; [done|].
      intros u v Huv _. symmetry in Huv. apply app_eq_nil in Huv as [_ ->]. done.
Qed.

Lemma ip_and_rest_match (caps : list (list N)) :
  run (Cat (Grp 2 (Plus (Cls cls_nonspace)))
      (Cat (Plus (Cls cls_space))
      (Cat (Grp 3 (LazyPlus (Cls cls_any))) (Opt trailing_comment))))
      (ip ++ lit "\t" ++ w ++ comment_suffix cm) caps at_end
  = Some (if negb (str_eqb cm [])
          then <[4%nat := cm]> (<[3%nat := w]> (<[2%nat := ip]> caps))
          else <[3%nat := w]> (<[2%nat := ip]> caps)).
Proof.
  rewrite run_Cat, run_Grp. unfold Plus at 1. rewrite run_Cat.
  destruct ip as [|c ip'] eqn:Hip; [done|].
  simpl in ip_nonspace. apply andb_true_iff in ip_nonspace as [Hc Hip'].
  simpl app at 1.
  change (run (Cls cls_nonspace) (c :: ?s) caps ?k)
    with (if cls_nonspace c then k s caps else None).
  rewrite Hc.
  apply (star_greedy_munch cls_nonspace ip' (lit "\t" ++ w ++ comment_suffix cm));
    [done|done|].
  change (c :: ip' ++ lit "\t" ++ w ++ comment_suffix cm)
    with ((c :: ip') ++ lit "\t" ++ w ++ comment_suffix cm).
  rewrite take_consumed.
  rewrite run_Cat. unfold Plus. rewrite run_Cat.
  change (lit "\t" ++ w ++ comment_suffix cm) with (9%N :: w ++ comment_suffix cm).
  change (run (Cls cls_space) (9%N :: ?s) ?c0 ?k) with (k s c0). cbv beta.
  rewrite star_cls_stop.
  - by apply names_and_comment_match.
  - destruct w_head as (x & w' & -> & Hx). done.
Qed.

Lemma entry_pattern_match (disabled : bool) :
  let pre := if disabled then lit "# " else [] in
  let line := pre ++ ip ++ lit "\t" ++ w ++ comment_suffix cm in
  FindStringSubmatch entryRegex line = [line; pre; ip; w; cm].
Proof.
  intros pre line. unfold FindStringSubmatch, entryRegex. simpl pattern. simpl NumSubexp.
  rewrite run_Cat, run_Opt, run_Grp.
  assert (Hcm : negb (str_eqb cm []) = false → cm = []).
  { destruct cm; [done|]. simpl. done. }
  assert (Hc : match ip with c :: _ => cls_space c = false ∧ c ≠ 35%N | [] => False end).
  { destruct ip as [|c ip']; [done|]. 
    simpl in ip_nonspace. apply andb_true_iff in ip_nonspace as [Hc _].
    unfold cls_nonspace in Hc. split; [by destruct (cls_space c)|].
    intros ->. by apply ip_no_hash. }
  destruct disabled; subst pre.
  - (* "# " and then the address *)
    unfold disabled_prefix. rewrite run_Cat.
    rewrite star_cls_stop by done.
    rewrite run_Cat. 
    change (run hash line ?c0 ?k) with (k ([32%N] ++ ip ++ lit "\t" ++ w ++ comment_suffix cm) c0). cbv beta.
    rewrite (star_greedy_munch cls_space [32%N] (ip ++ lit "\t" ++ w ++ comment_suffix cm) _
               (if negb (str_eqb cm [])
                then <[4%nat := cm]> (<[3%nat := w]> (<[2%nat := ip]>
                       (<[1%nat := lit "# "]> (line :: repeat [] 4))))
                else <[3%nat := w]> (<[2%nat := ip]>
                       (<[1%nat := lit "# "]> (line :: repeat [] 4))))).
    + destruct (negb (str_eqb cm [])) eqn:E; [done|]. by rewrite (Hcm eq_refl).
    + done.
    + destruct ip; [done|]. simpl. tauto.
    + rewrite <- ip_and_rest_match. 
      replace (take _ _) with (lit "# "); [done|].
      subst line. simpl length. rewrite !length_app. simpl length.
      replace (S (S (length ip + _)) - _)%nat with 2%nat by lia. done.
  - (* no disabled prefix: the first rune is neither white space nor '#' *)
    assert (Hfail : ∀ caps k, run disabled_prefix line caps k = None).
    { intros caps k. unfold disabled_prefix. rewrite run_Cat.
      subst line. simpl app. destruct ip as [|c ip']; [done|].
      rewrite star_cls_stop by (simpl; tauto).
      rewrite run_Cat. simpl. unfold is_char.
      destruct (N.eqb_spec c 35); [|done]. tauto. }
    rewrite Hfail. subst line. simpl app at 1. rewrite ip_and_rest_match.
    destruct (negb (str_eqb cm [])) eqn:E; [done|]. by rewrite (Hcm eq_refl).
Qed.
End EntryPattern.

(** ** What a match consumes *)

Lemma run_consumes (q : N → bool) (r : regex) :
  classes_within q r →
  ∀ s caps k m, run r s caps k = Some m →
  ∃ s1 s2 caps', s = s1 ++ s2 ∧ forallb q s1 = true ∧ k s2 caps' = Some m.
Proof.
  induction r as [|p|r1 IH1 r2 IH2|r1 IH1 r2 IH2|g r IH|i r IH]; simpl; intros Hq s caps k m Hrun.
  - by exists [], s, caps.
  - destruct s as [|c s]; [done|]. destruct (p c) eqn:Hp; [|done].
    exists [c], s, caps. simpl. by rewrite (Hq c Hp).
  - destruct Hq as [Hq1 Hq2].
    destruct (IH1 Hq1 _ _ _ _ Hrun) as (s1 & s2 & c1 & -> & Hs1 & Hk1).
    destruct (IH2 Hq2 _ _ _ _ Hk1) as (s3 & s4 & c2 & -> & Hs3 & Hk2).
    exists (s1 ++ s3), s4, c2. rewrite app_assoc, forallb_app, Hs1, Hs3. done.
  - destruct Hq as [Hq1 Hq2].
    destruct (run r1 s caps k) eqn:H1.
    + injection Hrun as ->. by apply (IH1 Hq1 _ _ _ _ H1).
    + by apply (IH2 Hq2 _ _ _ _ Hrun).
  - revert Hrun. generalize (length s) at 1. intros n. revert s caps.
    induction n as [|n IHn]; intros s caps Hrun; simpl in Hrun.
    { by exists [], s, caps. }
    assert (Hbody : run r s caps (λ s' caps',
               if (length s' <? length s)%nat
               then star_loop (run r) g k n s' caps' else None) = Some m →
             ∃ s1 s2 caps', s = s1 ++ s2 ∧ forallb q s1 = true ∧ k s2 caps' = Some m).
    { intros Hm'.
      destruct (IH Hq _ _ _ _ Hm') as (s1 & s2 & c1 & -> & Hs1 & Hk1).
      destruct (length s2 <? length (s1 ++ s2))%nat; [|done].
      destruct (IHn _ _ Hk1) as (s3 & s4 & c2 & -> & Hs3 & Hk2).
      exists (s1 ++ s3), s4, c2. rewrite app_assoc, forallb_app, Hs1, Hs3. done. }
    destruct g.
    + destruct (run r s caps _) eqn:H1.
      * injection Hrun as ->. by apply Hbody.
      * by exists [], s, caps.
    + destruct (k s caps) eqn:H1.
      * injection Hrun as ->. by exists [], s, caps.
      * by apply Hbody.
  - destruct (IH Hq _ _ _ _ Hrun) as (s1 & s2 & c1 & -> & Hs1 & Hk1).
    by exists s1, s2, (<[i:=take (length (s1 ++ s2) - length s2) (s1 ++ s2)]> c1).
Qed.

Lemma MatchString_within (q : N → bool) (re : Regexp) (s : list N) :
  classes_within q (pattern re) → MatchString re s = true → forallb q s = true.
Proof.
  intros Hq. unfold MatchString.
  destruct (run _ _ _ _) as [m|] eqn:Hrun; [|done]. intros _.
  destruct (run_consumes q _ Hq _ _ _ _ Hrun) as (s1 & s2 & c & -> & Hs1 & Hend).
  destruct s2; [|done]. by rewrite app_nil_r.
Qed.

Lemma classes_within_UpTo (q : N → bool) (n : nat) (r : regex) :
  classes_within q r → classes_within q (UpTo n r).
Proof. intros Hr. induction n; simpl; tauto. Qed.

(** ** Runes of addresses and hostnames *)

Lemma host_rune_plain (c : N) :
  host_rune c = true →
  IsSpace c = false ∧ cls_space c = false ∧ cls_any c = true ∧ c ≠ 35%N ∧ c ≠ 39%N.
Proof.
  intros H.
  assert (Hrange : (c = 45 ∨ c = 46 ∨ 48 <= c <= 57 ∨ 65 <= c <= 90 ∨ 97 <= c <= 122)%N).
  { rune_facts; lia. }
  clear H. repeat split; try lia; rune_bool.
Qed.

Lemma str_eqb_eq (a b : list N) : str_eqb a b = true ↔ a = b.
Proof.
  revert b. induction a as [|x a IH]; intros [|y b]; simpl; try done.
  unfold rune_eqb. rewrite andb_true_iff, N.eqb_eq, IH. split.
  - by intros [-> ->].
  - by intros [= -> ->].
Qed.

Lemma str_eqb_nil (a : list N) : str_eqb a [] = true ↔ a = [].
Proof. apply str_eqb_eq. Qed.

Lemma byte_len_zero (s : list N) : byte_len s = 0%nat → s = [].
Proof.
  destruct s as [|c s]; [done|]. simpl. unfold rune_width.
  repeat destruct (_ <? _)%N; lia.
Qed.

Lemma hostnameRegex_within : classes_within host_rune (pattern hostnameRegex).
Proof.
  assert (Hal : ∀ c, cls_alnum c = true → host_rune c = true).
  { intros c H. unfold host_rune, cls_alnum_hyphen. by rewrite H. }
  assert (Hah : ∀ c, cls_alnum_hyphen c = true → host_rune c = true).
  { intros c H. unfold host_rune. by rewrite H. }
  assert (Hdot : ∀ c, is_char 46 c = true → host_rune c = true).
  { intros c H. unfold host_rune. rewrite H. by destruct (cls_alnum_hyphen c). }
  assert (Hlabel : ∀ g, classes_within host_rune (label g)).
  { intros g. unfold label. split; [exact Hal|]. split; [|exact I].
    split; [|exact Hal]. apply classes_within_UpTo. exact Hah. }
  unfold hostnameRegex, pattern. split; [apply Hlabel|].
  split; [exact Hdot|apply Hlabel].
Qed.

(** A hostname the parser accepts is made of letters, digits, hyphens and
    dots, and is not empty. *)
Lemma isValidHostname_runes (hostname : list N) :
  isValidHostname hostname = true → hostname ≠ [] ∧ forallb host_rune hostname = true.
Proof.
  unfold isValidHostname.
  destruct (byte_len hostname =? 0)%nat eqn:Hlen; [done|].
  apply Nat.eqb_neq in Hlen.
  destruct (253 <? byte_len hostname)%nat; [done|]. simpl.
  split; [by intros ->|]. revert H.
  destruct (str_eqb hostname (lit "localhost")) eqn:Hlocal.
  - apply str_eqb_eq in Hlocal. by subst.
  - apply (MatchString_within host_rune hostnameRegex), hostnameRegex_within.
Qed.

(** ** Split *)

Lemma HasPrefix_app (s prefix : list N) :
  HasPrefix s prefix = true → ∃ rest, s = prefix ++ rest.
Proof.
  revert s. induction prefix as [|p prefix IH]; intros s H.
  - by exists s.
  - destruct s as [|c s]; [done|]. simpl in H. unfold rune_eqb in H.
    apply andb_true_iff in H as [Hc H]. apply N.eqb_eq in Hc as ->.
    destruct (IH _ H) as (rest & ->). by exists rest.
Qed.

Lemma split_go_cons (sep : list N) (skip : nat) (cur : list N) (c : N) (s : list N) :
  split_go sep skip cur (c :: s) =
  match skip with
  | S n => split_go sep n cur s
  | O => if HasPrefix (c :: s) sep
         then cur :: split_go sep (length sep - 1) [] s
         else split_go sep 0 (cur ++ [c]) s
  end.
Proof. done. Qed.

(** Every rune of the text is in a piece or in the separator. *)
Lemma split_go_runes (q : N → bool) (sep : list N) (skip : nat) (cur s : list N) :
  sep ≠ [] →
  forallb q sep = true →
  forallb q (take skip s) = true →
  Forall (λ part, forallb q part = true) (split_go sep skip cur s) →
  forallb q (cur ++ s) = true.
Proof.
  intros Hne Hsep. revert skip cur. induction s as [|c s IH]; intros skip cur Hskip Hparts.
  - simpl in Hparts. apply Forall_cons in Hparts as [Hcur _]. by rewrite app_nil_r.
  - rewrite split_go_cons in Hparts. destruct skip as [|n].
    + destruct (HasPrefix (c :: s) sep) eqn:Hpre.
      * apply Forall_cons in Hparts as [Hcur Hparts].
        apply HasPrefix_app in Hpre as (rest & Hrest).
        assert (Hq : forallb q (take (length sep) (c :: s)) = true).
        { rewrite Hrest, take_app_length. done. }
        destruct sep as [|x sep]; [done|].
        assert (Hl : (length (x :: sep) - 1)%nat = length sep) by (simpl; lia).
        rewrite Hl in Hparts. clear Hl.
        simpl in Hq. apply andb_true_iff in Hq as [Hc Hq].
        specialize (IH (length sep) [] Hq Hparts). simpl in IH.
        rewrite forallb_app, Hcur. simpl. by rewrite Hc, IH.
      * specialize (IH 0%nat (cur ++ [c]) eq_refl Hparts).
        by rewrite <- app_assoc in IH.
    + simpl in Hskip. apply andb_true_iff in Hskip as [Hc Hskip].
      specialize (IH n cur Hskip Hparts).
      rewrite forallb_app in IH. apply andb_true_iff in IH as [Hcur Hs].
      rewrite forallb_app, Hcur. simpl. by rewrite Hc, Hs.
Qed.

Lemma Split_runes (q : N → bool) (s sep : list N) :
  sep ≠ [] → forallb q sep = true →
  Forall (λ part, forallb q part = true) (Split s sep) →
  forallb q s = true.
Proof. intros Hne Hsep Hparts. by apply (split_go_runes q sep 0 [] s). Qed.

Lemma forallb_Forall_weaken (p q : list N → bool) (l : list (list N)) :
  (∀ x, p x = true → q x = true) → forallb p l = true → Forall (λ x, q x = true) l.
Proof.
  intros Hpq. induction l as [|x l IH]; simpl; [constructor|].
  intros H. apply andb_true_iff in H as [Hx Hl]. constructor; auto.
Qed.

Lemma forallb_Forall_true {A : Type} (p : A → bool) (l : list A) :
  forallb p l = true → Forall (λ x, p x = true) l.
Proof.
  induction l as [|x l IH]; simpl; [constructor|].
  intros H. apply andb_true_iff in H as [Hx Hl]. constructor; auto.
Qed.

Lemma forallb_weaken (p q : N → bool) (l : list N) :
  (∀ x, p x = true → q x = true) → forallb p l = true → forallb q l = true.
Proof.
  intros Hpq. induction l as [|x l IH]; simpl; [done|].
  intros H. apply andb_true_iff in H as [Hx Hl]. by rewrite (Hpq x Hx), IH.
Qed.

Lemma valid_ipv4_part_runes (part : list N) :
  valid_ipv4_part part = true → forallb ip_rune part = true.
Proof.
  unfold valid_ipv4_part.
  destruct (_ || _); [done|].
  destruct (forallb _ part) eqn:Hdigits; [|done]. intros _.
  revert Hdigits. apply forallb_weaken. intros c H.
  assert (Hrange : (48 <= c <= 57)%N) by (rune_facts; lia).
  clear H. rune_bool.
Qed.

Lemma isValidIPv6Part_runes (part : list N) :
  isValidIPv6Part part = true → forallb ip_rune part = true.
Proof.
  unfold isValidIPv6Part. destruct (_ || _); [done|].
  apply forallb_weaken. intros c H. unfold ip_rune.
  apply orb_true_iff in H as [H|H]; [apply orb_true_iff in H as [H|H]|]; rewrite H;
    by repeat (rewrite ?orb_true_r, ?orb_true_l).
Qed.

(** An address the parser accepts is made of hexadecimal digits, dots and
    colons, and is not empty. *)
Lemma isValidIP_runes (ip : list N) :
  isValidIP ip = true → ip ≠ [] ∧ forallb ip_rune ip = true.
Proof.
  intros H. split; [by intros ->|]. revert H. unfold isValidIP.
  destruct (negb (length (Split ip (lit ".")) =? 4)%nat).
  - unfold isValidIPv6. destruct (Contains ip (lit "::")).
    + destruct (Split ip (lit "::")) as [|p0 [|p1 [|? ?]]] eqn:Hsplit; try done.
      destruct (8 <=? _)%nat; [done|]. intros Hparts.
      rewrite forallb_app in Hparts. apply andb_true_iff in Hparts as [Hl Hr].
      apply (Split_runes ip_rune ip (lit "::")); [done|done|].
      rewrite Hsplit.
      assert (Hside : ∀ p, forallb isValidIPv6Part
                 (if negb (str_eqb p []) then Split p (lit ":") else []) = true →
               forallb ip_rune p = true).
      { intros p Hp. destruct (str_eqb p []) eqn:Hnil.
        - apply str_eqb_nil in Hnil. by subst.
        - simpl in Hp. apply (Split_runes ip_rune p (lit ":")); [done|done|].
          revert Hp. apply forallb_Forall_weaken, isValidIPv6Part_runes. }
      repeat constructor; by apply Hside.
    + destruct (negb _); [done|]. intros Hparts.
      apply (Split_runes ip_rune ip (lit ":")); [done|done|].
      revert Hparts. apply forallb_Forall_weaken, isValidIPv6Part_runes.
  - intros Hparts. apply (Split_runes ip_rune ip (lit ".")); [done|done|].
    revert Hparts. apply forallb_Forall_weaken, valid_ipv4_part_runes.
Qed.

Lemma ip_rune_plain (c : N) :
  ip_rune c = true →
  IsSpace c = false ∧ cls_space c = false ∧ cls_nonspace c = true ∧ c ≠ 35%N.
Proof.
  intros H.
  assert (Hrange : (c = 46 ∨ 48 <= c <= 58 ∨ 65 <= c <= 70 ∨ 97 <= c <= 102)%N).
  { rune_facts; lia. }
  clear H. repeat split; try lia; rune_bool.
Qed.

(** ** TrimSpace and Fields *)

Lemma trim_left_spec (s : list N) :
  ∃ v, s = v ++ trim_left s ∧ forallb IsSpace v = true ∧
       match trim_left s with c :: _ => IsSpace c = false | [] => True end.
Proof.
  induction s as [|c s (v & Hv & Hsp & Hhead)]; [by exists []|].
  simpl. destruct (IsSpace c) eqn:Hc.
  - exists (c :: v). simpl. rewrite Hc, Hsp. by rewrite <- Hv.
  - exists []. simpl. by rewrite Hc.
Qed.

Lemma trim_left_id (s : list N) :
  match s with c :: _ => IsSpace c = false | [] => True end → trim_left s = s.
Proof. destruct s as [|c s]; [done|]. simpl. by intros ->. Qed.

Lemma forallb_rev (p : N → bool) (l : list N) : forallb p (rev l) = forallb p l.
Proof.
  induction l as [|x l IH]; [done|]. simpl. rewrite forallb_app, IH. simpl.
  by rewrite andb_true_r, andb_comm.
Qed.

(** A text that starts and ends with something other than white space is
    its own trimming. *)
Lemma TrimSpace_id (s t : list N) (c d : N) :
  s = c :: t → IsSpace c = false →
  (∃ t', s = t' ++ [d]) → IsSpace d = false → TrimSpace s = s.
Proof.
  intros Hs Hc (t' & Ht') Hd. unfold TrimSpace.
  rewrite (trim_left_id s) by (by rewrite Hs).
  rewrite trim_left_id; [by rewrite rev_involutive|].
  rewrite Ht', rev_app_distr. simpl. done.
Qed.

(** Trimming keeps a first rune that is not white space. *)
Lemma TrimSpace_head (c : N) (s : list N) :
  IsSpace c = false → ∃ t, TrimSpace (c :: s) = c :: t.
Proof.
  intros Hc. unfold TrimSpace. rewrite (trim_left_id (c :: s)) by done.
  destruct (trim_left_spec (rev (c :: s))) as (v & Hv & Hsp & _).
  apply (f_equal (@rev N)) in Hv. rewrite rev_involutive, rev_app_distr in Hv.
  destruct (rev (trim_left (rev (c :: s)))) as [|x u].
  - simpl in Hv. assert (Hall : forallb IsSpace (c :: s) = true).
    { rewrite Hv. by rewrite forallb_rev. }
    simpl in Hall. by rewrite Hc in Hall.
  - simpl in Hv. injection Hv as -> _. by exists u.
Qed.

(** What a text equal to its trimming looks like. *)
Lemma TrimSpace_fixed (s : list N) :
  TrimSpace s = s → s ≠ [] →
  (∃ c t, s = c :: t ∧ IsSpace c = false) ∧ (∃ t c, s = t ++ [c] ∧ IsSpace c = false).
Proof.
  unfold TrimSpace. intros Hfix Hne.
  destruct (trim_left_spec s) as (v & Hv & Hvsp & Hhead).
  destruct (trim_left_spec (rev (trim_left s))) as (u & Hu & Husp & Hlast).
  set (core := trim_left (rev (trim_left s))) in *.
  assert (Hs : s = v ++ rev core ++ rev u).
  { rewrite Hv at 1. f_equal. rewrite <- (rev_involutive (trim_left s)), Hu.
    by rewrite rev_app_distr. }
  assert (Hlen : length s = length (rev core)) by (by rewrite Hfix).
  rewrite Hs in Hlen at 1. rewrite !length_app, !length_rev in Hlen.
  assert (v = []) by (destruct v; [done|simpl in Hlen; lia]).
  assert (u = []) by (destruct u; [done|simpl in Hlen; lia]).
  subst u v. simpl in *. rewrite app_nil_r in Hs.
  split.
  - rewrite <- Hv in Hhead. destruct s as [|c t]; [done|]. by exists c, t.
  - destruct core as [|c t]; [by rewrite Hs in Hne|]. exists (rev t), c. by rewrite Hs.
Qed.

Lemma IsSpace_cls_space (c : N) : IsSpace c = false → cls_space c = false.
Proof.
  unfold IsSpace, cls_space, is_char. intros H.
  repeat (apply orb_false_iff in H as [H ?]).
  apply andb_false_iff in H.
  repeat (apply orb_false_iff; split); apply N.eqb_neq; intros ->; destruct H; done.
Qed.

Lemma fields_go_word (cur word rest : list N) :
  forallb (λ c, negb (IsSpace c)) word = true →
  fields_go cur (word ++ rest) = fields_go (cur ++ word) rest.
Proof.
  revert cur. induction word as [|c word IH]; intros cur H.
  - by rewrite app_nil_r.
  - simpl in H. apply andb_true_iff in H as [Hc H]. apply negb_true_iff in Hc.
    simpl. rewrite Hc, IH by done. by rewrite <- app_assoc.
Qed.

(** The fields of names joined by tabs are the names. *)
Lemma Fields_Join (names : list (list N)) :
  Forall (λ name, name ≠ [] ∧ forallb (λ c, negb (IsSpace c)) name = true) names →
  Fields (Join names (lit "\t")) = names.
Proof.
  unfold Fields. induction names as [|name names IH]; intros H; [done|].
  apply Forall_cons in H as [[Hne Hname] H].
  destruct names as [|name' names].
  - simpl. rewrite <- (app_nil_r name) at 1. rewrite fields_go_word by done.
    simpl. by destruct name.
  - change (Join (name :: name' :: names) (lit "\t"))
      with (name ++ 9%N :: Join (name' :: names) (lit "\t")).
    rewrite fields_go_word by done. simpl app.
    change (fields_go name (9%N :: ?s)) with
      (match name with [] => fields_go [] s | _ => name :: fields_go [] s end).
    rewrite IH by done. by destruct name.
Qed.

(** ** The line of an entry *)

Lemma fold_names (names : list (list N)) (line : list N) :
  names ≠ [] →
  fold_left (λ line name, line ++ lit "\t" ++ name) names line
  = line ++ lit "\t" ++ Join names (lit "\t").
Proof.
  revert line. induction names as [|name names IH]; intros line Hne; [done|].
  change (fold_left ?f (name :: names) line)
    with (fold_left f names (line ++ lit "\t" ++ name)).
  destruct names as [|name' names]; [done|].
  rewrite (IH _ ltac:(done)).
  change (Join (name :: name' :: names) (lit "\t"))
    with (name ++ lit "\t" ++ Join (name' :: names) (lit "\t")).
  by rewrite <- !app_assoc.
Qed.

Lemma String_shape (e : Entry) :
  Names e ≠ [] →
  String e = (if Disabled e then lit "# " else []) ++ IP e ++ lit "\t"
             ++ Join (Names e) (lit "\t") ++ comment_suffix (Comment e).
Proof.
  intros Hne. unfold String, comment_suffix. rewrite fold_names by done.
  destruct (negb (str_eqb (Comment e) [])), (Disabled e);
    by rewrite <- ?app_assoc, ?app_nil_r.
Qed.

Lemma Join_forallb (q : N → bool) (names : list (list N)) (sep : list N) :
  forallb q sep = true → Forall (λ name, forallb q name = true) names →
  forallb q (Join names sep) = true.
Proof.
  intros Hsep. induction names as [|name names IH]; intros H; [done|].
  apply Forall_cons in H as [Hname H].
  destruct names as [|name' names]; [done|].
  change (Join (name :: name' :: names) sep) with (name ++ sep ++ Join (name' :: names) sep).
  by rewrite !forallb_app, Hname, Hsep, IH.
Qed.

Lemma Join_head (names : list (list N)) (sep : list N) (c : N) (t : list N) :
  head names = Some (c :: t) → ∃ t', Join names sep = c :: t'.
Proof.
  destruct names as [|name [|name' names]]; intros [= ->]; simpl; eauto.
Qed.

Lemma Join_last (names : list (list N)) (sep : list N) (c : N) (t : list N) :
  last names = Some (t ++ [c]) → ∃ t', Join names sep = t' ++ [c].
Proof.
  induction names as [|name names IH]; [done|].
  destruct names as [|name' names].
  - intros [= ->]. by exists t.
  - intros H. destruct (IH H) as (t' & Ht').
    change (Join (name :: name' :: names) sep) with (name ++ sep ++ Join (name' :: names) sep).
    rewrite Ht'. exists (name ++ sep ++ t'). by rewrite <- !app_assoc.
Qed.

Section ReadableEntry.
Variable e : Entry.
Hypothesis readable : readable_entry e = true.

Lemma readable_parts :
  isValidIP (IP e) = true ∧ Names e ≠ [] ∧
  Forall (λ name, isValidHostname name = true) (Names e) ∧
  TrimSpace (Comment e) = Comment e ∧ forallb cls_any (Comment e) = true ∧
  (byte_len (String e) < MaxScanTokenSize)%nat.
Proof.
  unfold readable_entry in readable.
  repeat (apply andb_true_iff in readable as [readable ?]).
  repeat split; try done.
  - intros Hnil. rewrite Hnil in *. done.
  - by apply forallb_Forall_true.
  - by apply str_eqb_eq.
  - by apply Nat.ltb_lt.
Qed.

Lemma readable_ip :
  ∃ c t, (IP e) = c :: t ∧ IsSpace c = false ∧ c ≠ 35%N ∧
         forallb cls_nonspace (IP e) = true ∧ TrimSpace (IP e) = (IP e).
Proof.
  destruct readable_parts as (Hip & _).
  apply isValidIP_runes in Hip as [Hne Hrunes]. fold (IP e) in Hne, Hrunes.
  assert (Hplain : Forall (λ c, ip_rune c = true) (IP e)) by (by apply forallb_Forall_true).
  destruct (IP e) as [|c t] eqn:Hip; [done|]. exists c, t.
  pose proof (Forall_inv Hplain) as Hc. apply ip_rune_plain in Hc as (Hsp & _ & _ & Hh).
  repeat split; try done.
  - revert Hrunes. apply forallb_weaken. intros x Hx. by apply ip_rune_plain in Hx as (_ & _ & Hx & _).
  - destruct (exists_last (l := c :: t) ltac:(done)) as (t' & d & Hlast).
    apply (TrimSpace_id _ t c d); [done|done|by exists t'|].
    rewrite Hlast in Hplain. apply Forall_app in Hplain as [_ Hd].
    apply Forall_inv in Hd. by apply ip_rune_plain in Hd as (Hd & _).
Qed.

Lemma readable_names :
  Forall (λ name, name ≠ [] ∧ forallb host_rune name = true) (Names e).
Proof.
  destruct readable_parts as (_ & _ & Hnames & _).
  eapply Forall_impl; [exact Hnames|]. intros name. apply isValidHostname_runes.
Qed.

Lemma readable_w :
  forallb cls_any (Join (Names e) (lit "\t")) = true ∧ forallb (λ c, negb (is_char 35 c)) (Join (Names e) (lit "\t")) = true ∧
  (∃ c w', (Join (Names e) (lit "\t")) = c :: w' ∧ cls_space c = false ∧ IsSpace c = false) ∧
  (∃ w' c, (Join (Names e) (lit "\t")) = w' ++ [c] ∧ cls_space c = false ∧ IsSpace c = false) ∧
  Fields (Join (Names e) (lit "\t")) = Names e.
Proof.
  pose proof readable_names as Hnames.
  destruct readable_parts as (_ & Hne & _).
  split; [|split; [|split; [|split]]].
  - apply Join_forallb; [done|]. eapply Forall_impl; [exact Hnames|].
    intros name [_ H]. revert H. apply forallb_weaken.
    intros c Hc. by apply host_rune_plain in Hc as (_ & _ & Hc & _).
  - apply Join_forallb; [done|]. eapply Forall_impl; [exact Hnames|].
    intros name [_ H]. revert H. apply forallb_weaken.
    intros c Hc. apply host_rune_plain in Hc as (_ & _ & _ & Hh & _).
    unfold is_char. apply negb_true_iff. by apply N.eqb_neq.
  - destruct (Names e) as [|[|c t] names] eqn:Hn; [done| |].
    + apply Forall_inv in Hnames. by destruct Hnames.
    + destruct (Join_head ((c :: t) :: names) (lit "\t") c t eq_refl) as (t' & Ht').
      exists c, t'. split; [done|].
      apply Forall_inv in Hnames as [_ Hc]. simpl in Hc.
      apply andb_true_iff in Hc as [Hc _]. by apply host_rune_plain in Hc as (? & ? & _).
  - destruct (exists_last Hne) as (names & name & Hn).
    assert (Hname : name ≠ [] ∧ forallb host_rune name = true).
    { rewrite Hn in Hnames. apply Forall_app in Hnames as [_ H]. by apply Forall_inv in H. }
    destruct Hname as [Hnne Hrunes].
    destruct (exists_last Hnne) as (t & c & ->).
    destruct (Join_last (Names e) (lit "\t") c t) as (t' & Ht').
    { rewrite Hn. by rewrite last_snoc. }
    exists t', c. split; [done|].
    rewrite forallb_app in Hrunes. apply andb_true_iff in Hrunes as [_ Hc].
    simpl in Hc. apply andb_true_iff in Hc as [Hc _]. by apply host_rune_plain in Hc as (? & ? & _).
  - apply Fields_Join. eapply Forall_impl; [exact Hnames|].
    intros name [Hnne H]. split; [done|]. revert H. apply forallb_weaken.
    intros c Hc. apply host_rune_plain in Hc as (Hsp & _). by rewrite Hsp.
Qed.

Lemma readable_cm :
  match (Comment e) with c :: _ => cls_space c = false | [] => True end ∧
  ((Comment e) ≠ [] → ∃ t c, (Comment e) = t ++ [c] ∧ IsSpace c = false).
Proof.
  destruct readable_parts as (_ & _ & _ & Htrim & _). fold (Comment e) in Htrim.
  destruct (Comment e) as [|c t] eqn:Hcm; [done|].
  destruct (TrimSpace_fixed _ Htrim ltac:(done)) as [(c' & t' & [= <- <-] & Hc) Hlast].
  split; [by apply IsSpace_cls_space|done].
Qed.

(** The groups of the entry pattern on the entry's line. *)
Lemma readable_matches :
  FindStringSubmatch entryRegex (String e)
  = [String e; if Disabled e then lit "# " else []; (IP e); (Join (Names e) (lit "\t")); (Comment e)].
Proof.
  destruct readable_parts as (_ & Hne & _ & _ & Hany & _).
  destruct readable_ip as (c & t & Hip & Hsp & Hhash & Hns & _).
  destruct readable_w as (Hwany & Hwhash & (x & w' & Hw & Hx & _) & (w'' & y & Hw' & Hy & _) & _).
  destruct readable_cm as [Hcm _].
  rewrite String_shape by done.
  apply (entry_pattern_match (IP e) (Join (Names e) (lit "\t")) (Comment e)); try done.
  - by rewrite Hip.
  - rewrite Hip. simpl. by intros [= ->].
  - by exists x, w'.
  - by exists w'', y.
Qed.

(** The line starts with its first visible rune, also after trimming. *)
Lemma readable_trimmed :
  ∃ c t, TrimSpace (String e) = c :: t ∧
         (c =? 35)%N = Disabled e.
Proof.
  destruct readable_parts as (_ & Hne & _).
  destruct readable_ip as (c & t & Hip & Hsp & Hhash & _).
  rewrite String_shape by done. rewrite Hip.
  destruct (Disabled e).
  - destruct (TrimSpace_head 35 (lit " " ++ (c :: t) ++ lit "\t" ++ Join (Names e) (lit "\t")
                ++ comment_suffix (Comment e)) eq_refl) as (t' & Ht').
    exists 35%N, t'. split; [exact Ht'|done].
  - destruct (TrimSpace_head c (t ++ lit "\t" ++ Join (Names e) (lit "\t")
                ++ comment_suffix (Comment e)) Hsp) as (t' & Ht').
    exists c, t'. split; [exact Ht'|]. by apply N.eqb_neq.
Qed.

Lemma readable_isDisabledEntry : isDisabledEntry (String e) = Disabled e.
Proof.
  unfold isDisabledEntry. rewrite readable_matches. by destruct (Disabled e).
Qed.

(** [parseLine] gives the entry back. *)
Lemma readable_parseLine (lineNum entryID : Z) :
  parseLine (String e) lineNum entryID
  = inr (Some (mkEntry entryID (IP e) (Names e) (Comment e) (Disabled e) (String e))).
Proof.
  unfold parseLine.
  destruct readable_trimmed as (c & t & -> & _). simpl str_eqb. cbv iota.
  rewrite readable_matches. simpl length. simpl Nat.ltb. cbv iota.
  change ([?a; ?b; ?c0; ?d; ?f] !!! 1%nat) with b.
  change ([?a; ?b; ?c0; ?d; ?f] !!! 2%nat) with c0.
  change ([?a; ?b; ?c0; ?d; ?f] !!! 3%nat) with d.
  change ([?a; ?b; ?c0; ?d; ?f] !!! 4%nat) with f.
  destruct readable_parts as (Hvalid & _ & Hnames & Htrim & _).
  destruct readable_ip as (_ & _ & _ & _ & _ & _ & Hiptrim).
  destruct readable_w as (_ & _ & (x & w' & Hw & _ & Hx) & (w'' & y & Hw' & _ & Hy) & Hfields).
  rewrite Hiptrim. rewrite Hvalid. simpl negb. cbv iota.
  rewrite (TrimSpace_id (Join (Names e) (lit "\t")) w' x y) by (done || by exists w'').
  rewrite Hfields. rewrite Htrim.
  assert (Hfilter : filter (λ hostname, isValidHostname hostname = false) (Names e) = []).
  { clear -Hnames. induction Hnames as [|name names Hname _ IH]; [done|].
    rewrite filter_cons, IH. destruct (decide _) as [Hd|]; [congruence|done]. }
  rewrite Hfilter. by destruct (Disabled e).
Qed.

(** The loop of [Parse] does not skip the line. *)
Lemma readable_not_skipped :
  str_eqb (TrimSpace (String e)) []
  || HasPrefix (TrimSpace (String e)) (lit "#") && negb (isDisabledEntry (String e))
  = false.
Proof.
  rewrite readable_isDisabledEntry.
  destruct readable_trimmed as (c & t & -> & Hc).
  change (HasPrefix (c :: t) (lit "#")) with ((c =? 35)%N && HasPrefix t []).
  rewrite Hc. simpl. by destruct (Disabled e), t.
Qed.

(** The line has no line break in it. *)
Lemma readable_line_any : forallb cls_any (String e) = true.
Proof.
  destruct readable_parts as (_ & Hne & _ & _ & Hany & _).
  destruct readable_ip as (_ & _ & _ & _ & _ & Hns & _).
  destruct readable_w as (Hwany & _).
  rewrite String_shape by done. unfold comment_suffix.
  assert (Hip : forallb cls_any (IP e) = true).
  { revert Hns. apply forallb_weaken. intros c Hc. rune_bool. }
  destruct (Disabled e), (negb (str_eqb (Comment e) []));
    by rewrite !forallb_app, ?Hip, ?Hwany, ?Hany.
Qed.

(** The line ends in a visible rune. *)
Lemma readable_line_last : ∃ t c, String e = t ++ [c] ∧ IsSpace c = false.
Proof.
  destruct readable_parts as (_ & Hne & _).
  destruct readable_w as (_ & _ & _ & (w' & y & Hw & _ & Hy) & _).
  destruct readable_cm as [_ Hcm].
  rewrite String_shape by done. unfold comment_suffix.
  destruct (str_eqb (Comment e) []) eqn:Hempty; simpl negb; cbv iota.
  - exists ((if Disabled e then lit "# " else []) ++ IP e ++ lit "\t" ++ w'), y.
    split; [|done]. rewrite Hw, app_nil_r. by rewrite <- !app_assoc.
  - destruct Hcm as (t & c & Ht & Hc).
    { intros Hnil. rewrite Hnil in Hempty. done. }
    exists ((if Disabled e then lit "# " else []) ++ IP e ++ lit "\t"
            ++ Join (Names e) (lit "\t") ++ lit "\t# " ++ t), c.
    split; [|done]. rewrite Ht. by rewrite <- !app_assoc.
Qed.
End ReadableEntry.

(** ** The loop of [Parse] *)

(** The line number and the identifier handed to [parseLine] only end up in
    the error and in the entry. *)
Lemma parseLine_counters (line : list N) (lineNum entryID : Z) :
  parseLine line lineNum entryID
  = match parseLine line 0 0 with
    | inl (ParseError _ content reason) => inl (ParseError lineNum content reason)
    | inl err => inl err
    | inr None => inr None
    | inr (Some entry) => inr (Some (set_ID entry entryID))
    end.
Proof.
  unfold parseLine.
  destruct (str_eqb (TrimSpace line) []); [done|].
  destruct (length (FindStringSubmatch entryRegex line) <? 4)%nat; [done|].
  destruct (negb (isValidIP _)); [done|].
  by destruct (filter _ _).
Qed.

Lemma number_from_app (id : Z) (es1 es2 : list Entry) :
  number_from id (es1 ++ es2)
  = number_from id es1 ++ number_from (id + Z.of_nat (length es1)) es2.
Proof.
  revert id. induction es1 as [|e es1 IH]; intros id; simpl.
  - by rewrite Z.add_0_r.
  - rewrite IH. do 3 f_equal. lia.
Qed.

Lemma number_from_length (id : Z) (es : list Entry) :
  length (number_from id es) = length es.
Proof. revert id. induction es as [|e es IH]; intros id; simpl; [done|by rewrite IH]. Qed.

Lemma number_from_ids (id : Z) (es : list Entry) :
  map ID (number_from id es) = map (λ i, id + Z.of_nat i) (seq 0 (length es)).
Proof.
  revert id. induction es as [|e es IH]; intros id; [done|].
  simpl. rewrite Z.add_0_r. f_equal. rewrite IH, <- seq_shift, map_map.
  apply map_ext. intros i. lia.
Qed.

(** In lenient mode the loop keeps going: it ends with the entries of the
    lines it keeps, numbered in order. *)
Lemma parse_lines_lenient (lines : list (list N)) (lineNum entryID : Z)
    (entries : list Entry) :
  parse_lines false lines lineNum entryID entries
  = inr (entries ++ number_from entryID (omap line_entry lines)).
Proof.
  revert lineNum entryID entries.
  induction lines as [|line lines IH]; intros lineNum entryID entries.
  - simpl. by rewrite app_nil_r.
  - simpl parse_lines. simpl omap. unfold line_entry at 1.
    destruct (str_eqb _ _ || _); [apply IH|].
    rewrite parseLine_counters.
    destruct (parseLine line 0 0) as [[]|[entry|]]; try apply IH.
    rewrite IH. simpl. by rewrite <- app_assoc.
Qed.

(** Lines that fit the buffer are all delivered. *)
Lemma scan_tokens_fit (raw : list (list N)) :
  Forall (λ data, (byte_len data < MaxScanTokenSize)%nat) raw →
  scan_tokens raw = (map dropCR raw, None).
Proof.
  induction 1 as [|data raw Hdata _ IH]; [reflexivity|].
  change (scan_tokens (data :: raw))
    with (if (MaxScanTokenSize <=? byte_len data)%nat then ([], Some ErrTooLong)
          else let '(lines, err) := scan_tokens raw in (dropCR data :: lines, err)).
  rewrite IH.
  destruct (MaxScanTokenSize <=? byte_len data)%nat eqn:Hlong; [|reflexivity].
  apply Nat.leb_le in Hlong. lia.
Qed.

(** The same condition, as a test that can be run. *)
Lemma lines_fit_test (raw : list (list N)) :
  forallb (λ data, (byte_len data <? MaxScanTokenSize)%nat) raw = true →
  Forall (λ data, (byte_len data < MaxScanTokenSize)%nat) raw.
Proof.
  intros H. apply forallb_Forall_true in H.
  eapply Forall_impl; [exact H|]. intros data. apply Nat.ltb_lt.
Qed.

(** C6 (the code departs from the statement).  In lenient mode a malformed
    line is not always skipped.  The line [1.2.3.4] followed by two spaces
    has an address and no hostname; it is neither blank nor a comment, and
    it does not follow the entry grammar.  Yet it becomes an entry without
    names that takes identifier 1, so the entry of the next line gets
    identifier 2.  Besides, a line of 64 KiB makes lenient parsing fail. *)
Theorem Parse_lenient_keeps_malformed_line :
  str_eqb (TrimSpace (lit "1.2.3.4  ")) [] = false ∧
  spec_purely_comment (lit "1.2.3.4  ") = false ∧
  spec_entry_grammar (lit "1.2.3.4  ") = false ∧
  Parse false (lit "1.2.3.4  \n10.0.0.1 a\n")
  = inr (mkHostsFile
           [mkEntry 1 (lit "1.2.3.4") [] [] false (lit "1.2.3.4  ");
            mkEntry 2 (lit "10.0.0.1") [lit "a"] [] false (lit "10.0.0.1 a")] []) ∧
  Parse false (repeat 97%N MaxScanTokenSize)
  = inl (Wrap (lit "error reading input") ErrTooLong).
Proof. repeat split; vm_compute; reflexivity. Qed.

(** ** Comment lines *)

(** C4 (the code departs from the statement).  A line that is purely a
    comment is not always ignored.  The comment [# hello world] makes strict
    parsing fail with an invalid address, and lenient parsing skips it only
    as a malformed line; the comment [# 1.2.3.4] followed by two spaces
    becomes, in either mode, a disabled entry without names that takes
    identifier 1. *)
Theorem Parse_comment_line_not_ignored :
  spec_purely_comment (lit "# hello world") = true ∧
  isDisabledEntry (lit "# hello world") = true ∧
  Parse true (lit "# hello world")
  = inl (ParseError 1 (lit "# hello world") (lit "invalid IP address: hello")) ∧
  spec_purely_comment (lit "# 1.2.3.4  ") = true ∧
  ∀ strict : bool,
    Parse strict (lit "# 1.2.3.4  ")
    = inr (mkHostsFile
             [mkEntry 1 (lit "1.2.3.4") [] [] true (lit "# 1.2.3.4  ")] []).
Proof.
  do 4 (split; [vm_compute; reflexivity|]).
  intros []; vm_compute; reflexivity.
Qed.

(** ** Reading back what [Serialize] wrote *)

Lemma raw_lines_line (line rest : list N) :
  forallb cls_any line = true →
  raw_lines (line ++ 10%N :: rest) = line :: raw_lines rest.
Proof.
  induction line as [|c line IH]; intros Hany; [done|].
  simpl in Hany. apply andb_true_iff in Hany as [Hc Hany].
  simpl. rewrite (IH Hany).
  unfold cls_any, is_char in Hc. by destruct (c =? 10)%N.
Qed.

Lemma raw_lines_Join (lines : list (list N)) :
  lines ≠ [] → Forall (λ line, forallb cls_any line = true) lines →
  raw_lines (Join lines (lit "\n") ++ lit "\n") = lines.
Proof.
  induction lines as [|line lines IH]; intros Hne Hany; [done|].
  apply Forall_cons in Hany as [Hline Hany].
  destruct lines as [|line' lines].
  - simpl Join. change (lit "\n") with [10%N]. by rewrite raw_lines_line.
  - change (Join (line :: line' :: lines) (lit "\n") ++ lit "\n")
      with ((line ++ 10%N :: Join (line' :: lines) (lit "\n")) ++ lit "\n").
    rewrite <- app_assoc. simpl app at 2.
    rewrite raw_lines_line by done. f_equal. by apply IH.
Qed.

Lemma dropCR_id (data t : list N) (c : N) :
  data = t ++ [c] → IsSpace c = false → dropCR data = data.
Proof.
  intros -> Hc. unfold dropCR. rewrite rev_app_distr. simpl.
  destruct c as [|p]; [done|].
  do 4 (destruct p as [p|p|]; try reflexivity).
  vm_compute in Hc. discriminate.
Qed.

(** The scanner delivers the lines of readable entries as they are. *)
Lemma scan_tokens_readable (entries : list Entry) :
  Forall (λ e, readable_entry e = true) entries →
  scan_tokens (map String entries) = (map String entries, None).
Proof.
  intros Hreadable. rewrite scan_tokens_fit.
  - f_equal. induction Hreadable as [|e entries He _ IH]; [done|].
    simpl. rewrite IH. f_equal.
    destruct (readable_line_last e He) as (t & c & Ht & Hc).
    by apply (dropCR_id _ t c).
  - apply Forall_map. eapply Forall_impl; [exact Hreadable|].
    intros e He. by apply readable_parts in He as (_ & _ & _ & _ & _ & He).
Qed.

Lemma parse_lines_cons (strict : bool) (line : list N) (rest : list (list N))
    (lineNum entryID : Z) (entries : list Entry) :
  parse_lines strict (line :: rest) lineNum entryID entries
  = if str_eqb (TrimSpace line) []
       || (HasPrefix (TrimSpace line) (lit "#") && negb (isDisabledEntry line))
    then parse_lines strict rest (lineNum + 1) entryID entries
    else
      match parseLine line (lineNum + 1) entryID with
      | inl err =>
          if strict then inl err
          else parse_lines strict rest (lineNum + 1) entryID entries
      | inr (Some entry) =>
          parse_lines strict rest (lineNum + 1) (entryID + 1) (entries ++ [entry])
      | inr None => parse_lines strict rest (lineNum + 1) entryID entries
      end.
Proof. reflexivity. Qed.

(** In either mode the loop turns the lines of readable entries back into
    the entries, numbered as it goes. *)
Lemma parse_lines_readable (strict : bool) (entries : list Entry)
    (lineNum entryID : Z) (acc : list Entry) :
  Forall (λ e, readable_entry e = true) entries →
  parse_lines strict (map String entries) lineNum entryID acc
  = inr (acc ++ renumber entryID entries).
Proof.
  intros Hreadable. revert lineNum entryID acc.
  induction Hreadable as [|e entries He _ IH]; intros lineNum entryID acc.
  - simpl. by rewrite app_nil_r.
  - change (map String (e :: entries)) with (String e :: map String entries).
    rewrite parse_lines_cons, (readable_not_skipped e He), (readable_parseLine e He), IH.
    simpl. by rewrite <- app_assoc.
Qed.

Lemma renumber_String (id : Z) (entries : list Entry) :
  map String (renumber id entries) = map String entries.
Proof.
  revert id. induction entries as [|e entries IH]; intros id; [done|].
  simpl. by rewrite IH.
Qed.

Lemma renumber_ids (id : Z) (entries : list Entry) :
  map ID (renumber id entries) = map (λ i, id + Z.of_nat i) (seq 0 (length entries)).
Proof.
  revert id. induction entries as [|e entries IH]; intros id; [done|].
  simpl. rewrite Z.add_0_r. f_equal. rewrite IH, <- seq_shift, map_map.
  apply map_ext. intros i. lia.
Qed.

Lemma renumber_fields (id : Z) (entries : list Entry) :
  Forall2 (λ e e', IP e' = IP e ∧ Names e' = Names e ∧ Comment e' = Comment e
                   ∧ Disabled e' = Disabled e)
          entries (renumber id entries).
Proof.
  revert id. induction entries as [|e entries IH]; intros id; simpl; constructor; auto.
Qed.

(** Parsing the serialization of readable entries, in either mode. *)
Lemma Parse_Serialize_renumber (strict : bool) (H : HostsFile) :
  forallb readable_entry (Entries H) = true →
  Parse strict (Serialize H) = inr (mkHostsFile (renumber 1 (Entries H)) []).
Proof.
  intros Hreadable. apply forallb_Forall_true in Hreadable.
  unfold Parse, Serialize.
  destruct (Entries H) as [|e entries] eqn:Hentries.
  - vm_compute. reflexivity.
  - rewrite raw_lines_Join.
    + rewrite scan_tokens_readable by done.
      by rewrite parse_lines_readable.
    + done.
    + apply Forall_map. eapply Forall_impl; [exact Hreadable|].
      intros e'. apply readable_line_any.
Qed.

(** C3 (amended).  If every entry has an address and names the parser
    accepts, at least one name, a comment without line break and without
    white space at its ends, and a line shorter than 64 KiB, then parsing
    the serialization succeeds in either mode and gives the same entries in
    the same order, field by field (address, names, comment, disabled), with
    identifiers 1, 2, ..., n. *)
Theorem Parse_Serialize_entries (strict : bool) (H : HostsFile)
    (Hreadable : forallb readable_entry (Entries H) = true) :
  ∃ parsed,
    Parse strict (Serialize H) = inr parsed ∧
    Forall2 (λ e e', IP e' = IP e ∧ Names e' = Names e ∧ Comment e' = Comment e
                     ∧ Disabled e' = Disabled e)
            (Entries H) (Entries parsed) ∧
    map ID (Entries parsed) = map Z.of_nat (seq 1 (length (Entries H))).
Proof.
  eexists. split; [by apply Parse_Serialize_renumber|]. split.
  - apply renumber_fields.
  - simpl. rewrite renumber_ids, <- seq_shift, map_map.
    apply map_ext. intros i. lia.
Qed.

Lemma Parse_Serialize_entries_witness :
  ∃ parsed,
    Parse true (Serialize sample_hosts) = inr parsed ∧
    Forall2 (λ e e', IP e' = IP e ∧ Names e' = Names e ∧ Comment e' = Comment e
                     ∧ Disabled e' = Disabled e)
            (Entries sample_hosts) (Entries parsed) ∧
    map ID (Entries parsed) = [1; 2].
Proof.
  apply (Parse_Serialize_entries true sample_hosts). vm_compute. reflexivity.
Defined.

(** C3, the claim as worded: an entry with an address and a name is valid,
    yet the parser does not accept the name [db_server]; the entry is lost
    in lenient mode and strict mode fails. *)
Lemma Parse_Serialize_underscore_counterexample :
  let H := mkHostsFile [mkEntry 1 (lit "10.0.0.1") [lit "db_server"] [] false []] [] in
  forallb IsValid (Entries H) = true ∧
  Parse false (Serialize H) = inr (mkHostsFile [] []) ∧
  Parse true (Serialize H)
  = inl (ParseError 1 (lit "10.0.0.1\tdb_server") (lit "invalid hostname: db_server")).
Proof. repeat split; vm_compute; reflexivity. Qed.

(** C2 (amended).  Under the same conditions on the entries, parsing the
    serialization and serializing the result gives the text back. *)
Theorem Serialize_Parse_Serialize (strict : bool) (H : HostsFile)
    (Hreadable : forallb readable_entry (Entries H) = true) :
  ∃ parsed,
    Parse strict (Serialize H) = inr parsed ∧ Serialize parsed = Serialize H.
Proof.
  eexists. split; [by apply Parse_Serialize_renumber|].
  unfold Serialize. simpl. by rewrite renumber_String.
Qed.

Lemma Serialize_Parse_Serialize_witness :
  ∃ parsed,
    Parse false (lit "127.0.0.1\tlocalhost\n# 10.0.0.2\tdb.local\tdb\t# primary # old\n")
    = inr parsed ∧
    Serialize parsed
    = lit "127.0.0.1\tlocalhost\n# 10.0.0.2\tdb.local\tdb\t# primary # old\n".
Proof.
  apply (Serialize_Parse_Serialize false sample_hosts). vm_compute. reflexivity.
Defined.

(** C2, the claim as worded: a comment that ends in a space is written out
    with the space and read back without it. *)
Lemma Serialize_Parse_comment_counterexample :
  let H := mkHostsFile [mkEntry 1 (lit "10.0.0.1") [lit "db"] (lit "x ") false []] [] in
  Serialize H = lit "10.0.0.1\tdb\t# x \n" ∧
  ∀ strict : bool,
    ∃ parsed, Parse strict (Serialize H) = inr parsed ∧
              Serialize parsed = lit "10.0.0.1\tdb\t# x\n".
Proof.
  split; [vm_compute; reflexivity|].
  intros strict. eexists. split; [destruct strict; vm_compute; reflexivity|].
  vm_compute. reflexivity.
Qed.

(** ** Verify *)

Lemma parseLine_checked (line : list N) (lineNum entryID : Z) (entry : Entry) :
  parseLine line lineNum entryID = inr (Some entry) → checked_entry entry.
Proof.
  unfold parseLine.
  destruct (str_eqb _ _); [done|].
  destruct (_ <? 4)%nat; [done|].
  destruct (isValidIP _) eqn:Hip; [|done]. simpl negb. cbv iota.
  destruct (filter _ _) eqn:Hfilter; [|done].
  intros [= <-]. split; [done|]. simpl.
  apply Forall_forall. intros name Hname.
  destruct (isValidHostname name) eqn:Hvalid; [done|].
  assert (Hin : name ∈ @nil (list N)); [|by apply elem_of_nil in Hin].
  rewrite <- Hfilter. by apply list_elem_of_filter.
Qed.

Lemma parse_lines_checked (strict : bool) (lines : list (list N))
    (lineNum entryID : Z) (acc entries : list Entry) :
  Forall checked_entry acc →
  parse_lines strict lines lineNum entryID acc = inr entries →
  Forall checked_entry entries.
Proof.
  revert lineNum entryID acc.
  induction lines as [|line lines IH]; intros lineNum entryID acc Hacc.
  - by intros [= <-].
  - rewrite parse_lines_cons.
    destruct (_ || _); [by apply IH|].
    destruct (parseLine _ _ _) as [err|[entry|]] eqn:Hline.
    + destruct strict; [done|by apply IH].
    + apply IH. apply Forall_app. split; [done|].
      apply Forall_singleton. by apply parseLine_checked in Hline.
    + by apply IH.
Qed.

(** Every entry [Parse] returns has an address and names that passed the
    parser's checks. *)
Lemma Parse_checked (strict : bool) (text : list N) (hostsFile : HostsFile) :
  Parse strict text = inr hostsFile → Forall checked_entry (Entries hostsFile).
Proof.
  unfold Parse. destruct (scan_tokens _) as [lines scanErr].
  destruct (parse_lines _ _ _ _ _) as [|entries] eqn:Hloop; [done|].
  destruct scanErr; [done|]. intros [= <-]. simpl.
  by apply parse_lines_checked in Hloop.
Qed.

Lemma checked_name_plain (name : list N) :
  isValidHostname name = true → 39%N ∉ name.
Proof.
  intros Hvalid Hin. apply isValidHostname_runes in Hvalid as [_ Hrunes].
  apply forallb_Forall_true in Hrunes.
  apply (proj1 (Forall_forall _ _) Hrunes) in Hin.
  by apply host_rune_plain in Hin as (_ & _ & _ & _ & Hin).
Qed.

Lemma checked_IsValid (e : Entry) (name : list N) :
  checked_entry e → name ∈ Names e → IsValid e = true.
Proof.
  intros [Hip _] Hname. unfold IsValid.
  apply isValidIP_runes in Hip as [Hne _].
  destruct (str_eqb (IP e) []) eqn:Hempty; [by apply str_eqb_nil in Hempty|].
  by destruct (Names e); [apply elem_of_nil in Hname|].
Qed.

(** *** The loop over the entries *)

Lemma seen_ids_insert (seenNames : gmap (list N) (list Z)) (n name : list N) (ids : list Z) :
  seen_ids (<[n := ids]> seenNames) name
  = if decide (n = name) then ids else seen_ids seenNames name.
Proof.
  unfold seen_ids. destruct (decide (n = name)) as [->|Hne].
  - by rewrite lookup_insert_eq.
  - by rewrite lookup_insert_ne.
Qed.

Lemma verify_name_step (id : Z) (issues : list (list N))
    (seenNames : gmap (list N) (list Z)) (n : list N) :
  verify_name id (issues, seenNames) n
  = (issues ++ (if negb (isValidHostname n) then [invalid_hostname_issue id n] else []),
     <[n := seen_ids seenNames n ++ [id]]> seenNames).
Proof.
  unfold verify_name, seen_ids. destruct (negb _); [done|by rewrite app_nil_r].
Qed.

Lemma verify_name_fold (id : Z) (names : list (list N)) (issues : list (list N))
    (seenNames : gmap (list N) (list Z)) :
  ∃ issues' seenNames',
    fold_left (verify_name id) names (issues, seenNames) = (issues ++ issues', seenNames') ∧
    Forall entry_issue issues' ∧
    (∀ name, seen_ids seenNames' name = seen_ids seenNames name ++ listed name id names) ∧
    (∀ key, is_Some (seenNames' !! key) → is_Some (seenNames !! key) ∨ key ∈ names).
Proof.
  revert issues seenNames.
  induction names as [|n names IH]; intros issues seenNames.
  - exists [], seenNames. simpl. rewrite app_nil_r. repeat split; [done| |by left].
    intros name. unfold listed. simpl. by rewrite app_nil_r.
  - change (fold_left (verify_name id) (n :: names) (issues, seenNames))
      with (fold_left (verify_name id) names (verify_name id (issues, seenNames) n)).
    rewrite verify_name_step.
    set (issues1 := if negb (isValidHostname n)
                    then [invalid_hostname_issue id n] else []).
    destruct (IH (issues ++ issues1) (<[n := seen_ids seenNames n ++ [id]]> seenNames))
      as (issues' & seenNames' & -> & Hentry & Hids & Hkeys).
    exists (issues1 ++ issues'), seenNames'. rewrite <- app_assoc. split; [done|].
    split; [|split].
    + apply Forall_app. split; [|done]. unfold issues1.
      destruct (negb _); by repeat constructor.
    + intros name. rewrite Hids, seen_ids_insert. unfold listed. simpl.
      destruct (decide (n = name)) as [->|Hne]; [|done].
      by rewrite <- app_assoc.
    + intros key Hkey. apply Hkeys in Hkey as [Hkey|Hkey].
      * destruct (decide (n = key)) as [->|Hne].
        -- right. apply list_elem_of_here.
        -- left. by rewrite lookup_insert_ne in Hkey.
      * right. by apply list_elem_of_further.
Qed.

Lemma verify_entry_step (issues : list (list N)) (seenNames : gmap (list N) (list Z))
    (e : Entry) :
  verify_entry (issues, seenNames) e
  = if IsValid e
    then fold_left (verify_name (ID e)) (Names e)
           (issues ++ (if negb (isValidIP (IP e))
                       then [invalid_ip_issue (ID e) (IP e)] else []), seenNames)
    else (issues ++ [invalid_entry_issue (ID e)], seenNames).
Proof.
  unfold verify_entry. destruct (IsValid e); [|done]. simpl negb. cbv iota.
  destruct (negb _); [done|by rewrite app_nil_r].
Qed.

Lemma verify_entry_fold (entries : list Entry) (issues : list (list N))
    (seenNames : gmap (list N) (list Z)) :
  ∃ issues' seenNames',
    fold_left verify_entry entries (issues, seenNames) = (issues ++ issues', seenNames') ∧
    Forall entry_issue issues' ∧
    (∀ name, seen_ids seenNames' name = seen_ids seenNames name ++ owners name entries) ∧
    (∀ key, is_Some (seenNames' !! key) →
            is_Some (seenNames !! key) ∨ ∃ e, e ∈ entries ∧ key ∈ Names e).
Proof.
  revert issues seenNames.
  induction entries as [|e entries IH]; intros issues seenNames.
  - exists [], seenNames. simpl. rewrite app_nil_r. repeat split; [done| |by left].
    intros name. unfold owners. simpl. by rewrite app_nil_r.
  - change (fold_left verify_entry (e :: entries) (issues, seenNames))
      with (fold_left verify_entry entries (verify_entry (issues, seenNames) e)).
    rewrite verify_entry_step.
    destruct (IsValid e) eqn:Hvalid.
    + set (issues1 := if negb (isValidIP (IP e))
                      then [invalid_ip_issue (ID e) (IP e)] else []).
      destruct (verify_name_fold (ID e) (Names e) (issues ++ issues1) seenNames)
        as (issues2 & seenNames2 & -> & Hentry2 & Hids2 & Hkeys2).
      destruct (IH ((issues ++ issues1) ++ issues2) seenNames2)
        as (issues' & seenNames' & -> & Hentry & Hids & Hkeys).
      exists (issues1 ++ issues2 ++ issues'), seenNames'.
      rewrite <- !app_assoc. split; [done|]. split; [|split].
      * apply Forall_app. split; [|by apply Forall_app].
        unfold issues1. destruct (negb _); by repeat constructor.
      * intros name. rewrite Hids, Hids2. unfold owners. simpl. rewrite Hvalid.
        by rewrite <- app_assoc.
      * intros key Hkey. apply Hkeys in Hkey as [Hkey|(e' & He' & Hkey)].
        -- apply Hkeys2 in Hkey as [Hkey|Hkey]; [by left|].
           right. exists e. split; [apply list_elem_of_here|done].
        -- right. exists e'. split; [by apply list_elem_of_further|done].
    + destruct (IH (issues ++ [invalid_entry_issue (ID e)]) seenNames)
        as (issues' & seenNames' & -> & Hentry & Hids & Hkeys).
      exists (invalid_entry_issue (ID e) :: issues'), seenNames'.
      rewrite <- app_assoc. split; [done|]. split; [|split].
      * by constructor.
      * intros name. rewrite Hids. unfold owners. simpl. by rewrite Hvalid.
      * intros key Hkey. apply Hkeys in Hkey as [Hkey|(e' & He' & Hkey)]; [by left|].
        right. exists e'. split; [by apply list_elem_of_further|done].
Qed.

(** *** The loop over the names seen *)

Lemma verify_seen_fold (l : list (list N * list Z)) (issues : list (list N)) :
  fold_left verify_seen l issues = issues ++ duplicate_issues l.
Proof.
  revert issues. induction l as [|[name ids] l IH]; intros issues.
  - simpl. by rewrite app_nil_r.
  - simpl fold_left. rewrite IH. unfold duplicate_issues. simpl.
    destruct (1 <? length ids)%nat; [by rewrite <- app_assoc|done].
Qed.

Lemma plain_prefix_inj (x y r1 r2 : list N) :
  39%N ∉ x → 39%N ∉ y → x ++ 39%N :: r1 = y ++ 39%N :: r2 → x = y.
Proof.
  revert y. induction x as [|c x IH]; intros [|d y] Hx Hy Heq; simpl in Heq.
  - done.
  - injection Heq as <- _. exfalso. apply Hy. apply list_elem_of_here.
  - injection Heq as -> _. exfalso. apply Hx. apply list_elem_of_here.
  - injection Heq as -> Heq. f_equal. apply (IH y); [| |done].
    + intros Hin. apply Hx. by apply list_elem_of_further.
    + intros Hin. apply Hy. by apply list_elem_of_further.
Qed.

(** The issue of a duplicate, its two quotes set apart. *)
Lemma duplicate_issue_shape (name : list N) (ids : list Z) :
  duplicate_issue name ids
  = lit "duplicate hostname " ++ 39%N :: name
    ++ 39%N :: lit " found in entries: " ++ fmt_v ids.
Proof. vm_compute. reflexivity. Qed.

(** The issue of a duplicate names its hostname. *)
Lemma duplicate_issue_name (name name' : list N) (ids ids' : list Z) :
  39%N ∉ name → 39%N ∉ name' →
  duplicate_issue name ids = duplicate_issue name' ids' → name = name'.
Proof.
  intros Hname Hname' Heq. rewrite !duplicate_issue_shape in Heq.
  apply app_inv_head in Heq. injection Heq as Heq.
  exact (plain_prefix_inj name name' _ _ Hname Hname' Heq).
Qed.

Lemma duplicate_issue_not_entry (name : list N) (ids : list Z) :
  ¬ entry_issue (duplicate_issue name ids).
Proof.
  rewrite duplicate_issue_shape. unfold entry_issue. vm_compute. by intros [=].
Qed.

Lemma duplicate_issues_elem (issue : list N) (l : list (list N * list Z)) :
  issue ∈ duplicate_issues l →
  ∃ name ids, (name, ids) ∈ l ∧ issue = duplicate_issue name ids.
Proof.
  induction l as [|[name ids] l IH]; [by intros ?%elem_of_nil|].
  unfold duplicate_issues. simpl. fold (duplicate_issues l).
  intros [Hin|Hin]%elem_of_app.
  - destruct (1 <? length ids)%nat; [|by apply elem_of_nil in Hin].
    apply list_elem_of_singleton in Hin as ->.
    exists name, ids. split; [apply list_elem_of_here|done].
  - destruct (IH Hin) as (name' & ids' & Hl & ->).
    exists name', ids'. split; [by apply list_elem_of_further|done].
Qed.

(** *** Names listed by several entries *)

Lemma listed_elem (name : list N) (id : Z) (names : list (list N)) :
  name ∈ names → id ∈ listed name id names.
Proof.
  induction 1 as [name names|name n names _ IH]; unfold listed; simpl.
  - rewrite decide_True by done. apply list_elem_of_here.
  - apply elem_of_app. by right.
Qed.

Lemma listed_only (name : list N) (id id' : Z) (names : list (list N)) :
  id' ∈ listed name id names → id' = id ∧ name ∈ names.
Proof.
  induction names as [|n names IH]; [by intros ?%elem_of_nil|].
  unfold listed. simpl. fold (listed name id names).
  intros [Hin|Hin]%elem_of_app.
  - destruct (decide (n = name)) as [->|]; [|by apply elem_of_nil in Hin].
    apply list_elem_of_singleton in Hin. split; [done|apply list_elem_of_here].
  - destruct (IH Hin) as [-> Hname]. split; [done|by apply list_elem_of_further].
Qed.

Lemma owners_app (name : list N) (es1 es2 : list Entry) :
  owners name (es1 ++ es2) = owners name es1 ++ owners name es2.
Proof. unfold owners. apply flat_map_app. Qed.

Lemma owners_elem (name : list N) (entries : list Entry) (e : Entry) :
  e ∈ entries → IsValid e = true → name ∈ Names e → ID e ∈ owners name entries.
Proof.
  intros Hin Hvalid Hname.
  apply list_elem_of_split in Hin as (es1 & es2 & ->).
  rewrite owners_app. apply elem_of_app. right.
  change (e :: es2) with ([e] ++ es2). rewrite owners_app. apply elem_of_app. left.
  unfold owners. simpl. rewrite Hvalid, app_nil_r. by apply listed_elem.
Qed.

Lemma owners_only (name : list N) (entries : list Entry) (id : Z) :
  id ∈ owners name entries → ∃ e, e ∈ entries ∧ name ∈ Names e ∧ ID e = id.
Proof.
  induction entries as [|e entries IH]; [by intros ?%elem_of_nil|].
  change (e :: entries) with ([e] ++ entries). rewrite owners_app.
  intros [Hin|Hin]%elem_of_app.
  - unfold owners in Hin. simpl in Hin. rewrite app_nil_r in Hin.
    destruct (IsValid e); [|by apply elem_of_nil in Hin].
    apply listed_only in Hin as [-> Hname].
    exists e. split; [apply list_elem_of_here|done].
  - destruct (IH Hin) as (e' & He' & Hname & Hid).
    exists e'. split; [by apply list_elem_of_further|done].
Qed.

(** A name listed by two entries of the file has at least two owners. *)
Lemma owners_two (name : list N) (entries : list Entry) (i j : nat) (e1 e2 : Entry) :
  (i < j)%nat → entries !! i = Some e1 → entries !! j = Some e2 →
  IsValid e1 = true → IsValid e2 = true → name ∈ Names e1 → name ∈ Names e2 →
  (1 < length (owners name entries))%nat.
Proof.
  intros Hij Hi Hj Hv1 Hv2 Hn1 Hn2.
  rewrite <- (take_drop_middle entries i e1 Hi).
  assert (Hj' : drop (S i) entries !! (j - S i)%nat = Some e2).
  { rewrite lookup_drop. rewrite <- Hj. f_equal. lia. }
  apply list_elem_of_lookup_2 in Hj'.
  apply list_elem_of_split in Hj' as (es1 & es2 & ->).
  change (e1 :: es1 ++ e2 :: es2) with ([e1] ++ es1 ++ [e2] ++ es2).
  rewrite !owners_app, !length_app.
  assert (Hone : ∀ e, IsValid e = true → name ∈ Names e →
                      (0 < length (owners name [e]))%nat).
  { intros e Hv Hn. pose proof (owners_elem name [e] e) as Hin.
    destruct (owners name [e]); [|simpl; lia].
    exfalso. eapply elem_of_nil. apply Hin; [apply list_elem_of_here|done|done]. }
  pose proof (Hone e1 Hv1 Hn1). pose proof (Hone e2 Hv2 Hn2). lia.
Qed.

(** *** Load and Verify *)

(** [Load] only opens the file. *)
Lemma Load_frame (s : Store) (w : World) :
  files (Load s w).2 = files w ∧ trace (Load s w).2 = trace w ++ [EvOpen (path s)].
Proof.
  unfold Load, os_Open. simpl.
  destruct (files w !! path s); [|done].
  destruct (fail_open _ _); [done|].
  by destruct (Parse _ _).
Qed.

Lemma Load_checked (s : Store) (w w1 : World) (hostsFile : HostsFile) :
  Load s w = (inr hostsFile, w1) → Forall checked_entry (Entries hostsFile).
Proof.
  unfold Load. destruct (os_Open _ _) as [[err|file] w2]; [done|].
  destruct (Parse _ _) as [err|parsed] eqn:Hparse; [done|].
  intros [= <- _]. simpl. by apply Parse_checked in Hparse.
Qed.

Section VerifyDuplicates.
Variable range_order : gmap (list N) (list Z) → list (list N * list Z).
Hypothesis range_order_perm :
  ∀ seenNames, range_order seenNames ≡ₚ map_to_list seenNames.

Lemma range_order_NoDup (seenNames : gmap (list N) (list Z)) :
  NoDup (range_order seenNames).*1.
Proof.
  rewrite range_order_perm. apply NoDup_fst_map_to_list.
Qed.

Lemma range_order_lookup (seenNames : gmap (list N) (list Z)) (name : list N)
    (ids : list Z) :
  (name, ids) ∈ range_order seenNames ↔ seenNames !! name = Some ids.
Proof. rewrite range_order_perm. apply elem_of_map_to_list. Qed.

(** C7.  When the hosts file loads, [Verify] returns issues and leaves the
    files as they are.  A hostname listed by two different entries has
    exactly one duplicate issue among them, whatever the order in which the
    names seen are visited: the issues split into the ones before it, the
    issue itself and the ones after it, and no duplicate issue for that
    name is among the others.  The identifiers the issue lists are those of
    the entries that list the name, all of them. *)
Theorem Verify_reports_duplicates_once (s : Store) (w w1 : World) (hostsFile : HostsFile)
    (Hload : Load s w = (inr hostsFile, w1)) :
  ∃ issues,
    Verify range_order s w = (inr issues, w1) ∧
    files w1 = files w ∧
    ∀ (name : list N) (i j : nat) (e1 e2 : Entry),
      i ≠ j →
      Entries hostsFile !! i = Some e1 → Entries hostsFile !! j = Some e2 →
      name ∈ Names e1 → name ∈ Names e2 →
      ∃ before ids after,
        issues = before ++ duplicate_issue name ids :: after ∧
        (∀ id, id ∈ ids ↔ ∃ e, e ∈ Entries hostsFile ∧ name ∈ Names e ∧ ID e = id) ∧
        (∀ ids', duplicate_issue name ids' ∉ before ++ after).
Proof.
  pose proof (Load_checked s w w1 hostsFile Hload) as Hchecked.
  pose proof (Load_frame s w) as [Hfiles _]. rewrite Hload in Hfiles.
  destruct (verify_entry_fold (Entries hostsFile) [] ∅)
    as (issues1 & seenNames & Hfold & Hentry & Hids & Hkeys).
  exists (issues1 ++ duplicate_issues (range_order seenNames)).
  split; [|split; [exact Hfiles|]].
  { unfold Verify. rewrite Hload, Hfold. simpl. by rewrite verify_seen_fold. }
  intros name i j e1 e2 Hij Hi Hj Hn1 Hn2.
  assert (Hin : ∀ e, e ∈ Entries hostsFile → name ∈ Names e → IsValid e = true).
  { intros e He Hn. apply (checked_IsValid e name); [|done].
    by apply (proj1 (Forall_forall _ _) Hchecked). }
  assert (Hplain : ∀ e n, e ∈ Entries hostsFile → n ∈ Names e → 39%N ∉ n).
  { intros e n He Hn. apply checked_name_plain.
    apply (proj1 (Forall_forall _ _) Hchecked) in He as [_ Hnames].
    by apply (proj1 (Forall_forall _ _) Hnames). }
  pose proof (list_elem_of_lookup_2 _ _ _ Hi) as He1.
  pose proof (list_elem_of_lookup_2 _ _ _ Hj) as He2.
  assert (Hlen : (1 < length (owners name (Entries hostsFile)))%nat).
  { destruct (decide (i < j)%nat).
    - apply (owners_two name _ i j e1 e2); auto.
    - apply (owners_two name _ j i e2 e1); auto. lia. }
  assert (Hseen : seenNames !! name = Some (owners name (Entries hostsFile))).
  { specialize (Hids name). unfold seen_ids in Hids. rewrite lookup_empty in Hids.
    simpl in Hids. rewrite <- Hids.
    destruct (seenNames !! name) as [ids|]; [done|].
    simpl in Hids. rewrite <- Hids in Hlen. simpl in Hlen. lia. }
  apply range_order_lookup in Hseen.
  pose proof (range_order_NoDup seenNames) as Hnodup.
  assert (Hkey : ∀ n ids, (n, ids) ∈ range_order seenNames → 39%N ∉ n).
  { intros n ids Hn. apply range_order_lookup in Hn.
    destruct (Hkeys n) as [Hempty|(e & He & Hname)]; [by rewrite Hn| |by eapply Hplain].
    rewrite lookup_empty in Hempty. by destruct Hempty. }
  apply list_elem_of_split in Hseen as (l1 & l2 & Hsplit).
  rewrite Hsplit in Hnodup, Hkey |- *.
  rewrite fmap_app, fmap_cons in Hnodup. simpl in Hnodup.
  apply NoDup_app in Hnodup as (_ & Hl1 & Hl2).
  apply NoDup_cons in Hl2 as [Hl2 _].
  exists (issues1 ++ duplicate_issues l1), (owners name (Entries hostsFile)),
    (duplicate_issues l2).
  split; [|split].
  - unfold duplicate_issues. rewrite flat_map_app. simpl.
    apply Nat.ltb_lt in Hlen. rewrite Hlen. simpl. by rewrite <- app_assoc.
  - intros id. split.
    + intros Hid. by apply owners_only in Hid.
    + intros (e & He & Hn & <-). apply owners_elem; auto.
  - intros ids' [[Hbad|Hbad]%elem_of_app|Hbad]%elem_of_app.
    + apply (proj1 (Forall_forall _ _) Hentry) in Hbad.
      by apply duplicate_issue_not_entry in Hbad.
    + apply duplicate_issues_elem in Hbad as (n & ids & Hn & Heq).
      apply duplicate_issue_name in Heq as <-.
      * apply (Hl1 name); [|apply list_elem_of_here].
        apply (list_elem_of_fmap_2 fst) in Hn. exact Hn.
      * by eapply Hplain.
      * apply (Hkey n ids). apply elem_of_app. by left.
    + apply duplicate_issues_elem in Hbad as (n & ids & Hn & Heq).
      apply duplicate_issue_name in Heq as <-.
      * apply Hl2. apply (list_elem_of_fmap_2 fst) in Hn. exact Hn.
      * by eapply Hplain.
      * apply (Hkey n ids). apply elem_of_app. right. by apply list_elem_of_further.
Qed.
End VerifyDuplicates.

Lemma Verify_reports_duplicates_once_witness :
  Verify map_to_list (NewStore (lit "/tmp/hosts") false) twice_a_world
  = (inr [lit "duplicate hostname 'a' found in entries: [1 2]"],
     log twice_a_world (EvOpen (lit "/tmp/hosts"))) ∧
  ∃ issues,
    Verify map_to_list (NewStore (lit "/tmp/hosts") false) twice_a_world
    = (inr issues, log twice_a_world (EvOpen (lit "/tmp/hosts"))) ∧
    files (log twice_a_world (EvOpen (lit "/tmp/hosts"))) = files twice_a_world ∧
    ∀ (name : list N) (i j : nat) (e1 e2 : Entry),
      i ≠ j →
      [mkEntry 1 (lit "127.0.0.1") [lit "a"] [] false (lit "127.0.0.1 a");
       mkEntry 2 (lit "127.0.0.1") [lit "a"] [] false (lit "127.0.0.1 a")] !! i = Some e1 →
      [mkEntry 1 (lit "127.0.0.1") [lit "a"] [] false (lit "127.0.0.1 a");
       mkEntry 2 (lit "127.0.0.1") [lit "a"] [] false (lit "127.0.0.1 a")] !! j = Some e2 →
      name ∈ Names e1 → name ∈ Names e2 →
      ∃ before ids after,
        issues = before ++ duplicate_issue name ids :: after ∧
        (∀ id, id ∈ ids ↔
           ∃ e, e ∈ [mkEntry 1 (lit "127.0.0.1") [lit "a"] [] false (lit "127.0.0.1 a");
                     mkEntry 2 (lit "127.0.0.1") [lit "a"] [] false (lit "127.0.0.1 a")]
                ∧ name ∈ Names e ∧ ID e = id) ∧
        (∀ ids', duplicate_issue name ids' ∉ before ++ after).
Proof.
  split; [vm_compute; reflexivity|].
  apply (Verify_reports_duplicates_once map_to_list (λ seenNames, reflexivity _)
           (NewStore (lit "/tmp/hosts") false) twice_a_world
           (log twice_a_world (EvOpen (lit "/tmp/hosts")))
           (mkHostsFile
              [mkEntry 1 (lit "127.0.0.1") [lit "a"] [] false (lit "127.0.0.1 a");
               mkEntry 2 (lit "127.0.0.1") [lit "a"] [] false (lit "127.0.0.1 a")]
              (lit "/tmp/hosts"))).
  vm_compute. reflexivity.
Defined.

(** ** What the matcher accepts *)

Lemma is_Some_or {A : Type} (x y : option A) :
  is_Some (match x with Some m => Some m | None => y end) ↔ is_Some x ∨ is_Some y.
Proof.
  destruct x as [m|]; split; eauto.
  - intros [[? [=]]|?]; done.
Qed.

(** A star's text is empty or starts with a part that is not. *)
Lemma star_parts (r : regex) (parts : list (list N)) :
  Forall (lang r) parts →
  concat parts = [] ∨
  ∃ p rest, concat parts = p ++ concat rest ∧ p ≠ [] ∧ lang r p ∧ Forall (lang r) rest.
Proof.
  induction 1 as [|p parts Hp Hparts IH]; [by left|].
  destruct p as [|c p].
  - destruct IH as [IH|IH]; [by left|by right].
  - right. exists (c :: p), parts. by repeat split.
Qed.

Section StarLoop.
Variables (r : regex) (greedy : bool)
  (k : list N → list (list N) → option (list (list N))).
Hypothesis body_lang : ∀ s caps k',
  blind k' →
  is_Some (run r s caps k') ↔
  ∃ s1 s2, s = s1 ++ s2 ∧ lang r s1 ∧ is_Some (k' s2 caps).
Hypothesis k_blind : blind k.

Lemma star_loop_lang (n : nat) (s : list N) (caps : list (list N)) :
  (length s <= n)%nat →
  is_Some (star_loop (run r) greedy k n s caps) ↔
  ∃ s1 s2, s = s1 ++ s2 ∧ lang (Star greedy r) s1 ∧ is_Some (k s2 caps).
Proof.
  revert s caps. induction n as [|n IH]; intros s caps Hlen.
  - destruct s; [|simpl in Hlen; lia]. simpl. split.
    + intros Hk. exists [], []. split; [done|]. split; [|done]. by exists [].
    + intros (s1 & s2 & Hs & _ & Hk). by destruct s1, s2.
  - set (again := λ (s' : list N) (caps' : list (list N)),
                    if (length s' <? length s)%nat
                    then star_loop (run r) greedy k n s' caps' else None).
    assert (Hagain : blind again).
    { intros s' c c'. unfold again.
      destruct (length s' <? length s)%nat eqn:Hlt; [|done].
      apply Nat.ltb_lt in Hlt. rewrite !IH by lia.
      split; intros (s1 & s2 & Hs & Hstar & Hk); exists s1, s2;
        (split; [done|split; [done|]]); by eapply k_blind. }
    assert (Hloop : is_Some (star_loop (run r) greedy k (S n) s caps) ↔
                    is_Some (run r s caps again) ∨ is_Some (k s caps)).
    { simpl. fold again. destruct greedy; rewrite is_Some_or; tauto. }
    rewrite Hloop, (body_lang s caps again Hagain). clear Hloop. split.
    + intros [(s1 & s2 & Hs & Hs1 & Hrest)|Hk].
      * unfold again in Hrest.
        destruct (length s2 <? length s)%nat eqn:Hlt; [|by destruct Hrest].
        apply Nat.ltb_lt in Hlt. apply IH in Hrest as (t1 & t2 & -> & Ht1 & Hk); [|lia].
        exists (s1 ++ t1), t2. split; [by rewrite Hs, app_assoc|]. split; [|done].
        destruct Ht1 as (parts & -> & Hparts). exists (s1 :: parts). split; [done|].
        by constructor.
      * exists [], s. split; [done|]. split; [|done]. by exists [].
    + intros (s1 & s2 & Hs & (parts & -> & Hparts) & Hk).
      destruct (star_parts r parts Hparts) as [Hnil|(p & rest & Heq & Hp & Hlang & Hrest)].
      * right. rewrite Hs, Hnil. done.
      * left. exists p, (concat rest ++ s2).
        split; [by rewrite Hs, Heq, app_assoc|]. split; [done|].
        unfold again.
        assert (Hlt : (length (concat rest ++ s2) < length s)%nat).
        { rewrite Hs, Heq, !length_app. destruct p; [done|]. simpl. lia. }
        rewrite (proj2 (Nat.ltb_lt _ _) Hlt). apply IH; [lia|].
        exists (concat rest), s2. split; [done|]. split; [|done]. by exists rest.
Qed.
End StarLoop.

(** The matcher succeeds exactly when some head of the text is in the
    language of the pattern and the continuation accepts the rest. *)
Lemma run_lang (r : regex) (s : list N) (caps : list (list N))
    (k : list N → list (list N) → option (list (list N))) :
  blind k →
  is_Some (run r s caps k) ↔
  ∃ s1 s2, s = s1 ++ s2 ∧ lang r s1 ∧ is_Some (k s2 caps).
Proof.
  revert s caps k.
  induction r as [|p|r1 IH1 r2 IH2|r1 IH1 r2 IH2|greedy r1 IH1|i r1 IH1];
    intros s caps k Hk; simpl run.
  - split.
    + intros H. by exists [], s.
    + by intros (s1 & s2 & -> & -> & H).
  - destruct s as [|c s].
    + split; [by intros [? [=]]|].
      intros (s1 & s2 & Hs & (c & -> & _) & _). done.
    + destruct (p c) eqn:Hp.
      * split.
        -- intros H. exists [c], s. split; [done|]. split; [by exists c|done].
        -- intros (s1 & s2 & Hs & (c' & -> & _) & H). by injection Hs as -> ->.
      * split; [by intros [? [=]]|].
        intros (s1 & s2 & Hs & (c' & -> & Hc') & _). injection Hs as -> ->.
        congruence.
  - assert (Hk2 : blind (λ s' caps', run r2 s' caps' k)).
    { intros s' c c'. rewrite !IH2 by done.
      split; intros (s1 & s2 & Hs & Hl & H); exists s1, s2;
        (split; [done|split; [done|]]); by eapply Hk. }
    rewrite IH1 by done. split.
    + intros (s1 & s2 & -> & Hl1 & H). apply IH2 in H as (t1 & t2 & -> & Hl2 & H); [|done].
      exists (s1 ++ t1), t2. split; [by rewrite app_assoc|]. split; [|done].
      by exists s1, t1.
    + intros (u & s2 & -> & (s1 & t1 & -> & Hl1 & Hl2) & H).
      exists s1, (t1 ++ s2). split; [by rewrite app_assoc|]. split; [done|].
      apply IH2; [done|]. by exists t1, s2.
  - rewrite is_Some_or, IH1, IH2 by done. split.
    + intros [(s1 & s2 & Hs & Hl & H)|(s1 & s2 & Hs & Hl & H)];
        exists s1, s2; (split; [done|split; [|done]]); [by left|by right].
    + intros (s1 & s2 & Hs & [Hl|Hl] & H); [left|right]; by exists s1, s2.
  - apply star_loop_lang; [|done|done].
    intros s' caps' k' Hk'. by apply IH1.
  - rewrite IH1.
    + split; intros (s1 & s2 & Hs & Hl & H); exists s1, s2;
        (split; [done|split; [done|]]); by eapply Hk.
    + intros s' c c'. apply Hk.
Qed.

Lemma at_end_blind : blind at_end.
Proof. intros s c c'. by destruct s. Qed.

(** [MatchString] decides the language of the pattern. *)
Lemma MatchString_lang (re : Regexp) (s : list N) :
  MatchString re s = true ↔ lang (pattern re) s.
Proof.
  unfold MatchString.
  pose proof (run_lang (pattern re) s (s :: repeat [] (NumSubexp re)) at_end at_end_blind)
    as Hrun.
  destruct (run _ _ _ _) as [m|].
  - split; [|done]. intros _. destruct (proj1 Hrun) as (s1 & s2 & -> & Hl & H); [by eexists|].
    destruct s2; [|by destruct H]. by rewrite app_nil_r.
  - split; [done|]. intros Hl. destruct (proj2 Hrun) as [? [=]].
    exists s, []. by rewrite app_nil_r.
Qed.

(** ** The IPv4 pattern *)

Lemma lang_Cls (p : N → bool) (c : N) : p c = true → lang (Cls p) [c].
Proof. intros Hc. by exists c. Qed.

Lemma lang_Cat (r1 r2 : regex) (s1 s2 : list N) :
  lang r1 s1 → lang r2 s2 → lang (Cat r1 r2) (s1 ++ s2).
Proof. intros H1 H2. by exists s1, s2. Qed.

Lemma lang_Opt_none (r : regex) : lang (Opt r) [].
Proof. by right. Qed.

Lemma lang_Opt_some (r : regex) (s : list N) : lang r s → lang (Opt r) s.
Proof. by left. Qed.

Lemma decimal_value_3 (a b c : N) :
  decimal_value [a; b; c]
  = ((Z.of_N a - 48) * 10 + (Z.of_N b - 48)) * 10 + (Z.of_N c - 48).
Proof. unfold decimal_value. simpl. lia. Qed.

Lemma decimal_value_2 (a b : N) :
  decimal_value [a; b] = (Z.of_N a - 48) * 10 + (Z.of_N b - 48).
Proof. unfold decimal_value. simpl. lia. Qed.

Lemma decimal_value_1 (a : N) : decimal_value [a] = Z.of_N a - 48.
Proof. unfold decimal_value. simpl. lia. Qed.

Lemma digit_range (c : N) : cls_digit c = true ↔ (48 <= c <= 57)%N.
Proof.
  unfold cls_digit, in_range. rewrite andb_true_iff, !N.leb_le. tauto.
Qed.

Lemma in_range_iff (lo hi c : N) : in_range lo hi c = true ↔ (lo <= c <= hi)%N.
Proof. unfold in_range. rewrite andb_true_iff, !N.leb_le. tauto. Qed.

Lemma is_char_iff (x c : N) : is_char x c = true ↔ c = x.
Proof. unfold is_char. apply N.eqb_eq. Qed.

Lemma octet_text_intro (g : list N) :
  (0 < length g <= 3)%nat → Forall (λ c, (48 <= c <= 57)%N) g → decimal_value g <= 255 →
  octet_text g = true.
Proof.
  intros [Hpos Hlen] Hdigits Hvalue. unfold octet_text.
  rewrite (proj2 (Nat.ltb_lt _ _) Hpos), (proj2 (Nat.leb_le _ _) Hlen),
    (proj2 (Z.leb_le _ _) Hvalue), !andb_true_r.
  apply forallb_forall. intros c Hc%list_elem_of_In.
  apply digit_range. by apply (proj1 (Forall_forall _ _) Hdigits).
Qed.

Lemma octet_text_elim (g : list N) :
  octet_text g = true →
  (0 < length g <= 3)%nat ∧ Forall (λ c, (48 <= c <= 57)%N) g ∧ decimal_value g <= 255.
Proof.
  unfold octet_text. rewrite !andb_true_iff, Nat.ltb_lt, Nat.leb_le, Z.leb_le.
  intros [[[Hpos Hlen] Hdigits] Hvalue]. repeat split; try done.
  apply forallb_Forall_true in Hdigits.
  eapply Forall_impl; [exact Hdigits|]. intros c. apply digit_range.
Qed.

(** The octet pattern matches the groups of one to three digits that stand
    for a number up to 255. *)
Lemma octet_lang (g : list N) : lang octet g ↔ octet_text g = true.
Proof.
  split.
  - intros H. unfold octet in H. simpl in H.
    destruct H as [H|[H|H]].
    1-2: destruct H as (s1 & s2 & -> & (c1 & -> & H1) & s3 & s4 & -> & (c2 & -> & H2)
                        & (c3 & -> & H3)).
    3: destruct H as (s1 & s2 & -> & [(c1 & -> & H1)| ->] & s3 & s4 & ->
                      & (c2 & -> & H2) & [(c3 & -> & H3)| ->]).
    all: repeat match goal with
         | H : is_char _ _ = true |- _ => apply is_char_iff in H
         | H : in_range _ _ _ = true |- _ => apply in_range_iff in H
         | H : cls_digit _ = true |- _ => apply digit_range in H
         end.
    all: apply octet_text_intro; simpl app;
      [simpl; lia|repeat constructor; lia|
       rewrite ?decimal_value_3, ?decimal_value_2, ?decimal_value_1; lia].
  - intros H. apply octet_text_elim in H as ([Hpos Hlen] & Hdigits & Hvalue).
    destruct g as [|a [|b [|c [|]]]]; simpl in Hpos, Hlen; try lia.
    + apply Forall_cons in Hdigits as [Ha _].
      right. right. apply (lang_Cat _ _ [] [a]); [apply lang_Opt_none|].
      apply (lang_Cat _ _ [a] []); [|apply lang_Opt_none].
      apply lang_Cls. by apply digit_range.
    + apply Forall_cons in Hdigits as [Ha Hdigits].
      apply Forall_cons in Hdigits as [Hb _].
      right. right. apply (lang_Cat _ _ [] [a; b]); [apply lang_Opt_none|].
      apply (lang_Cat _ _ [a] [b]); [by apply lang_Cls, digit_range|].
      apply lang_Opt_some. by apply lang_Cls, digit_range.
    + apply Forall_cons in Hdigits as [Ha Hdigits].
      apply Forall_cons in Hdigits as [Hb Hdigits].
      apply Forall_cons in Hdigits as [Hc _].
      rewrite decimal_value_3 in Hvalue.
      destruct (decide (a <= 49)%N) as [Ha1|Ha1].
      { right. right. apply (lang_Cat _ _ [a] [b; c]).
        - apply lang_Opt_some, lang_Cls, in_range_iff. lia.
        - apply (lang_Cat _ _ [b] [c]); [by apply lang_Cls, digit_range|].
          apply lang_Opt_some. by apply lang_Cls, digit_range. }
      assert (a = 50%N) as -> by lia.
      destruct (decide (b <= 52)%N) as [Hb1|Hb1].
      { right. left. apply (lang_Cat _ _ [50%N] [b; c]); [by apply lang_Cls|].
        apply (lang_Cat _ _ [b] [c]); [apply lang_Cls, in_range_iff; lia|].
        by apply lang_Cls, digit_range. }
      assert (b = 53%N) as -> by lia.
      left. apply (lang_Cat _ _ [50%N] [53%N; c]); [by apply lang_Cls|].
      apply (lang_Cat _ _ [53%N] [c]); [by apply lang_Cls|].
      apply lang_Cls, in_range_iff. lia.
Qed.

(** The pattern around the octets: three times an octet and a dot, then an
    octet. *)
Lemma dotted_lang (o : regex) (s : list N) :
  lang (Cat (Times 3 (Grp 1 (Cat (Grp 2 o) dot))) (Grp 3 o)) s ↔
  ∃ a b c d, s = a ++ 46%N :: b ++ 46%N :: c ++ 46%N :: d
             ∧ lang o a ∧ lang o b ∧ lang o c ∧ lang o d.
Proof.
  simpl. split.
  - intros (s1 & d & -> & (s2 & s3 & -> & (a & x & -> & Ha & y & -> & Hy)
                          & s4 & s5 & -> & (b & x' & -> & Hb & y' & -> & Hy')
                          & s6 & s7 & -> & (c & x'' & -> & Hc & y'' & -> & Hy'') & ->) & Hd).
    apply is_char_iff in Hy as ->. apply is_char_iff in Hy' as ->.
    apply is_char_iff in Hy'' as ->.
    exists a, b, c, d. split; [|done].
    rewrite app_nil_r. by rewrite <- !app_assoc.
  - intros (a & b & c & d & -> & Ha & Hb & Hc & Hd).
    exists ((a ++ [46%N]) ++ (b ++ [46%N]) ++ (c ++ [46%N]) ++ []), d.
    split; [rewrite app_nil_r; by rewrite <- !app_assoc|]. split; [|done].
    eexists _, _. split; [reflexivity|]. split.
    { exists a, [46%N]. split; [done|]. split; [done|]. by exists 46%N. }
    eexists _, _. split; [reflexivity|]. split.
    { exists b, [46%N]. split; [done|]. split; [done|]. by exists 46%N. }
    eexists _, _. split; [reflexivity|]. split; [|done].
    exists c, [46%N]. split; [done|]. split; [done|]. by exists 46%N.
Qed.

(** *** Splitting at dots *)

Lemma HasPrefix_nil (s : list N) : HasPrefix s [] = true.
Proof. by destruct s. Qed.

Lemma split_dot_dot (cur rest : list N) :
  split_go [46%N] 0 cur (46%N :: rest) = cur :: split_go [46%N] 0 [] rest.
Proof. simpl. by rewrite HasPrefix_nil. Qed.

Lemma split_dot_other (cur : list N) (c : N) (rest : list N) :
  c ≠ 46%N → split_go [46%N] 0 cur (c :: rest) = split_go [46%N] 0 (cur ++ [c]) rest.
Proof.
  intros Hc. simpl. unfold rune_eqb. by rewrite (proj2 (N.eqb_neq _ _) Hc).
Qed.

Lemma split_dot_group (cur g rest : list N) :
  46%N ∉ g → split_go [46%N] 0 cur (g ++ rest) = split_go [46%N] 0 (cur ++ g) rest.
Proof.
  revert cur. induction g as [|c g IH]; intros cur Hg.
  - by rewrite app_nil_r.
  - simpl app. rewrite split_dot_other.
    + rewrite IH; [by rewrite <- app_assoc|].
      intros Hin. apply Hg. by apply list_elem_of_further.
    + intros ->. apply Hg. apply list_elem_of_here.
Qed.

Lemma split_dot_last (cur g : list N) :
  46%N ∉ g → split_go [46%N] 0 cur g = [cur ++ g].
Proof.
  intros Hg. rewrite <- (app_nil_r g) at 1. by rewrite split_dot_group.
Qed.

(** Four groups without a dot in them, with dots between, split into the
    groups. *)
Lemma Split_dotted (a b c d : list N) :
  46%N ∉ a → 46%N ∉ b → 46%N ∉ c → 46%N ∉ d →
  Split (a ++ 46%N :: b ++ 46%N :: c ++ 46%N :: d) [46%N] = [a; b; c; d].
Proof.
  intros Ha Hb Hc Hd. unfold Split.
  rewrite split_dot_group, split_dot_dot by done. simpl app.
  rewrite split_dot_group, split_dot_dot by done. simpl app.
  rewrite split_dot_group, split_dot_dot by done. simpl app.
  by rewrite split_dot_last.
Qed.

Lemma split_dot_nonempty (cur s : list N) : split_go [46%N] 0 cur s ≠ [].
Proof.
  revert cur. induction s as [|c s IH]; intros cur; [done|].
  destruct (decide (c = 46%N)) as [->|Hc].
  - by rewrite split_dot_dot.
  - rewrite split_dot_other by done. apply IH.
Qed.

(** Joining the pieces with dots gives the text back. *)
Lemma Join_split_dot (cur s : list N) :
  Join (split_go [46%N] 0 cur s) [46%N] = cur ++ s.
Proof.
  revert cur. induction s as [|c s IH]; intros cur.
  - simpl. by rewrite app_nil_r.
  - destruct (decide (c = 46%N)) as [->|Hc].
    + rewrite split_dot_dot.
      pose proof (split_dot_nonempty [] s) as Hne.
      destruct (split_go [46%N] 0 [] s) as [|p ps] eqn:Hsplit; [done|].
      change (Join (cur :: p :: ps) [46%N]) with (cur ++ [46%N] ++ Join (p :: ps) [46%N]).
      rewrite <- Hsplit, IH. done.
    + rewrite split_dot_other by done. rewrite IH. by rewrite <- app_assoc.
Qed.

Lemma Split_four (s a b c d : list N) :
  Split s [46%N] = [a; b; c; d] → s = a ++ 46%N :: b ++ 46%N :: c ++ 46%N :: d.
Proof.
  intros Hsplit. pose proof (Join_split_dot [] s) as Hjoin.
  unfold Split in Hsplit. rewrite Hsplit in Hjoin. simpl in Hjoin.
  rewrite <- Hjoin. by rewrite <- ?app_assoc.
Qed.

Lemma digits_no_dot (g : list N) : Forall (λ c, (48 <= c <= 57)%N) g → 46%N ∉ g.
Proof.
  intros Hdigits Hin. apply (proj1 (Forall_forall _ _) Hdigits) in Hin. lia.
Qed.

Lemma dot_literal : lit "." = [46%N].
Proof. reflexivity. Qed.

(** [MatchString] of the IPv4 pattern, as a rule on the groups between the
    dots. *)
Lemma ipv4Regex_dotted_octets (s : list N) :
  MatchString ipv4Regex s = dotted_octets s.
Proof.
  apply eq_true_iff_eq. rewrite MatchString_lang.
  change (pattern ipv4Regex)
    with (Cat (Times 3 (Grp 1 (Cat (Grp 2 octet) dot))) (Grp 3 octet)).
  rewrite dotted_lang. unfold dotted_octets. rewrite dot_literal. split.
  - intros (a & b & c & d & -> & Ha & Hb & Hc & Hd).
    apply octet_lang in Ha, Hb, Hc, Hd.
    rewrite Split_dotted.
    + simpl. by rewrite Ha, Hb, Hc, Hd.
    + by apply digits_no_dot, octet_text_elim.
    + by apply digits_no_dot, octet_text_elim.
    + by apply digits_no_dot, octet_text_elim.
    + by apply digits_no_dot, octet_text_elim.
  - destruct (Split s [46%N]) as [|a [|b [|c [|d [|]]]]] eqn:Hsplit; try done.
    simpl forallb. rewrite !andb_true_iff. intros (Ha & Hb & Hc & Hd & _).
    exists a, b, c, d. split; [by apply Split_four|].
    by rewrite !octet_lang.
Qed.

(** *** The parser's rule for one group *)

Lemma forallb_pointwise {A : Type} (p q : A → bool) (l : list A) :
  (∀ x, p x = q x) → forallb p l = forallb q l.
Proof. intros Hpq. induction l as [|x l IH]; simpl; [done|]. by rewrite Hpq, IH. Qed.

Lemma digit_check (char : N) :
  negb ((char <? 48)%N || (57 <? char)%N) = cls_digit char.
Proof.
  unfold cls_digit, in_range.
  destruct (char <? 48)%N eqn:H1, (57 <? char)%N eqn:H2,
    (48 <=? char)%N eqn:H3, (char <=? 57)%N eqn:H4; try reflexivity;
    exfalso; rune_facts; lia.
Qed.

Lemma digits_byte_len (g : list N) :
  Forall (λ c, (48 <= c <= 57)%N) g → byte_len g = length g.
Proof.
  induction 1 as [|c g Hc _ IH]; [done|].
  simpl. rewrite IH. unfold rune_width.
  by rewrite (proj2 (N.ltb_lt c 128)) by lia.
Qed.

Lemma decimal_fold_ge (g : list N) (acc : Z) :
  Forall (λ c, (48 <= c <= 57)%N) g → 0 <= acc →
  acc <= fold_left (λ num char, num * 10 + (Z.of_N char - 48)) g acc.
Proof.
  intros Hdigits. revert acc.
  induction Hdigits as [|c g Hc _ IH]; intros acc Hacc; simpl; [lia|].
  etrans; [|apply IH]; lia.
Qed.

Lemma forallb_digits (g : list N) :
  forallb cls_digit g = true ↔ Forall (λ c, (48 <= c <= 57)%N) g.
Proof.
  split.
  - intros H. apply forallb_Forall_true in H.
    eapply Forall_impl; [exact H|]. intros c. apply digit_range.
  - intros H. apply forallb_forall. intros c Hc%list_elem_of_In.
    apply digit_range. by apply (proj1 (Forall_forall _ _) H).
Qed.

(** The loop body of [isValidIP] is the rule of the specification for one
    group. *)
Lemma valid_ipv4_part_spec (g : list N) : valid_ipv4_part g = spec_ipv4_group g.
Proof.
  unfold valid_ipv4_part, spec_ipv4_group. change (lit "0") with [48%N].
  rewrite (forallb_pointwise _ cls_digit g) by (intros; apply digit_check).
  destruct (forallb cls_digit g) eqn:Hdigits; simpl negb; cbv iota.
  2: { rewrite andb_false_r. simpl. by destruct (_ || _). }
  apply forallb_digits in Hdigits. rewrite (digits_byte_len g Hdigits).
  fold (decimal_value g). rewrite (Z.ltb_antisym _ 255).
  destruct g as [|a [|b [|c [|d rest]]]].
  - reflexivity.
  - rewrite decimal_value_1. apply Forall_cons in Hdigits as [Ha _].
    rewrite (proj2 (Z.leb_le _ _)) by lia. simpl. unfold rune_eqb.
    by destruct (a =? 48)%N.
  - rewrite decimal_value_2. apply Forall_cons in Hdigits as [Ha Hdigits].
    apply Forall_cons in Hdigits as [Hb _].
    rewrite (proj2 (Z.leb_le _ _)) by lia. simpl. unfold rune_eqb.
    by destruct (a =? 48)%N.
  - simpl. unfold rune_eqb. destruct (decimal_value [a; b; c] <=? 255); simpl; [|done].
    by destruct (a =? 48)%N.
  - simpl. unfold rune_eqb. destruct (a =? 48)%N eqn:Ha; simpl.
    + by rewrite andb_false_r.
    + apply N.eqb_neq in Ha.
      apply Forall_cons in Hdigits as [Ha' Hdigits].
      apply Forall_cons in Hdigits as [Hb Hdigits].
      apply Forall_cons in Hdigits as [Hc Hdigits].
      apply Forall_cons in Hdigits as [Hd Hdigits].
      rewrite andb_true_r. symmetry. apply Z.leb_gt.
      unfold decimal_value. simpl fold_left.
      eapply Z.lt_le_trans; [|apply decimal_fold_ge; [done|lia]]. lia.
Qed.

Lemma spec_group_octet (g : list N) : spec_ipv4_group g = true → octet_text g = true.
Proof.
  intros Hspec. pose proof Hspec as Hvalid. rewrite <- valid_ipv4_part_spec in Hvalid.
  unfold spec_ipv4_group in Hspec. rewrite !andb_true_iff in Hspec.
  destruct Hspec as [[[_ Hdigits] Hvalue] _].
  apply forallb_digits in Hdigits. apply Z.leb_le in Hvalue.
  apply octet_text_intro; [|done|done].
  unfold valid_ipv4_part in Hvalid. rewrite (digits_byte_len g Hdigits) in Hvalid.
  destruct (length g =? 0)%nat eqn:H0; [done|].
  destruct (3 <? length g)%nat eqn:H3; [done|].
  apply Nat.eqb_neq in H0. apply Nat.ltb_ge in H3. lia.
Qed.

(** C5 (amended).  [ValidateIPv4] accepts a string exactly when it splits at
    its dots into four groups of one to three decimal digits, each with a
    value from 0 to 255: leading zeros are allowed.  The rule of the
    specification, which forbids them, is the one [isValidIP] of the parser
    applies to a string of four groups, and every string it accepts is
    accepted by [ValidateIPv4].  In particular 256.0.0.1 is rejected and
    0.0.0.0 and 255.255.255.255 are accepted. *)
Theorem ValidateIPv4_accepts_dotted_octets :
  (∀ s, ValidateIPv4 s = None ↔ dotted_octets s = true) ∧
  (∀ s, spec_validateIPv4 s = true ↔
        length (Split s (lit ".")) = 4%nat ∧ isValidIP s = true) ∧
  (∀ s, spec_validateIPv4 s = true → ValidateIPv4 s = None) ∧
  ValidateIPv4 (lit "256.0.0.1") = Some (Error (lit "invalid IPv4 address format")) ∧
  ValidateIPv4 (lit "0.0.0.0") = None ∧
  ValidateIPv4 (lit "255.255.255.255") = None.
Proof.
  assert (Haccepts : ∀ s, ValidateIPv4 s = None ↔ dotted_octets s = true).
  { intros s. unfold ValidateIPv4. rewrite ipv4Regex_dotted_octets.
    destruct (str_eqb s []) eqn:Hempty.
    - apply str_eqb_nil in Hempty as ->. split; [done|]. by vm_compute.
    - by destruct (dotted_octets s). }
  split; [exact Haccepts|]. split; [|split].
  - intros s. unfold spec_validateIPv4, isValidIP.
    destruct (Split s (lit ".")) as [|a [|b [|c [|d [|]]]]] eqn:Hsplit;
      try (split; [done|by intros [[=] _]]).
    simpl length. simpl negb. cbv iota.
    rewrite (forallb_pointwise valid_ipv4_part spec_ipv4_group)
      by (intros; apply valid_ipv4_part_spec).
    split; [done|by intros [_ H]].
  - intros s Hspec. apply Haccepts. unfold spec_validateIPv4 in Hspec.
    unfold dotted_octets.
    destruct (Split s (lit ".")) as [|a [|b [|c [|d [|]]]]]; try done.
    simpl in Hspec |- *. rewrite !andb_true_iff in Hspec |- *.
    destruct Hspec as (Ha & Hb & Hc & Hd & _).
    by repeat split; try apply spec_group_octet.
  - repeat split; vm_compute; reflexivity.
Qed.

(** C5, the claim as worded: [ValidateIPv4] accepts 192.168.001.1, whose
    third group has leading zeros. *)
Lemma ValidateIPv4_leading_zero_counterexample :
  ValidateIPv4 (lit "192.168.001.1") = None ∧
  spec_validateIPv4 (lit "192.168.001.1") = false.
Proof. split; vm_compute; reflexivity. Qed.

(** ** More about [Parse] *)

Lemma parseLine_fields (line : list N) (lineNum entryID : Z) (entry : Entry) :
  parseLine line lineNum entryID = inr (Some entry) →
  ID entry = entryID ∧ Raw entry = line.
Proof.
  unfold parseLine.
  destruct (str_eqb _ _); [done|].
  destruct (_ <? 4)%nat; [done|].
  destruct (negb _); [done|].
  destruct (filter _ _); [|done].
  by intros [= <-].
Qed.

Lemma parseLine_error (line : list N) (lineNum entryID : Z) (err : error) :
  parseLine line lineNum entryID = inl err →
  ∃ reason, err = ParseError lineNum line reason.
Proof.
  unfold parseLine.
  destruct (str_eqb _ _); [done|].
  destruct (_ <? 4)%nat; [intros [= <-]; by eexists|].
  destruct (negb _); [intros [= <-]; by eexists|].
  destruct (filter _ _); [done|]. intros [= <-]. by eexists.
Qed.

Lemma ids_from_cons (id : Z) (n : nat) : ids_from id (S n) = id :: ids_from (id + 1) n.
Proof.
  unfold ids_from. simpl. rewrite Z.add_0_r. f_equal.
  rewrite <- seq_shift, map_map. apply map_ext. intros i. lia.
Qed.

(** What the loop adds to the entries it starts with, in either mode. *)
Lemma parse_lines_shape (strict : bool) (lines : list (list N)) (lineNum entryID : Z)
    (acc entries : list Entry) :
  parse_lines strict lines lineNum entryID acc = inr entries →
  ∃ new, entries = acc ++ new ∧
         map ID new = ids_from entryID (length new) ∧
         Forall checked_entry new ∧
         map Raw new `sublist_of` lines.
Proof.
  revert lineNum entryID acc.
  induction lines as [|line lines IH]; intros lineNum entryID acc.
  - intros [= <-]. exists []. rewrite app_nil_r. repeat split; [done|constructor].
  - rewrite parse_lines_cons.
    assert (Hskip : parse_lines strict lines (lineNum + 1) entryID acc = inr entries →
                    ∃ new, entries = acc ++ new ∧
                           map ID new = ids_from entryID (length new) ∧
                           Forall checked_entry new ∧
                           map Raw new `sublist_of` line :: lines).
    { intros (new & -> & Hids & Hchecked & Hsub)%IH.
      exists new. repeat split; try done. by apply sublist_cons. }
    destruct (_ || _); [done|].
    destruct (parseLine _ _ _) as [err|[entry|]] eqn:Hline.
    + by destruct strict.
    + intros (new & -> & Hids & Hchecked & Hsub)%IH.
      pose proof (parseLine_fields _ _ _ _ Hline) as [Hid Hraw].
      exists (entry :: new). rewrite <- app_assoc. split; [done|]. split; [|split].
      * simpl length. rewrite ids_from_cons. simpl. by rewrite Hid, Hids.
      * constructor; [by apply parseLine_checked in Hline|done].
      * simpl. rewrite Hraw. by apply sublist_skip.
    + done.
Qed.

(** The scanner delivers a prefix of the lines of the text. *)
Lemma scan_tokens_prefix (raw : list (list N)) :
  ∃ rest, map dropCR raw = (scan_tokens raw).1 ++ rest.
Proof.
  induction raw as [|data raw [rest IH]]; [by exists []|].
  change (scan_tokens (data :: raw))
    with (if (MaxScanTokenSize <=? byte_len data)%nat then ([], Some ErrTooLong)
          else let '(lines, err) := scan_tokens raw in (dropCR data :: lines, err)).
  destruct (MaxScanTokenSize <=? byte_len data)%nat.
  - by eexists.
  - destruct (scan_tokens raw) as [lines err]. exists rest. simpl in *. by rewrite IH.
Qed.

(** X1.  Whatever the mode, what [Parse] returns is numbered 1, 2, ..., n in
    list order; every entry has an address and names that pass the parser's
    checks; and the raw lines of the entries are lines of the text, in the
    order of the text, each used once.  The path is left empty. *)
Theorem Parse_result_shape (strict : bool) (text : list N) (hostsFile : HostsFile)
    (Hparse : Parse strict text = inr hostsFile) :
  map ID (Entries hostsFile) = ids_from 1 (length (Entries hostsFile)) ∧
  Forall checked_entry (Entries hostsFile) ∧
  map Raw (Entries hostsFile) `sublist_of` map dropCR (raw_lines text) ∧
  Path hostsFile = [].
Proof.
  unfold Parse in Hparse.
  destruct (scan_tokens_prefix (raw_lines text)) as [rest Hprefix].
  destruct (scan_tokens (raw_lines text)) as [lines scanErr]. simpl in Hprefix.
  destruct (parse_lines _ _ _ _ _) as [|entries] eqn:Hloop; [done|].
  destruct scanErr; [done|]. injection Hparse as <-.
  apply parse_lines_shape in Hloop as (new & -> & Hids & Hchecked & Hsub).
  simpl. repeat split; try done.
  rewrite Hprefix. by apply sublist_inserts_r.
Qed.

Lemma Parse_result_shape_witness :
  map ID (Entries sample_hosts_parsed) = [1; 2] ∧
  Forall checked_entry (Entries sample_hosts_parsed) ∧
  map Raw (Entries sample_hosts_parsed)
    `sublist_of` map dropCR (raw_lines (lit "# hosts\n127.0.0.1 a\n\nnot an entry\n::1 b # six\n")) ∧
  Path sample_hosts_parsed = [].
Proof.
  apply (Parse_result_shape false (lit "# hosts\n127.0.0.1 a\n\nnot an entry\n::1 b # six\n")).
  vm_compute. reflexivity.
Defined.

(** X2.  In lenient mode [Parse] fails on no content whose lines are
    shorter than the scanner's buffer. *)
Theorem Parse_lenient_total (text : list N)
    (Hfit : Forall (λ data, (byte_len data < MaxScanTokenSize)%nat) (raw_lines text)) :
  ∃ hostsFile, Parse false text = inr hostsFile.
Proof.
  eexists. unfold Parse. by rewrite (scan_tokens_fit _ Hfit), parse_lines_lenient.
Qed.

Lemma Parse_lenient_total_witness :
  ∃ hostsFile,
    Parse false (lit "# hosts\n127.0.0.1 a\n\nnot an entry\n::1 b # six\n") = inr hostsFile.
Proof.
  apply Parse_lenient_total. apply lines_fit_test. vm_compute. reflexivity.
Defined.

(** The loop in strict mode stops at the first line [parseLine] refuses:
    the error carries the number and the text of that line, and the lines
    before it went through. *)
Lemma parse_lines_strict_error (lines : list (list N)) (lineNum entryID : Z)
    (acc : list Entry) (err : error) :
  parse_lines true lines lineNum entryID acc = inl err →
  ∃ (i : nat) content reason entries,
    err = ParseError (lineNum + Z.of_nat i + 1) content reason ∧
    lines !! i = Some content ∧
    parse_lines true (take i lines) lineNum entryID acc = inr entries.
Proof.
  revert lineNum entryID acc.
  induction lines as [|line lines IH]; intros lineNum entryID acc; [done|].
  rewrite parse_lines_cons.
  assert (Hnext : ∀ entryID' acc',
            parse_lines true (take 0 (line :: lines)) lineNum entryID acc = inr acc →
            (∀ i, parse_lines true (take (S i) (line :: lines)) lineNum entryID acc
                  = parse_lines true (take i lines) (lineNum + 1) entryID' acc') →
            parse_lines true lines (lineNum + 1) entryID' acc' = inl err →
            ∃ (i : nat) content reason entries,
              err = ParseError (lineNum + Z.of_nat i + 1) content reason ∧
              (line :: lines) !! i = Some content ∧
              parse_lines true (take i (line :: lines)) lineNum entryID acc = inr entries).
  { intros entryID' acc' _ Hstep (i & content & reason & entries & -> & Hi & Hbefore)%IH.
    exists (S i), content, reason, entries. split; [f_equal; lia|]. split; [done|].
    by rewrite Hstep. }
  destruct (_ || _) eqn:Hskip.
  - apply Hnext; [done|]. intros i. simpl take. by rewrite parse_lines_cons, Hskip.
  - destruct (parseLine _ _ _) as [err'|[entry|]] eqn:Hline.
    + intros [= <-]. apply parseLine_error in Hline as [reason ->].
      exists 0%nat, line, reason, acc. split; [f_equal; lia|done].
    + apply Hnext; [done|]. intros i. simpl take.
      by rewrite parse_lines_cons, Hskip, Hline.
    + apply Hnext; [done|]. intros i. simpl take.
      by rewrite parse_lines_cons, Hskip, Hline.
Qed.

(** X3.  A parse error of strict [Parse] names the first offending line:
    its number counts the lines of the text from 1, its content is that
    line, and the lines before it parse without error. *)
Theorem Parse_strict_error_line (text : list N) (line : Z) (content reason : list N)
    (Herror : Parse true text = inl (ParseError line content reason)) :
  ∃ i : nat,
    line = Z.of_nat i + 1 ∧
    map dropCR (raw_lines text) !! i = Some content ∧
    ∃ entries, parse_lines true (take i (map dropCR (raw_lines text))) 0 1 [] = inr entries.
Proof.
  unfold Parse in Herror.
  destruct (scan_tokens_prefix (raw_lines text)) as [rest Hprefix].
  destruct (scan_tokens (raw_lines text)) as [lines scanErr]. simpl in Hprefix.
  destruct (parse_lines _ _ _ _ _) as [err|entries] eqn:Hloop.
  - injection Herror as ->.
    apply parse_lines_strict_error in Hloop
      as (i & content' & reason' & entries & [= -> -> ->] & Hi & Hbefore).
    exists i. split; [lia|]. rewrite Hprefix.
    split; [by apply lookup_app_l_Some|].
    exists entries. rewrite take_app_le; [done|].
    apply lookup_lt_Some in Hi. lia.
  - by destruct scanErr.
Qed.

Lemma Parse_strict_error_line_witness :
  ∃ i : nat,
    3 = Z.of_nat i + 1 ∧
    map dropCR (raw_lines (lit "127.0.0.1 a\n\n10.0.0.1 bad_name\n::1 b\n")) !! i
    = Some (lit "10.0.0.1 bad_name") ∧
    ∃ entries,
      parse_lines true
        (take i (map dropCR (raw_lines (lit "127.0.0.1 a\n\n10.0.0.1 bad_name\n::1 b\n"))))
        0 1 [] = inr entries.
Proof.
  apply (Parse_strict_error_line _ 3 _ (lit "invalid hostname: bad_name")).
  vm_compute. reflexivity.
Defined.

(** ** More about the store *)

Lemma tempPath_neq_path (s : Store) : path s ++ lit ".tmp" ≠ path s.
Proof. apply app_nonempty_neq. discriminate. Qed.

Lemma tempPath_neq_backupPath (s : Store) (w : World) :
  path s ++ lit ".tmp" ≠ backupPath s w.
Proof. unfold backupPath. intros Heq%app_inv_head. discriminate. Qed.

(** Whatever becomes of the backup step, it leaves the file at the store's
    path alone. *)
Lemma createBackup_keeps (s : Store) (w : World) :
  files (createBackup s w).2 !! path s = files w !! path s.
Proof.
  unfold createBackup, os_Open. simpl.
  destruct (files w !! path s) as [content|] eqn:Hfile; [|by simpl].
  destruct (fail_open (faults w) (path s)); [by simpl|].
  unfold os_Create. simpl. fold (backupPath s w).
  destruct (fail_create (faults w) (backupPath s w)); [by simpl|].
  unfold os_Write. simpl.
  destruct (short_write (faults w) (backupPath s w)); simpl;
    by rewrite !lookup_insert_ne by (apply backupPath_neq_path).
Qed.

Lemma writeTemp_keeps (s : Store) (tempPath content p : list N) (w : World) :
  tempPath ≠ p →
  files (writeTemp s tempPath content w).2 !! p = files w !! p.
Proof.
  intros Hne. unfold writeTemp, os_Create.
  destruct (fail_create (faults w) tempPath); [by simpl|].
  unfold os_Write. simpl.
  destruct (short_write (faults w) tempPath); simpl.
  - by rewrite !lookup_insert_ne.
  - unfold os_Sync. simpl. destruct (fail_sync (faults w) tempPath); simpl;
      by rewrite !lookup_insert_ne.
Qed.

(** X4.  [Save] is all or nothing for the file at the store's path: when
    it returns an error, whichever step failed, the content of that file is
    what it was before the call. *)
Theorem Save_failure_keeps_file (s : Store) (hostsFile : HostsFile) (w w1 : World)
    (err : error)
    (Hsave : Save s hostsFile w = (Some err, w1)) :
  files w1 !! path s = files w !! path s.
Proof.
  unfold Save in Hsave.
  destruct (requiresRoot s w); [by injection Hsave as _ <-|].
  pose proof (createBackup_keeps s w) as Hbackup.
  destruct (createBackup s w) as [[err1|] w2]; simpl in Hbackup.
  { by injection Hsave as _ <-. }
  pose proof (writeTemp_keeps s (path s ++ lit ".tmp") (Serialize hostsFile) (path s) w2
                (tempPath_neq_path s)) as Htemp.
  destruct (writeTemp _ _ _ _) as [[err2|] w3]; simpl in Htemp.
  { injection Hsave as _ <-. by rewrite Htemp. }
  unfold os_Rename in Hsave.
  destruct (files w3 !! (path s ++ lit ".tmp")) as [content|].
  - destruct (fail_rename _ _ _); [|done].
    injection Hsave as _ <-. simpl.
    rewrite lookup_delete_ne by (apply tempPath_neq_path). by rewrite Htemp.
  - injection Hsave as _ <-. simpl.
    rewrite lookup_delete_ne by (apply tempPath_neq_path). by rewrite Htemp.
Qed.

Lemma Save_failure_keeps_file_witness :
  files (Save sample_store sample_hosts (one_file_world rename_fails)).2 !! path sample_store
  = files (one_file_world rename_fails) !! path sample_store.
Proof.
  apply (Save_failure_keeps_file sample_store sample_hosts (one_file_world rename_fails) _
           (Wrap (lit "failed to atomically replace hosts file")
              (PathError (lit "rename") (lit "/tmp/hosts.tmp")))).
  vm_compute. reflexivity.
Defined.

(** X5.  When the user may write the file, the file exists and no call
    fails, [Save] returns without error; afterwards the file at the store's
    path holds the serialization of the hosts file, the backup holds the
    content the file had, the temporary file is gone and every other file
    is as it was. *)
Theorem Save_replaces_file (s : Store) (hostsFile : HostsFile) (w : World)
    (old : list N)
    (Hroot : requiresRoot s w = None)
    (Hfile : files w !! path s = Some old)
    (Hfaults : faults w = no_faults) :
  ∃ w1,
    Save s hostsFile w = (None, w1) ∧
    files w1 !! path s = Some (Serialize hostsFile) ∧
    files w1 !! backupPath s w = Some old ∧
    files w1 !! (path s ++ lit ".tmp") = None ∧
    ∀ p, p ≠ path s → p ≠ backupPath s w → p ≠ path s ++ lit ".tmp" →
         files w1 !! p = files w !! p.
Proof.
  eexists. split.
  - unfold Save. rewrite Hroot.
    unfold createBackup, os_Open. simpl. rewrite Hfile, Hfaults. simpl.
    unfold os_Create. simpl. rewrite Hfaults. simpl.
    unfold os_Write. simpl. rewrite Hfaults. simpl.
    unfold writeTemp, os_Create. simpl. rewrite Hfaults. simpl.
    unfold os_Write. simpl. rewrite Hfaults. simpl.
    unfold os_Sync. simpl. rewrite Hfaults. simpl.
    unfold os_Rename. simpl. rewrite lookup_insert_eq, Hfaults. simpl.
    reflexivity.
  - simpl. fold (backupPath s w).
    pose proof (backupPath_neq_path s w) as Hb.
    pose proof (tempPath_neq_path s) as Ht.
    pose proof (tempPath_neq_backupPath s w) as Htb.
    split; [by rewrite lookup_insert_eq|]. split; [|split].
    + rewrite lookup_insert_ne, lookup_delete_ne by done.
      by rewrite !lookup_insert_ne, lookup_insert_eq by done.
    + rewrite lookup_insert_ne by done. by rewrite lookup_delete_eq.
    + intros p Hp Hpb Hpt.
      rewrite lookup_insert_ne, lookup_delete_ne by done.
      by rewrite !lookup_insert_ne by done.
Qed.

Lemma Save_replaces_file_witness :
  ∃ w1,
    Save sample_store sample_hosts (one_file_world no_faults) = (None, w1) ∧
    files w1 !! path sample_store = Some (Serialize sample_hosts) ∧
    files w1 !! backupPath sample_store (one_file_world no_faults)
    = Some (lit "127.0.0.1\tlocalhost\n") ∧
    files w1 !! (path sample_store ++ lit ".tmp") = None ∧
    ∀ p, p ≠ path sample_store →
         p ≠ backupPath sample_store (one_file_world no_faults) →
         p ≠ path sample_store ++ lit ".tmp" →
         files w1 !! p = files (one_file_world no_faults) !! p.
Proof.
  apply (Save_replaces_file sample_store sample_hosts (one_file_world no_faults)
           (lit "127.0.0.1\tlocalhost\n")).
  - vm_compute. reflexivity.
  - vm_compute. reflexivity.
  - reflexivity.
Defined.

(** X6.  [Verify] changes no file, whether the hosts file loads or not; all
    it does is open the file at the store's path. *)
Theorem Verify_frame (range_order : gmap (list N) (list Z) → list (list N * list Z))
    (s : Store) (w : World) :
  files (Verify range_order s w).2 = files w ∧
  trace (Verify range_order s w).2 = trace w ++ [EvOpen (path s)].
Proof.
  unfold Verify. pose proof (Load_frame s w) as Hload.
  destruct (Load s w) as [[err|hostsFile] w1]; [done|].
  by destruct (fold_left verify_entry _ _).
Qed.

(** ** More about the lock *)

(** X7.  On a lock that nobody holds, [TryLock] succeeds at once: the
    instance is locked, the flock on the lock file belongs to the handle
    just opened, and the file starts with the process identifier.  [Unlock]
    then releases the flock, removes the lock file and gives the instance
    back as new. *)
Theorem TryLock_Unlock_round_trip (fl : FileLock) (os : LockOS)
    (Hfree : acquired fl = false)
    (Hopen : fail_openfile os (lockfile fl) = false)
    (Herrno : flock_errno os (lockfile fl) = None)
    (Hnobody : flocks os !! lockfile fl = None)
    (Hunlock : fail_unlock os (lockfile fl) = false) :
  ∃ fl1 os1 os2,
    TryLock fl os = (None, fl1, os1) ∧
    IsLocked fl1 = true ∧
    flocks os1 !! lockfile fl = Some (next_fd os) ∧
    lock_files os1 !! lockfile fl
    = Some ((fmt_d (pid os) ++ lit "\n")
            ++ drop (length (fmt_d (pid os) ++ lit "\n"))
                 (default [] (lock_files os !! lockfile fl))) ∧
    Unlock fl1 os1 = (None, NewFileLock (lock_path fl), os2) ∧
    flocks os2 !! lockfile fl = None ∧
    lock_files os2 !! lockfile fl = None.
Proof.
  unfold TryLock. rewrite Hfree. fold (lockfile fl).
  unfold os_OpenFile. simpl. rewrite Hopen.
  unfold flock_ex_nb. simpl. rewrite lookup_insert_eq. simpl.
  rewrite Herrno, Hnobody.
  unfold record_holder, file_Sync, file_WriteString. simpl.
  rewrite lookup_insert_eq. simpl.
  eexists _, _, _. split; [reflexivity|]. simpl.
  split; [done|]. split; [by rewrite lookup_insert_eq|].
  split; [by rewrite !lookup_insert_eq|].
  unfold Unlock. simpl. unfold flock_un. simpl.
  rewrite lookup_insert_eq. simpl. rewrite Hunlock, lookup_insert_eq, Nat.eqb_refl.
  simpl. fold (lockfile fl). unfold file_Close. simpl.
  split; [reflexivity|]. simpl.
  rewrite lookup_insert_eq. simpl. rewrite lookup_delete_eq.
  split; by rewrite lookup_delete_eq.
Qed.

Lemma TryLock_Unlock_round_trip_witness :
  ∃ fl1 os1 os2,
    TryLock sample_lock fresh_os = (None, fl1, os1) ∧
    IsLocked fl1 = true ∧
    flocks os1 !! lockfile sample_lock = Some (next_fd fresh_os) ∧
    lock_files os1 !! lockfile sample_lock
    = Some ((fmt_d (pid fresh_os) ++ lit "\n")
            ++ drop (length (fmt_d (pid fresh_os) ++ lit "\n"))
                 (default [] (lock_files fresh_os !! lockfile sample_lock))) ∧
    Unlock fl1 os1 = (None, NewFileLock (lock_path sample_lock), os2) ∧
    flocks os2 !! lockfile sample_lock = None ∧
    lock_files os2 !! lockfile sample_lock = None.
Proof.
  apply (TryLock_Unlock_round_trip sample_lock fresh_os); vm_compute; reflexivity.
Defined.

Lemma is_contention_EAGAIN : is_contention EAGAIN = true.
Proof. vm_compute. reflexivity. Qed.

(** A flock somebody else holds and keeps is refused with EAGAIN. *)
Lemma flock_ex_nb_contended (fd holder : nat) (p : list N) (os : LockOS) :
  open_fds os !! fd = Some p → flock_errno os p = None →
  flocks os !! p = Some holder → holder ≠ fd → release_at os !! p = None →
  flock_ex_nb fd os = (Some EAGAIN, lk_log os (LkFlock fd false)).
Proof.
  intros Hfd Herrno Hheld Hother Hkeeps. unfold flock_ex_nb. simpl.
  rewrite Hfd, Herrno, Hheld, Hkeeps.
  by rewrite (proj2 (Nat.eqb_neq _ _) Hother).
Qed.


(** The closing of a handle that holds no flock leaves the flocks alone. *)
Lemma file_Close_other (fd holder : nat) (p : list N) (os : LockOS) :
  open_fds os !! fd = Some p → flocks os !! p = Some holder → holder ≠ fd →
  flocks (file_Close fd os) = flocks os ∧ open_fds (file_Close fd os) !! fd = None ∧
  now (file_Close fd os) = now os.
Proof.
  intros Hfd Hheld Hother. unfold file_Close. simpl. rewrite Hfd, Hheld.
  rewrite (proj2 (Nat.eqb_neq _ _) Hother). by rewrite lookup_delete_eq.
Qed.


(** X8.  While another process holds the lock, [TryLock] fails at once
    with the message for a lock held elsewhere; the instance stays
    released, the other process keeps the flock, the handle opened for the
    attempt is closed again and no time passes. *)
Theorem TryLock_held_elsewhere (fl : FileLock) (os : LockOS) (holder : nat)
    (Hfree : acquired fl = false)
    (Hheld : held_by_other fl os holder) :
  ∃ os1,
    TryLock fl os
    = (Some (Error (lit "lock is already held by another process")), fl, os1) ∧
    flocks os1 !! lockfile fl = Some holder ∧
    open_fds os1 !! next_fd os = None ∧
    now os1 = now os.
Proof.
  destruct Hheld as (Hflock & Hother & Hkeeps & Hopen & Herrno).
  unfold TryLock. rewrite Hfree. fold (lockfile fl).
  unfold os_OpenFile. simpl. rewrite Hopen.
  set (os0 := mkLockOS _ _ _ _ _ _ _ _ _ _ _).
  assert (Hfd : open_fds os0 !! next_fd os = Some (lockfile fl))
    by (unfold os0; simpl; by rewrite lookup_insert_eq).
  rewrite (flock_ex_nb_contended (next_fd os) holder (lockfile fl) os0) by done.
  rewrite is_contention_EAGAIN.
  destruct (file_Close_other (next_fd os) holder (lockfile fl)
              (lk_log os0 (LkFlock (next_fd os) false)) Hfd Hflock Hother)
    as (Hflocks & Hclosed & Hsame).
  eexists. split; [reflexivity|]. rewrite Hflocks, Hsame. by repeat split.
Qed.

Lemma TryLock_held_elsewhere_witness :
  ∃ os1,
    TryLock sample_lock held_elsewhere
    = (Some (Error (lit "lock is already held by another process")), sample_lock, os1) ∧
    flocks os1 !! lockfile sample_lock = Some 3%nat ∧
    open_fds os1 !! next_fd held_elsewhere = None ∧
    now os1 = now held_elsewhere.
Proof.
  apply (TryLock_held_elsewhere sample_lock held_elsewhere 3); [reflexivity|].
  repeat split; try (vm_compute; reflexivity). vm_compute. lia.
Defined.



(** ** More about the model *)

(** X10.  As long as no identifier is the largest int, the identifier
    [AddEntry] gives is greater than zero and than every identifier in the
    file, so it is new, whatever the identifiers are. *)
Theorem AddEntry_fresh_id (h : HostsFile) (entry : Entry)
    (Hbelow : ∀ e, e ∈ Entries h → ID e < max_int) :
  ∃ id,
    Entries (AddEntry h entry) = Entries h ++ [set_ID entry id] ∧
    0 < id ∧ ∀ e, e ∈ Entries h → ID e < id.
Proof.
  unfold AddEntry.
  destruct (Entries h) as [|e0 entries] eqn:Hentries; simpl.
  - exists 1. split; [done|]. split; [lia|]. by intros e ?%elem_of_nil.
  - exists (wrap_int (maxID (e0 :: entries) + 1)). split; [done|].
    pose proof (maxID_nonneg (e0 :: entries)) as Hpos.
    assert (Hmax : maxID (e0 :: entries) < max_int).
    { destruct (maxID_fold_attained (e0 :: entries) 0) as [Hzero|(e & He & Hid)].
      - fold (maxID (e0 :: entries)) in Hzero. rewrite Hzero. by vm_compute.
      - fold (maxID (e0 :: entries)) in Hid. rewrite <- Hid. by apply Hbelow. }
    rewrite wrap_int_small by (unfold min_int, max_int, int_bits in *; lia).
    split; [lia|]. intros e He.
    pose proof (maxID_fold_bound _ 0 _ He) as Hge. fold (maxID (e0 :: entries)) in Hge.
    lia.
Qed.

Lemma AddEntry_fresh_id_witness :
  ∃ id,
    Entries (AddEntry sample_hosts (mkEntry 0 (lit "::1") [lit "six"] [] false []))
    = Entries sample_hosts ++ [set_ID (mkEntry 0 (lit "::1") [lit "six"] [] false []) id] ∧
    0 < id ∧ ∀ e, e ∈ Entries sample_hosts → ID e < id.
Proof.
  apply (AddEntry_fresh_id sample_hosts).
  intros e He. unfold sample_hosts in He. simpl in He.
  apply elem_of_cons in He as [->|He]; [by vm_compute|].
  apply list_elem_of_singleton in He as ->. by vm_compute.
Defined.

Lemma FindByID_found (entries : list Entry) (id : Z) :
  (FindByID entries id = None ∧ Forall (λ e, ID e ≠ id) entries)
  ∨ ∃ i e, FindByID entries id = Some i ∧ entries !! i = Some e ∧ ID e = id ∧
           Forall (λ e', ID e' ≠ id) (take i entries).
Proof.
  induction entries as [|e entries IH]; [by left|]. simpl.
  destruct (Z.eqb_spec (ID e) id) as [Heq|Hne].
  - right. exists 0%nat, e. by repeat split.
  - destruct IH as [[-> Hnone]|(i & e' & -> & Hi & Hid & Hbefore)].
    + left. split; [done|by constructor].
    + right. exists (S i), e'. repeat split; try done. simpl. by constructor.
Qed.

(** X11.  [FindByID] returns the first entry with the identifier, and none
    when no entry has it. *)
Theorem FindByID_first_match (h : HostsFile) (id : Z) :
  (FindByID (Entries h) id = None ∧ Forall (λ e, ID e ≠ id) (Entries h))
  ∨ ∃ i e, FindByID (Entries h) id = Some i ∧ Entries h !! i = Some e ∧ ID e = id ∧
           Forall (λ e', ID e' ≠ id) (take i (Entries h)).
Proof. apply FindByID_found. Qed.

(** X12.  [RemoveEntry] takes out the first entry with the identifier and
    keeps the others in their order; when no entry has the identifier it
    reports so and leaves the file as it is. *)
Theorem RemoveEntry_first_match (h : HostsFile) (id : Z) :
  (RemoveEntry h id = (h, false) ∧ Forall (λ e, ID e ≠ id) (Entries h))
  ∨ ∃ before e after,
      Entries h = before ++ e :: after ∧ ID e = id ∧
      Forall (λ e', ID e' ≠ id) before ∧
      RemoveEntry h id = (mkHostsFile (before ++ after) (Path h), true).
Proof.
  unfold RemoveEntry.
  assert (Hfirst : (remove_first (Entries h) id = None
                    ∧ Forall (λ e, ID e ≠ id) (Entries h))
                   ∨ ∃ before e after,
                       Entries h = before ++ e :: after ∧ ID e = id ∧
                       Forall (λ e', ID e' ≠ id) before ∧
                       remove_first (Entries h) id = Some (before ++ after)).
  { induction (Entries h) as [|e entries IH]; [by left|]. simpl.
    destruct (Z.eqb_spec (ID e) id) as [Heq|Hne].
    - right. exists [], e, entries. by repeat split.
    - destruct IH as [[-> Hnone]|(before & e' & after & -> & Hid & Hbefore & ->)].
      + left. split; [done|by constructor].
      + right. exists (e :: before), e', after. repeat split; try done.
        by constructor. }
  destruct Hfirst as [[-> Hnone]|(before & e & after & Heq & Hid & Hbefore & ->)].
  - by left.
  - right. by exists before, e, after.
Qed.

Lemma alter_set_Disabled (entries : list Entry) (i : nat) (e : Entry) (d : bool) :
  entries !! i = Some e →
  alter (λ e0, set_Disabled e0 d) i entries = <[i := set_Disabled e d]> entries.
Proof.
  intros Hi. apply list_eq. intros j. destruct (decide (i = j)) as [<-|Hne].
  - rewrite list_lookup_alter_eq, Hi, list_lookup_insert_eq; [done|].
    by apply lookup_lt_Some in Hi.
  - by rewrite list_lookup_alter_ne, list_lookup_insert_ne.
Qed.

Lemma FindByID_insert (entries : list Entry) (id : Z) (i : nat) (e : Entry) :
  FindByID entries id = Some i → ID e = id →
  FindByID (<[i := e]> entries) id = Some i.
Proof.
  intros Hfind Hid. revert i Hfind.
  induction entries as [|e0 entries IH]; intros i Hfind; [done|].
  simpl in Hfind. destruct (Z.eqb_spec (ID e0) id) as [Heq|Hne].
  - injection Hfind as <-. simpl. by rewrite (proj2 (Z.eqb_eq _ _) Hid).
  - destruct (FindByID entries id) as [i'|] eqn:Hrest; [|done].
    injection Hfind as <-. simpl. rewrite (proj2 (Z.eqb_neq _ _) Hne).
    by rewrite (IH i' eq_refl).
Qed.

(** X13.  [DisableEntry] and [EnableEntry] find the entry as [FindByID]
    does and change its flag only: the other entries and the other fields
    stay, the line of the disabled entry is the line of the enabled one
    after a hash and a space, and enabling after disabling gives the entry
    enabled.  Without an entry of that identifier both report so and change
    nothing. *)
Theorem DisableEntry_sets_flag (h : HostsFile) (id : Z) :
  (FindByID (Entries h) id = None ∧
   DisableEntry h id = (h, false) ∧ EnableEntry h id = (h, false))
  ∨ ∃ i e h1,
      FindByID (Entries h) id = Some i ∧ Entries h !! i = Some e ∧
      DisableEntry h id = (h1, true) ∧
      Entries h1 = <[i := set_Disabled e true]> (Entries h) ∧ Path h1 = Path h ∧
      String (set_Disabled e true) = lit "# " ++ String (set_Disabled e false) ∧
      EnableEntry h1 id
      = (mkHostsFile (<[i := set_Disabled e false]> (Entries h)) (Path h), true).
Proof.
  unfold DisableEntry, EnableEntry, set_entry_disabled.
  destruct (FindByID_found (Entries h) id)
    as [[Hnone _]|(i & e & Hfind & Hi & Hid & Hbefore)].
  - left. by rewrite Hnone.
  - right. rewrite Hfind, (alter_set_Disabled _ _ _ _ Hi).
    exists i, e. eexists. split; [done|]. split; [done|].
    split; [reflexivity|]. simpl. split; [done|]. split; [done|]. split; [done|].
    rewrite (FindByID_insert _ _ _ _ Hfind) by done.
    rewrite (alter_set_Disabled _ i (set_Disabled e true)).
    + by rewrite list_insert_insert_eq.
    + apply list_lookup_insert_eq. by apply lookup_lt_Some in Hi.
Qed.

(** ** More about the parser's checks *)

(** X14.  A hostname the parser accepts is not empty, is at most 253 bytes
    long and holds only letters, digits, hyphens and dots (of ASCII). *)
Theorem isValidHostname_plain (hostname : list N)
    (Hvalid : isValidHostname hostname = true) :
  hostname ≠ [] ∧ (byte_len hostname <= 253)%nat ∧
  Forall (λ c, (c = 45 ∨ c = 46 ∨ 48 <= c <= 57 ∨ 65 <= c <= 90 ∨ 97 <= c <= 122)%N)
         hostname.
Proof.
  pose proof (isValidHostname_runes hostname Hvalid) as [Hne Hrunes].
  split; [done|]. split.
  - unfold isValidHostname in Hvalid.
    destruct (byte_len hostname =? 0)%nat; [done|]. simpl in Hvalid.
    destruct (253 <? byte_len hostname)%nat eqn:Hlong; [done|].
    by apply Nat.ltb_ge in Hlong.
  - apply forallb_Forall_true in Hrunes.
    eapply Forall_impl; [exact Hrunes|]. intros c Hc. rune_facts; lia.
Qed.

Lemma isValidHostname_plain_witness :
  lit "db-1.example.org" ≠ [] ∧ (byte_len (lit "db-1.example.org") <= 253)%nat ∧
  Forall (λ c, (c = 45 ∨ c = 46 ∨ 48 <= c <= 57 ∨ 65 <= c <= 90 ∨ 97 <= c <= 122)%N)
         (lit "db-1.example.org").
Proof. apply isValidHostname_plain. vm_compute. reflexivity. Defined.
